(** * mev-bot-system: decision and execution orchestration layer

    A shallow embedding of the Python sources
      - bot/strategy_manager.py     (opportunity selection)
      - blockchain/nonce_manager.py (nonce sequencing)
      - utils/rpc_manager.py        (multi-tier endpoint failover)
      - utils/kill_switch.py        (risk governor)
      - utils/multicall.py          (batched read aggregator)
      - ml/tip_optimizer.py         (priority tip calculation)
      - utils/data_cache.py         (TTL cache)
    together with the properties stated about them.

    Conventions.  Python [int] is [Z].  A Python [float] (money, confidence
    scores, gwei amounts, wall-clock seconds) is a rational number [Q];
    comparisons, [abs], [max], [min] and [int()] are exact on it, as they are
    on doubles.  Float arithmetic (the profit difference of the selection,
    the accumulated loss and the day number of the risk governor, the fee
    bump of a replacement transaction, the tip computation) gives the exact
    result rounded to the nearest double, ties to even (module [Float64]).
    The infinities and nan are outside the model, and a conversion that
    Python refuses with an [OverflowError] is an explicit failure.  Two
    quantities are taken exactly: the age of a cache entry, a difference of
    two nearby clock readings, which doubles represent without rounding, and
    the percentage reported by the status of the risk governor.
    Dictionaries are [gmap]s, Python sets are [gset]s, exceptions are
    explicit result values, and the wall clock and the network are explicit
    arguments of the operations that read them. *)

From Stdlib Require Import ZArith QArith Qabs Qround Qreduction Qpower.
From Stdlib Require Import Lqa Lia List Bool.
From Stdlib Require Import String Ascii.
From stdpp Require Import base option list gmap strings.

Import ListNotations.
Local Open Scope Z_scope.

(** ** Numeric helpers shared by the components *)

Module PyNum.

(** Python's [int(x)] on a float: truncation toward zero. *)
Definition py_int (x : Q) : Z := Z.quot (Qnum x) (Zpos (Qden x)).

(** [a >= b] and [a > b] on floats. *)
Definition geb (a b : Q) : bool := Qle_bool b a.
Definition gtb (a b : Q) : bool := negb (Qle_bool a b).

(** Python's [max(a, b)] returns [b] only when [b > a]; [min(a, b)] returns
    [b] only when [b < a]. *)
Definition py_max (a b : Q) : Q := if gtb b a then b else a.
Definition py_min (a b : Q) : Q := if gtb a b then b else a.

Lemma gtb_spec (a b : Q) : if gtb a b then (b < a)%Q else (a <= b)%Q.
Proof.
  unfold gtb. destruct (Qle_bool a b) eqn:E; simpl.
  - apply Qle_bool_iff. assumption.
  - apply Qnot_le_lt. intros H. apply Qle_bool_iff in H. congruence.
Qed.



Lemma py_min_glb (a b c : Q) : (c <= a)%Q -> (c <= b)%Q -> (c <= py_min a b)%Q.
Proof. intros Ha Hb. unfold py_min. destruct (gtb a b); assumption. Qed.



(** Truncation is floor on non-negative numbers and ceiling on negative
    ones. *)
Lemma py_int_floor_ceiling (x : Q) :
  py_int x = if 0 <=? Qnum x then Qfloor x else Qceiling x.
Proof.
  destruct x as [n d]. unfold py_int, Qceiling, Qfloor. simpl.
  destruct (0 <=? n) eqn:E.
  - apply Z.leb_le in E. apply Z.quot_div_nonneg; lia.
  - apply Z.leb_gt in E.
    rewrite <- (Z.opp_involutive n) at 1.
    rewrite Z.quot_opp_l by lia. f_equal.
    apply Z.quot_div_nonneg; lia.
Qed.

Lemma py_int_monotone (x y : Q) : (x <= y)%Q -> py_int x <= py_int y.
Proof.
  intros Hxy. rewrite !py_int_floor_ceiling.
  destruct (0 <=? Qnum x) eqn:Ex, (0 <=? Qnum y) eqn:Ey.
  - apply Qfloor_resp_le. assumption.
  - apply Z.leb_le in Ex. apply Z.leb_gt in Ey. exfalso.
    unfold Qle in Hxy. nia.
  - apply Z.leb_gt in Ex. apply Z.leb_le in Ey.
    apply Z.le_trans with 0.
    + unfold Qceiling. apply Z.opp_nonpos_nonneg.
      change 0 with (Qfloor 0). apply Qfloor_resp_le.
      unfold Qle, Qopp. simpl. lia.
    + change 0 with (Qfloor 0). apply Qfloor_resp_le.
      unfold Qle. simpl. lia.
  - apply Qceiling_resp_le. assumption.
Qed.

(** [int()] depends on the value only. *)
Lemma py_int_comp (x y : Q) : (x == y)%Q -> py_int x = py_int y.
Proof.
  intros H. apply Z.le_antisymm; apply py_int_monotone; rewrite H;
    apply Qle_refl.
Qed.

Lemma py_int_Z (n : Z) : py_int (inject_Z n) = n.
Proof. unfold py_int. simpl. apply Z.quot_1_r. Qed.

End PyNum.

(** ** Double-precision arithmetic

    Python's [float] is the IEEE 754 binary64 format: 53 significant bits,
    the least exponent [-1074], rounding to nearest with ties to even. *)

Module Float64.

Local Open Scope Q_scope.

(** The least exponent of a double: the spacing of the subnormal numbers is
    [2^-1074]. *)
Definition emin : Z := (-1074)%Z.

Definition pow2 (e : Z) : Q := 2 ^ e.

(** [floor (log2 x)] for a positive [x]. *)
Definition ilog2 (x : Q) : Z :=
  let k := (Z.log2 (Qnum x) - Z.log2 (Zpos (Qden x)))%Z in
  if Qle_bool (pow2 k) x then k else (k - 1)%Z.

(** The integer nearest to [q], ties going to the even one. *)
Definition rne (q : Q) : Z :=
  let f := Qfloor q in
  match Qcompare (q - inject_Z f) (1 # 2) with
  | Lt => f
  | Gt => (f + 1)%Z
  | Eq => if Z.even f then f else (f + 1)%Z
  end.

(** The exponent of the last place of a positive [x]: 53 significant bits,
    and never below [emin]. *)
Definition exponent (x : Q) : Z := Z.max (ilog2 x - 52) emin.

(** A positive [x] rounded to the nearest multiple of [2^e], for [e] the
    exponent of its last place. *)
Definition round_pos (x : Q) : Q :=
  let e := exponent x in inject_Z (rne (x * pow2 (- e))) * pow2 e.

(** The double nearest to [x], in lowest terms.  The exponent is not bounded
    above: a result of magnitude [2^1024] or more stands for an overflow
    (see [overflows]). *)
Definition round (x : Q) : Q :=
  Qred match Qnum x with
       | Z0 => 0
       | Zpos _ => round_pos x
       | Zneg _ => - round_pos (- x)
       end.

(** *** Powers of two *)

Lemma pow2_pos (e : Z) : 0 < pow2 e.
Proof. apply Qpower_0_lt. reflexivity. Qed.

Lemma pow2_add (a b : Z) : pow2 (a + b) == pow2 a * pow2 b.
Proof. apply Qpower_plus. discriminate. Qed.

Lemma pow2_le (a b : Z) : (a <= b)%Z -> pow2 a <= pow2 b.
Proof. intros H. apply Qpower_le_compat_l; [assumption|discriminate]. Qed.

Lemma pow2_lt (a b : Z) : (a < b)%Z -> pow2 a < pow2 b.
Proof. intros H. apply Qpower_lt_compat_l; [assumption|reflexivity]. Qed.

Lemma pow2_lt_inv (a b : Z) : pow2 a < pow2 b -> (a < b)%Z.
Proof. intros H. apply (Qpower_lt_compat_l_inv 2); [assumption|reflexivity]. Qed.

Lemma pow2_le_inv (a b : Z) : pow2 a <= pow2 b -> (a <= b)%Z.
Proof. intros H. apply (Qpower_le_compat_l_inv 2); [assumption|reflexivity]. Qed.

Lemma pow2_Z (n : Z) : (0 <= n)%Z -> pow2 n == inject_Z (2 ^ n).
Proof. intros H. unfold pow2. rewrite Zpower_Qpower by assumption. reflexivity. Qed.

Lemma pow2_cancel (e : Z) : pow2 (- e) * pow2 e == 1.
Proof. rewrite <- pow2_add. replace (- e + e)%Z with 0%Z by lia. reflexivity. Qed.

Lemma pow2_sub_Z (a b : Z) :
  (0 <= a)%Z -> (0 <= b)%Z -> pow2 (a - b) * inject_Z (2 ^ b) == inject_Z (2 ^ a).
Proof.
  intros Ha Hb. rewrite <- !pow2_Z by assumption. rewrite <- pow2_add.
  replace (a - b + b)%Z with a by lia. reflexivity.
Qed.

(** *** The integer logarithm *)

Lemma ilog2_spec (x : Q) :
  0 < x -> pow2 (ilog2 x) <= x /\ x < pow2 (ilog2 x + 1).
Proof.
  intros Hx. destruct x as [n d].
  assert (Hn : (0 < n)%Z) by (unfold Qlt in Hx; simpl in Hx; lia).
  unfold ilog2. cbn [Qnum Qden].
  pose proof (Z.log2_spec n Hn) as [Hn1 Hn2].
  pose proof (Z.log2_spec (Zpos d) eq_refl) as [Hd1 Hd2].
  pose proof (Z.log2_nonneg n) as Ha. pose proof (Z.log2_nonneg (Zpos d)) as Hb.
  set (a := Z.log2 n) in *. set (b := Z.log2 (Zpos d)) in *.
  assert (Hup : n # d < pow2 (a - b + 1)).
  { apply Qmult_lt_r with (inject_Z (2 ^ b)).
    - change 0 with (inject_Z 0). rewrite <- Zlt_Qlt. lia.
    - replace (a - b + 1)%Z with (a + 1 - b)%Z by lia.
      rewrite pow2_sub_Z by lia.
      unfold Qlt, Qmult, inject_Z. simpl. nia. }
  assert (Hlow : pow2 (a - b - 1) <= n # d).
  { apply Qmult_le_r with (inject_Z (2 ^ (b + 1))).
    - change 0 with (inject_Z 0). rewrite <- Zlt_Qlt. lia.
    - replace (a - b - 1)%Z with (a - (b + 1))%Z by lia.
      rewrite pow2_sub_Z by lia.
      unfold Qle, Qmult, inject_Z. simpl. nia. }
  destruct (Qle_bool (pow2 (a - b)) (n # d)) eqn:E.
  - apply Qle_bool_iff in E. split; assumption.
  - split; [assumption|].
    replace (a - b - 1 + 1)%Z with (a - b)%Z by lia.
    apply Qnot_le_lt. intros H. apply Qle_bool_iff in H. congruence.
Qed.

Lemma ilog2_unique (x : Q) (k : Z) :
  pow2 k <= x -> x < pow2 (k + 1) -> ilog2 x = k.
Proof.
  intros H1 H2.
  assert (Hx : 0 < x) by (eapply Qlt_le_trans; [apply (pow2_pos k)|assumption]).
  destruct (ilog2_spec x Hx) as [H3 H4].
  assert (k < ilog2 x + 1)%Z
    by (apply pow2_lt_inv; eapply Qle_lt_trans; eassumption).
  assert (ilog2 x < k + 1)%Z
    by (apply pow2_lt_inv; eapply Qle_lt_trans; eassumption).
  lia.
Qed.

Lemma ilog2_monotone (x y : Q) : 0 < x -> x <= y -> (ilog2 x <= ilog2 y)%Z.
Proof.
  intros Hx Hxy.
  assert (Hy : 0 < y) by (eapply Qlt_le_trans; eassumption).
  destruct (ilog2_spec x Hx) as [H1 _]. destruct (ilog2_spec y Hy) as [_ H2].
  assert (ilog2 x < ilog2 y + 1)%Z; [|lia].
  apply pow2_lt_inv. eapply Qle_lt_trans; [|eassumption].
  eapply Qle_trans; eassumption.
Qed.

(** *** Rounding to the nearest integer *)

Lemma rne_bounds (q : Q) : (Qfloor q <= rne q <= Qfloor q + 1)%Z.
Proof.
  unfold rne. destruct (Qcompare (q - inject_Z (Qfloor q)) (1 # 2)); [|lia..].
  destruct (Z.even (Qfloor q)); lia.
Qed.

Lemma rne_Z (n : Z) : rne (inject_Z n) = n.
Proof.
  unfold rne. rewrite Qfloor_Z.
  assert (E : inject_Z n - inject_Z n == 0) by ring.
  rewrite E. reflexivity.
Qed.

Lemma rne_monotone (a b : Q) : a <= b -> (rne a <= rne b)%Z.
Proof.
  intros Hab.
  pose proof (Qfloor_resp_le a b Hab) as Hf.
  pose proof (rne_bounds a) as Ba. pose proof (rne_bounds b) as Bb.
  destruct (Z.eq_dec (Qfloor a) (Qfloor b)) as [E|E]; [|lia].
  unfold rne in *. rewrite <- E in *.
  destruct (Qcompare (a - inject_Z (Qfloor a)) (1 # 2)) eqn:Ca;
    destruct (Qcompare (b - inject_Z (Qfloor a)) (1 # 2)) eqn:Cb;
    try (destruct (Z.even (Qfloor a)); lia); try lia; exfalso.
  - apply Qeq_alt in Ca. apply Qlt_alt in Cb. lra.
  - apply Qgt_alt in Ca. apply Qeq_alt in Cb. lra.
  - apply Qgt_alt in Ca. apply Qlt_alt in Cb. lra.
Qed.

Lemma rne_le_Z (q : Q) (n : Z) : q <= inject_Z n -> (rne q <= n)%Z.
Proof. intros H. rewrite <- (rne_Z n). apply rne_monotone. assumption. Qed.

Lemma rne_ge_Z (q : Q) (n : Z) : inject_Z n <= q -> (n <= rne q)%Z.
Proof. intros H. rewrite <- (rne_Z n). apply rne_monotone. assumption. Qed.

Lemma rne_eq_Z (q : Q) (n : Z) : q == inject_Z n -> rne q = n.
Proof.
  intros H. apply Z.le_antisymm; [apply rne_le_Z|apply rne_ge_Z]; rewrite H;
    apply Qle_refl.
Qed.

(** *** Rounding a positive number *)

Lemma exponent_ge_emin (x : Q) : (emin <= exponent x)%Z.
Proof. unfold exponent. lia. Qed.

Lemma scaled_lt (x : Q) : 0 < x -> x * pow2 (- exponent x) < pow2 53.
Proof.
  intros Hx. destruct (ilog2_spec x Hx) as [_ H].
  apply Qmult_lt_r with (pow2 (exponent x)); [apply pow2_pos|].
  rewrite <- Qmult_assoc, pow2_cancel, Qmult_1_r, <- pow2_add.
  eapply Qlt_le_trans; [eassumption|]. apply pow2_le. unfold exponent. lia.
Qed.

Lemma scaled_ge (x : Q) :
  0 < x -> (emin < exponent x)%Z -> pow2 52 <= x * pow2 (- exponent x).
Proof.
  intros Hx He. destruct (ilog2_spec x Hx) as [H _].
  apply Qmult_le_r with (pow2 (exponent x)); [apply pow2_pos|].
  rewrite <- Qmult_assoc, pow2_cancel, Qmult_1_r, <- pow2_add.
  eapply Qle_trans; [|eassumption]. apply pow2_le. unfold exponent in *. lia.
Qed.

Lemma mantissa_bounds (x : Q) :
  0 < x -> (0 <= rne (x * pow2 (- exponent x)) <= 2 ^ 53)%Z.
Proof.
  intros Hx. split.
  - apply rne_ge_Z. apply Qmult_le_0_compat; [apply Qlt_le_weak; assumption|].
    apply Qlt_le_weak, pow2_pos.
  - apply rne_le_Z. rewrite <- (pow2_Z 53) by lia. apply Qlt_le_weak, scaled_lt.
    assumption.
Qed.

Lemma round_pos_nonneg (x : Q) : 0 < x -> 0 <= round_pos x.
Proof.
  intros Hx. unfold round_pos. apply Qmult_le_0_compat.
  - change 0 with (inject_Z 0). rewrite <- Zle_Qle.
    apply (mantissa_bounds x Hx).
  - apply Qlt_le_weak, pow2_pos.
Qed.

Lemma round_pos_monotone (x y : Q) :
  0 < x -> x <= y -> round_pos x <= round_pos y.
Proof.
  intros Hx Hxy.
  assert (Hy : 0 < y) by (eapply Qlt_le_trans; eassumption).
  pose proof (ilog2_monotone x y Hx Hxy) as Hl.
  assert (He : (exponent x <= exponent y)%Z) by (unfold exponent; lia).
  unfold round_pos.
  destruct (Z.eq_dec (exponent x) (exponent y)) as [E|E].
  - rewrite E. apply Qmult_le_compat_r; [|apply Qlt_le_weak, pow2_pos].
    rewrite <- Zle_Qle. apply rne_monotone.
    apply Qmult_le_compat_r; [assumption|apply Qlt_le_weak, pow2_pos].
  - apply Qle_trans with (pow2 (exponent y + 52)).
    + apply Qle_trans with (pow2 (53 + exponent x)); [|apply pow2_le; lia].
      rewrite pow2_add.
      apply Qmult_le_compat_r; [|apply Qlt_le_weak, pow2_pos].
      rewrite (pow2_Z 53) by lia. rewrite <- Zle_Qle. apply (mantissa_bounds x Hx).
    + replace (exponent y + 52)%Z with (52 + exponent y)%Z by lia.
      rewrite pow2_add.
      apply Qmult_le_compat_r; [|apply Qlt_le_weak, pow2_pos].
      rewrite (pow2_Z 52) by lia. rewrite <- Zle_Qle. apply rne_ge_Z.
      rewrite <- (pow2_Z 52) by lia. apply scaled_ge; [assumption|].
      pose proof (exponent_ge_emin x). lia.
Qed.

(** *** The rounding function *)

Lemma Qnum_sign (x : Q) :
  match Qnum x with
  | Z0 => x == 0
  | Zpos _ => 0 < x
  | Zneg _ => x < 0
  end.
Proof. destruct x as [[|p|p] d]; unfold Qeq, Qlt; simpl; lia. Qed.

Lemma round_zero (x : Q) : x == 0 -> round x = 0.
Proof.
  intros H. unfold round. pose proof (Qnum_sign x) as S.
  destruct (Qnum x); [reflexivity|lra..].
Qed.

Lemma round_of_pos (x : Q) : 0 < x -> round x == round_pos x.
Proof.
  intros H. unfold round. pose proof (Qnum_sign x) as S.
  destruct (Qnum x); [lra| |lra]. apply Qred_correct.
Qed.

Lemma round_of_neg (x : Q) : x < 0 -> round x == - round_pos (- x).
Proof.
  intros H. unfold round. pose proof (Qnum_sign x) as S.
  destruct (Qnum x); [lra|lra|]. apply Qred_correct.
Qed.

Lemma round_canonical (x : Q) : Qred (round x) = round x.
Proof. unfold round. apply Qred_complete, Qred_correct. Qed.

(** Rounding is monotone: a larger exact result never rounds to a smaller
    double. *)
Lemma round_monotone (x y : Q) : x <= y -> round x <= round y.
Proof.
  intros Hxy.
  destruct (Qlt_le_dec 0 x) as [Hx|Hx].
  - assert (Hy : 0 < y) by lra.
    rewrite (round_of_pos x Hx), (round_of_pos y Hy).
    apply round_pos_monotone; assumption.
  - destruct (Qeq_dec x 0) as [Ex|Ex].
    + rewrite (round_zero x Ex).
      destruct (Qeq_dec y 0) as [Ey|Ey].
      * rewrite (round_zero y Ey). apply Qle_refl.
      * assert (Hy : 0 < y) by lra. rewrite (round_of_pos y Hy).
        apply round_pos_nonneg. assumption.
    + assert (Hx' : x < 0) by lra. rewrite (round_of_neg x Hx').
      assert (Hnx : 0 < - x) by lra.
      pose proof (round_pos_nonneg (- x) Hnx) as Nx.
      destruct (Qlt_le_dec y 0) as [Hy|Hy].
      * rewrite (round_of_neg y Hy).
        assert (Hny : 0 < - y) by lra.
        assert (L : - y <= - x) by lra.
        pose proof (round_pos_monotone (- y) (- x) Hny L). lra.
      * destruct (Qeq_dec y 0) as [Ey|Ey].
        -- rewrite (round_zero y Ey). lra.
        -- assert (Hy' : 0 < y) by lra. rewrite (round_of_pos y Hy').
           pose proof (round_pos_nonneg y Hy'). lra.
Qed.

(** Rounding depends on the value only, and its result is in lowest terms. *)
Lemma round_comp (x y : Q) : x == y -> round x = round y.
Proof.
  intros H. rewrite <- (round_canonical x), <- (round_canonical y).
  apply Qred_complete. apply Qle_antisym; apply round_monotone; rewrite H;
    apply Qle_refl.
Qed.

Lemma round_opp (x : Q) : round (- x) = - round x.
Proof.
  destruct x as [[|p|p] d]; unfold round.
  - reflexivity.
  - change (Qnum (- (Z.pos p # d))) with (Z.neg p).
    change (Qnum (Z.pos p # d)) with (Z.pos p).
    cbv beta iota. rewrite Qred_opp. reflexivity.
  - change (Qnum (- (Z.neg p # d))) with (Z.pos p).
    change (Qnum (Z.neg p # d)) with (Z.neg p).
    cbv beta iota. rewrite Qred_opp.
    destruct (Qred (round_pos (- (Z.neg p # d)))) as [n' d'].
    unfold Qopp. cbn [Qnum Qden]. rewrite Z.opp_involutive. reflexivity.
Qed.

Lemma round_eq (x y : Q) : round x == round y -> round x = round y.
Proof.
  intros H. rewrite <- (round_canonical x), <- (round_canonical y).
  apply Qred_complete. assumption.
Qed.

(** *** The doubles *)

(** A number [k * 2^e] with at most 53 significant bits and an exponent in
    range is a double: rounding leaves it alone. *)
Lemma round_pos_exact (k e : Z) :
  (0 < k <= 2 ^ 53)%Z -> (emin <= e)%Z ->
  round_pos (inject_Z k * pow2 e) == inject_Z k * pow2 e.
Proof.
  intros Hk He. set (z := inject_Z k * pow2 e).
  assert (Zdef : z == inject_Z k * pow2 e) by reflexivity. clearbody z.
  assert (Hz : 0 < z).
  { rewrite Zdef. apply Qmult_lt_0_compat; [|apply pow2_pos].
    change 0 with (inject_Z 0). rewrite <- Zlt_Qlt. lia. }
  assert (HK : exists K, z * pow2 (- exponent z) == inject_Z K).
  { destruct (Z_le_gt_dec (exponent z) e) as [L|G].
    - exists (k * 2 ^ (e - exponent z))%Z.
      assert (P : pow2 (e - exponent z) == inject_Z (2 ^ (e - exponent z)))
        by (apply pow2_Z; lia).
      rewrite inject_Z_mult, <- P.
      replace (e - exponent z)%Z with (e + - exponent z)%Z by lia.
      rewrite pow2_add, Zdef at 1. ring.
    - exists (2 ^ 52)%Z.
      destruct (ilog2_spec z Hz) as [S1 S2].
      assert (E1 : exponent z = (ilog2 z - 52)%Z) by (unfold exponent in *; lia).
      assert (B : pow2 (53 + e) <= z).
      { eapply Qle_trans; [|exact S1]. apply pow2_le. lia. }
      assert (Hk' : (2 ^ 53 <= k)%Z).
      { rewrite Zle_Qle, <- (pow2_Z 53) by lia.
        apply Qmult_le_r with (pow2 e); [apply pow2_pos|].
        rewrite <- pow2_add, <- Zdef. exact B. }
      assert (Ek : k = (2 ^ 53)%Z) by lia.
      assert (Ez : z == pow2 (e + 53)).
      { rewrite Zdef, Ek, <- (pow2_Z 53), <- pow2_add by lia.
        replace (53 + e)%Z with (e + 53)%Z by lia. reflexivity. }
      assert (El : ilog2 z = (e + 53)%Z).
      { apply ilog2_unique; rewrite Ez; [apply Qle_refl|apply pow2_lt; lia]. }
      rewrite E1, El, <- (pow2_Z 52) by lia. rewrite Ez, <- pow2_add.
      replace (e + 53 + - (e + 53 - 52))%Z with 52%Z by lia. reflexivity. }
  destruct HK as [K HK]. unfold round_pos.
  rewrite (rne_eq_Z _ _ HK), <- HK.
  rewrite <- Qmult_assoc, pow2_cancel, Qmult_1_r. reflexivity.
Qed.

Lemma round_exact (k e : Z) :
  (Z.abs k <= 2 ^ 53)%Z -> (emin <= e)%Z ->
  round (inject_Z k * pow2 e) == inject_Z k * pow2 e.
Proof.
  intros Hk He. pose proof (pow2_pos e) as Hp.
  destruct (Z.lt_trichotomy k 0) as [N|[->|P]].
  - assert (E : inject_Z k * pow2 e == - (inject_Z (- k) * pow2 e))
      by (rewrite inject_Z_opp; ring).
    rewrite (round_comp _ _ E), round_opp.
    assert (Hz : 0 < inject_Z (- k) * pow2 e).
    { apply Qmult_lt_0_compat; [|assumption].
      change 0 with (inject_Z 0). rewrite <- Zlt_Qlt. lia. }
    rewrite (round_of_pos _ Hz), round_pos_exact by lia.
    rewrite inject_Z_opp. ring.
  - rewrite round_zero by ring. ring.
  - assert (Hz : 0 < inject_Z k * pow2 e).
    { apply Qmult_lt_0_compat; [|assumption].
      change 0 with (inject_Z 0). rewrite <- Zlt_Qlt. lia. }
    rewrite (round_of_pos _ Hz). apply round_pos_exact; lia.
Qed.

(** Integers of at most 53 bits are doubles. *)
Lemma round_Z (k : Z) : (Z.abs k <= 2 ^ 53)%Z -> round (inject_Z k) == inject_Z k.
Proof.
  intros Hk.
  assert (E : inject_Z k == inject_Z k * pow2 0) by (unfold pow2; simpl; ring).
  rewrite (round_comp _ _ E), round_exact by (unfold emin; lia).
  symmetry. exact E.
Qed.

Lemma round_idempotent_pos (x : Q) : 0 < x -> round (round x) == round x.
Proof.
  intros Hx. pose proof (round_of_pos x Hx) as E.
  rewrite (round_comp _ _ E). rewrite E. unfold round_pos.
  apply round_exact; [|apply exponent_ge_emin].
  pose proof (mantissa_bounds x Hx). lia.
Qed.

(** The result of an operation is a double. *)
Lemma round_idempotent (x : Q) : round (round x) = round x.
Proof.
  apply round_eq.
  destruct (Qlt_le_dec 0 x) as [Hx|Hx]; [apply round_idempotent_pos; assumption|].
  destruct (Qeq_dec x 0) as [Ex|Ex].
  - rewrite (round_zero x Ex). reflexivity.
  - assert (Hn : 0 < - x) by lra.
    assert (E : x == - - x) by ring.
    rewrite (round_comp _ _ E), (round_opp (- x)), (round_opp (round (- x))).
    rewrite (round_idempotent_pos _ Hn). reflexivity.
Qed.

(** A Python float: a rational that rounding leaves alone. *)
Record float := mkFloat {
  fval : Q;
  float_ok : round fval = fval
}.

Definition of_Q (q : Q) : float := mkFloat (round q) (round_idempotent q).

Definition zero : float := mkFloat 0 eq_refl.

(** The arithmetic of floats: the exact result, rounded. *)
Definition add (a b : Q) : float := of_Q (a + b).
Definition sub (a b : Q) : float := of_Q (a - b).
Definition mul (a b : Q) : float := of_Q (a * b).
Definition div (a b : Q) : float := of_Q (a / b).

(** A result of magnitude [2^1024] or more is not a finite double. *)
Definition overflows (q : Q) : bool := Qle_bool (pow2 1024) (Qabs q).

(** A later float result is never below an earlier float it is at least
    equal to before rounding. *)
Lemma round_ge_float (f : float) (x : Q) : fval f <= x -> fval f <= round x.
Proof.
  intros H. rewrite <- (float_ok f). apply round_monotone. assumption.
Qed.

Lemma round_le_float (f : float) (x : Q) : x <= fval f -> round x <= fval f.
Proof.
  intros H. rewrite <- (float_ok f). apply round_monotone. assumption.
Qed.

End Float64.

Coercion Float64.fval : Float64.float >-> Q.

(** ** bot/strategy_manager.py *)

Module StrategyManager.

(** The opportunity dicts built in bot/bot_engine.py; the scheduler reads the
    keys ['strategy'], ['expected_profit_usd'] and, through
    [opp.get('confidence', 0)], the optional key ['confidence']. *)
Record Opportunity := mkOpportunity {
  strategy : string;
  expected_profit_usd : Q;
  confidence : option Q
}.

(** [self.priority_map] of [StrategyManager.__init__]. *)
Definition priority_map : gmap string Z :=
  <["sandwich_attack" := 5]>
  (<["flashloan_arbitrage" := 4]>
  (<["liquidation_arbitrage" := 4]>
  (<["triangular_arbitrage" := 3]>
  (<["direct_arbitrage" := 2]> ∅)))).

(** [self.priority_map.get(x['strategy'], 0)] *)
Definition priority (x : Opportunity) : Z :=
  default 0 (priority_map !! strategy x).

(** [opp.get('confidence', 0)] *)
Definition get_confidence (opp : Opportunity) : Q :=
  default 0%Q (confidence opp).

(** [list.sort(key=..., reverse=True)]: a stable sort into descending key
    order, elements with equal keys keeping their original relative order.
    [ge x y] is [key(x) >= key(y)]. *)
Fixpoint insert_desc {A} (ge : A -> A -> bool) (x : A) (l : list A) : list A :=
  match l with
  | [] => [x]
  | y :: l' => if ge x y then x :: y :: l' else y :: insert_desc ge x l'
  end.

Definition sort_desc {A} (ge : A -> A -> bool) (l : list A) : list A :=
  foldr (insert_desc ge) [] l.

Definition profit_ge (x y : Opportunity) : bool :=
  PyNum.geb (expected_profit_usd x) (expected_profit_usd y).

Definition priority_ge (x y : Opportunity) : bool :=
  priority y <=? priority x.

(** [similar_profit_threshold = 2.0] *)
Definition similar_profit_threshold : Q := 2%Q.

(** [abs(opp['expected_profit_usd'] - top_opp['expected_profit_usd'])
      <= similar_profit_threshold] *)
Definition similar_profit (top_opp opp : Opportunity) : bool :=
  Qle_bool
    (Qabs (Float64.sub (expected_profit_usd opp) (expected_profit_usd top_opp)))
    similar_profit_threshold.

(** [valid_opps]: the entries that are not [None]. *)
Definition valid_opps (opportunities : list (option Opportunity)) : list Opportunity :=
  omap id opportunities.

(** [confident_opps], before it is sorted in place. *)
Definition confident_opps (min_confidence : Q)
    (opportunities : list (option Opportunity)) : list Opportunity :=
  List.filter (fun opp => PyNum.geb (get_confidence opp) min_confidence)
              (valid_opps opportunities).

(** [StrategyManager.select_best_opportunity]; [min_confidence] is
    [config['ml_optimization']['min_confidence_score']]. *)
Definition select_best_opportunity (min_confidence : Q)
    (opportunities : list (option Opportunity)) : option Opportunity :=
  match valid_opps opportunities with
  | [] => None
  | _ =>
    match confident_opps min_confidence opportunities with
    | [] => None
    | confident =>
      let sorted := sort_desc profit_ge confident in
      match sorted with
      | [] => None
      | top_opp :: _ =>
        let similar_opps := List.filter (similar_profit top_opp) sorted in
        if (1 <? Z.of_nat (length similar_opps)) then
          head (sort_desc priority_ge similar_opps)
        else Some top_opp
      end
    end
  end.

(** The example of the ranking rule: A (sandwich, priority 5) and B (direct
    arbitrage, priority 2). *)
Definition opp_A : Opportunity :=
  mkOpportunity "sandwich_attack" 50%Q (Some (8 # 10)%Q).
Definition opp_B : Opportunity :=
  mkOpportunity "direct_arbitrage" 51%Q (Some (9 # 10)%Q).

Example select_A_B :
  select_best_opportunity (75 # 100) [Some opp_A; Some opp_B] = Some opp_A.
Proof. vm_compute. reflexivity. Qed.

Example select_B_A :
  select_best_opportunity (75 # 100) [Some opp_B; Some opp_A] = Some opp_A.
Proof. vm_compute. reflexivity. Qed.

(** The band is the one the float subtraction gives.  The doubles nearest to
    3.421514 and 1.421514 differ by a little more than 2, their float
    difference is 2.0, and the priority decides. *)
Definition opp_edge_direct : Opportunity :=
  mkOpportunity "direct_arbitrage" (Float64.of_Q (3421514 # 1000000))
                (Some (9 # 10)%Q).
Definition opp_edge_sandwich : Opportunity :=
  mkOpportunity "sandwich_attack" (Float64.of_Q (1421514 # 1000000))
                (Some (9 # 10)%Q).

Example select_at_band_edge :
  (2 < expected_profit_usd opp_edge_direct
       - expected_profit_usd opp_edge_sandwich)%Q /\
  similar_profit opp_edge_direct opp_edge_sandwich = true /\
  select_best_opportunity (75 # 100)
    [Some opp_edge_direct; Some opp_edge_sandwich] = Some opp_edge_sandwich.
Proof. vm_compute. auto. Qed.

(** *** Facts about the stable descending sort *)

Section sort_desc_facts.
Context {A : Type} (ge : A -> A -> bool).
Hypothesis ge_total : forall x y, ge x y = true \/ ge y x = true.
Hypothesis ge_trans :
  forall x y z, ge x y = true -> ge y z = true -> ge x z = true.

Lemma insert_desc_In (x : A) (l : list A) (y : A) :
  In y (insert_desc ge x l) <-> y = x \/ In y l.
Proof.
  induction l as [|z l IH]; simpl.
  - intuition.
  - destruct (ge x z); simpl; [intuition|].
    rewrite IH. intuition.
Qed.

Lemma sort_desc_In (l : list A) (y : A) :
  In y (sort_desc ge l) <-> In y l.
Proof.
  induction l as [|z l IH]; simpl; [tauto|].
  rewrite insert_desc_In, IH. intuition.
Qed.

(** Every element dominates the ones after it. *)
Inductive descending : list A -> Prop :=
| descending_nil : descending []
| descending_cons x l :
    (forall y, In y l -> ge x y = true) -> descending l -> descending (x :: l).

Lemma insert_desc_descending (x : A) (l : list A) :
  descending l -> descending (insert_desc ge x l).
Proof using ge_total ge_trans.
  induction 1 as [|z l Hz Hl IH]; simpl.
  - constructor; [intros y []|constructor].
  - destruct (ge x z) eqn:Hxz.
    + constructor; [|constructor; assumption].
      intros y [<-|Hy]; [assumption|].
      apply ge_trans with z; auto.
    + constructor; [|assumption].
      intros y Hy. apply insert_desc_In in Hy as [->|Hy]; [|auto].
      destruct (ge_total x z) as [E|E]; [congruence|assumption].
Qed.

Lemma sort_desc_descending (l : list A) : descending (sort_desc ge l).
Proof using ge_total ge_trans.
  induction l; simpl; [constructor|].
  apply insert_desc_descending; assumption.
Qed.

(** The first element of the sorted list dominates every input element. *)
Lemma sort_desc_head_max (l : list A) (x : A) (r : list A) :
  sort_desc ge l = x :: r -> forall y, In y l -> ge x y = true.
Proof using ge_total ge_trans.
  intros E y Hy. apply sort_desc_In in Hy. rewrite E in Hy.
  pose proof (sort_desc_descending l) as D. rewrite E in D.
  inversion D as [|x' r' Hdom Hr]; subst.
  destruct Hy as [Hy|Hy]; [subst y|auto].
  destruct (ge_total x x) as [E'|E']; exact E'.
Qed.

(** Stability: the elements of one key class keep their input order. *)
Definition same_key (a y : A) : bool := ge a y && ge y a.

Lemma insert_desc_same_key (a x : A) (l : list A) :
  List.filter (same_key a) (insert_desc ge x l)
  = List.filter (same_key a) (x :: l).
Proof using ge_trans.
  induction l as [|z l IH]; simpl; [reflexivity|].
  destruct (ge x z) eqn:Hxz; [reflexivity|].
  simpl in *. rewrite IH.
  destruct (same_key a x) eqn:Hax; [|reflexivity].
  destruct (same_key a z) eqn:Haz; [|reflexivity].
  exfalso. unfold same_key in Hax, Haz.
  apply andb_true_iff in Hax as [_ Hxa]. apply andb_true_iff in Haz as [Haz _].
  rewrite (ge_trans x a z Hxa Haz) in Hxz. discriminate.
Qed.

Lemma sort_desc_stable (a : A) (l : list A) :
  List.filter (same_key a) (sort_desc ge l) = List.filter (same_key a) l.
Proof using ge_trans.
  induction l as [|x l IH]; [reflexivity|].
  change (sort_desc ge (x :: l)) with (insert_desc ge x (sort_desc ge l)).
  rewrite insert_desc_same_key. simpl. rewrite IH. reflexivity.
Qed.

Lemma sort_desc_nonempty (l : list A) : l <> [] -> sort_desc ge l <> [].
Proof.
  destruct l as [|z l]; [congruence|]. intros _ E.
  assert (In z (sort_desc ge (z :: l))) as H
    by (apply sort_desc_In; left; reflexivity).
  rewrite E in H. destruct H.
Qed.
End sort_desc_facts.

Lemma profit_ge_total x y : profit_ge x y = true \/ profit_ge y x = true.
Proof.
  unfold profit_ge, PyNum.geb. rewrite !Qle_bool_iff.
  destruct (Qlt_le_dec (expected_profit_usd x) (expected_profit_usd y)) as [H|H];
    [right; apply Qlt_le_weak|left]; assumption.
Qed.

Lemma profit_ge_trans x y z :
  profit_ge x y = true -> profit_ge y z = true -> profit_ge x z = true.
Proof.
  unfold profit_ge, PyNum.geb. rewrite !Qle_bool_iff.
  intros H1 H2. eapply Qle_trans; eassumption.
Qed.

Lemma priority_ge_total x y : priority_ge x y = true \/ priority_ge y x = true.
Proof. unfold priority_ge. rewrite !Z.leb_le. lia. Qed.

Lemma priority_ge_trans x y z :
  priority_ge x y = true -> priority_ge y z = true -> priority_ge x z = true.
Proof. unfold priority_ge. rewrite !Z.leb_le. lia. Qed.

Lemma similar_profit_refl top : similar_profit top top = true.
Proof.
  unfold similar_profit, similar_profit_threshold. apply Qle_bool_iff.
  assert (E : (expected_profit_usd top - expected_profit_usd top == 0)%Q)
    by ring.
  cbn [Float64.sub Float64.of_Q Float64.fval].
  rewrite (Float64.round_zero _ E). simpl. discriminate.
Qed.

Lemma confident_opps_spec min_confidence opportunities opp :
  In opp (confident_opps min_confidence opportunities) <->
  In (Some opp) opportunities /\
  (min_confidence <= get_confidence opp)%Q.
Proof.
  unfold confident_opps, valid_opps, PyNum.geb.
  rewrite filter_In, Qle_bool_iff, <- !list_elem_of_In, list_elem_of_omap.
  split.
  - intros [(o & Ho & E) Hc]. simpl in E. subst o. auto.
  - intros [Ho Hc]. split; [exists (Some opp); auto|assumption].
Qed.

(** The least double above 2.0. *)
Definition above_two : Q := 2 + (1 # 2251799813685248).

(** The band of the code against the exact one.  A candidate whose profit is
    within $2 of the top profit is in the band, and a candidate of the band is
    within less than [above_two] of the top profit: the float difference is
    at most 2.0 only if the exact one is below the next double. *)
Lemma similar_profit_exact_band (top_opp opp : Opportunity) :
  ((Qabs (expected_profit_usd opp - expected_profit_usd top_opp) <= 2)%Q ->
   similar_profit top_opp opp = true) /\
  (similar_profit top_opp opp = true ->
   (Qabs (expected_profit_usd opp - expected_profit_usd top_opp)
    < above_two)%Q).
Proof.
  unfold similar_profit, similar_profit_threshold.
  cbn [Float64.sub Float64.of_Q Float64.fval].
  set (x := (expected_profit_usd opp - expected_profit_usd top_opp)%Q).
  assert (R2 : (Float64.round 2 == 2)%Q) by (vm_compute; reflexivity).
  assert (Rm2 : (Float64.round (- (2)) == - (2))%Q) by (vm_compute; reflexivity).
  assert (Ra : (Float64.round above_two == above_two)%Q)
    by (vm_compute; reflexivity).
  assert (Rma : (Float64.round (- above_two) == - above_two)%Q)
    by (vm_compute; reflexivity).
  split.
  - intros H. apply Qabs_Qle_condition in H as [H1 H2].
    apply Qle_bool_iff, Qabs_Qle_condition.
    apply Float64.round_monotone in H1, H2. rewrite Rm2 in H1.
    rewrite R2 in H2. split; assumption.
  - intros H. apply Qle_bool_iff, Qabs_Qle_condition in H as [H1 H2].
    apply Qabs_Qlt_condition. unfold above_two in *. split.
    + apply Qnot_le_lt. intros L. apply Float64.round_monotone in L.
      rewrite Rma in L. lra.
    + apply Qnot_le_lt. intros L. apply Float64.round_monotone in L.
      rewrite Ra in L. lra.
Qed.

(** What the selection returns, in terms of the confident candidates. *)
Lemma select_best_opportunity_cases min_confidence opportunities :
  let cands := confident_opps min_confidence opportunities in
  match select_best_opportunity min_confidence opportunities with
  | None => cands = []
  | Some winner =>
      exists top,
        In top cands /\ In winner cands /\
        (forall c, In c cands ->
           (expected_profit_usd c <= expected_profit_usd top)%Q) /\
        similar_profit top winner = true /\
        (forall c, In c cands -> similar_profit top c = true ->
           priority c <= priority winner)
  end.
Proof.
  intros cands. unfold select_best_opportunity. fold cands.
  destruct (valid_opps opportunities) as [|v vs] eqn:Ev.
  { subst cands. unfold confident_opps. rewrite Ev. reflexivity. }
  destruct cands as [|c0 cs] eqn:Ec; [reflexivity|].
  set (cl := c0 :: cs) in *.
  destruct (sort_desc profit_ge cl) as [|top rest] eqn:Es.
  { exfalso. revert Es. apply sort_desc_nonempty. discriminate. }
  assert (Htop : In top cl).
  { apply (sort_desc_In profit_ge). rewrite Es. left; reflexivity. }
  assert (Hmax : forall c, In c cl ->
            (expected_profit_usd c <= expected_profit_usd top)%Q).
  { intros c Hc. apply Qle_bool_iff.
    apply (sort_desc_head_max profit_ge profit_ge_total profit_ge_trans
             cl top rest Es c Hc). }
  set (similar := List.filter (similar_profit top) (top :: rest)).
  assert (Hsim : forall c, In c similar <->
                   In c cl /\ similar_profit top c = true).
  { intros c. unfold similar. rewrite filter_In, <- Es, sort_desc_In. tauto. }
  assert (Htop_sim : In top similar).
  { apply Hsim. split; [assumption|apply similar_profit_refl]. }
  destruct (1 <? Z.of_nat (length similar)) eqn:Elen.
  - destruct (sort_desc priority_ge similar) as [|w ws] eqn:Ep.
    { exfalso. revert Ep. apply sort_desc_nonempty.
      intros E. rewrite E in Htop_sim. destruct Htop_sim. }
    simpl. exists top.
    assert (Hw : In w similar).
    { apply (sort_desc_In priority_ge). rewrite Ep. left; reflexivity. }
    apply Hsim in Hw as [Hw1 Hw2].
    repeat split; try assumption.
    intros c Hc Hb. apply Z.leb_le.
    apply (sort_desc_head_max priority_ge priority_ge_total priority_ge_trans
             similar w ws Ep c). apply Hsim. auto.
  - exists top. repeat split; try assumption; [apply similar_profit_refl|].
    intros c Hc Hb.
    assert (Hcs : In c similar) by (apply Hsim; auto).
    apply Z.ltb_ge in Elen.
    destruct similar as [|s1 [|s2 ss]]; simpl in *; [tauto| |lia].
    destruct Hcs as [<-|[]]. destruct Htop_sim as [<-|[]]. lia.
Qed.



(** C5.  A candidate whose confidence is below [min_confidence] is never the
    selected winner, whatever its profit (the winner is one of the input
    opportunities and its confidence reaches the threshold); and when every
    candidate is below the threshold, or there is none, nothing is selected. *)
Theorem select_best_opportunity_confidence_filter
    (min_confidence : Q) (opportunities : list (option Opportunity)) :
  (forall opp, (get_confidence opp < min_confidence)%Q ->
     select_best_opportunity min_confidence opportunities <> Some opp) /\
  (forall winner,
     select_best_opportunity min_confidence opportunities = Some winner ->
     In (Some winner) opportunities /\
     (min_confidence <= get_confidence winner)%Q) /\
  ((forall opp, In (Some opp) opportunities ->
      (get_confidence opp < min_confidence)%Q) ->
   select_best_opportunity min_confidence opportunities = None).
Proof.
  pose proof (select_best_opportunity_cases min_confidence opportunities) as H.
  simpl in H.
  assert (Hw : forall winner,
     select_best_opportunity min_confidence opportunities = Some winner ->
     In (Some winner) opportunities /\
     (min_confidence <= get_confidence winner)%Q).
  { intros w E. rewrite E in H. destruct H as (top & _ & Hin & _).
    apply confident_opps_spec in Hin. exact Hin. }
  split; [|split; [exact Hw|]].
  - intros opp Hlt E. apply Hw in E as [_ Hge].
    apply (Qlt_not_le _ _ Hlt Hge).
  - intros Hall.
    destruct (select_best_opportunity min_confidence opportunities) as [w|];
      [|reflexivity].
    destruct (Hw w eq_refl) as [Hin Hge].
    exfalso. apply (Qlt_not_le _ _ (Hall w Hin) Hge).
Qed.

Definition opp_low : Opportunity :=
  mkOpportunity "sandwich_attack" 1000%Q (Some (1 # 2)%Q).

Lemma select_best_opportunity_confidence_filter_witness :
  select_best_opportunity (75 # 100) [Some opp_low; Some opp_B] <> Some opp_low /\
  select_best_opportunity (75 # 100) [Some opp_low; None] = None.
Proof.
  split.
  - apply (proj1 (select_best_opportunity_confidence_filter
                    (75 # 100) [Some opp_low; Some opp_B]) opp_low).
    vm_compute. reflexivity.
  - apply (proj2 (proj2 (select_best_opportunity_confidence_filter
                    (75 # 100) [Some opp_low; None]))).
    intros opp [E|[E|[]]]; [|discriminate].
    injection E as <-. vm_compute. reflexivity.
Defined.


(** *** A clear profit lead, and the enabled strategies *)

(** A candidate that trails the top one by [above_two] or more is outside
    the band. *)
Lemma trailing_is_outside_band (top_opp opp : Opportunity) :
  (expected_profit_usd opp + above_two <= expected_profit_usd top_opp)%Q ->
  similar_profit top_opp opp = false.
Proof.
  intros H. destruct (similar_profit top_opp opp) eqn:E; [exfalso|reflexivity].
  apply similar_profit_exact_band in E.
  assert (Hneg : (expected_profit_usd opp - expected_profit_usd top_opp <= 0)%Q)
    by (unfold above_two in H; lra).
  rewrite (Qabs_neg _ Hneg) in E. lra.
Qed.

(** Priority only decides near-ties.  When one confident candidate leads
    every other confident candidate by more than $2 of expected profit in
    double arithmetic, that is by at least 2.0000000000000004 (the least
    double above 2.0), it is selected whatever the priorities. *)
Theorem clear_profit_lead_wins
    (min_confidence : Q) (opportunities : list (option Opportunity))
    (leader : Opportunity) :
  In leader (confident_opps min_confidence opportunities) ->
  (forall c, In c (confident_opps min_confidence opportunities) ->
     c = leader \/
     (expected_profit_usd c + above_two <= expected_profit_usd leader)%Q) ->
  select_best_opportunity min_confidence opportunities = Some leader.
Proof.
  intros Hin Hlead.
  pose proof (select_best_opportunity_cases min_confidence opportunities) as H.
  simpl in H.
  destruct (select_best_opportunity min_confidence opportunities) as [w|].
  - destruct H as (top & Htop & Hw & Hmax & Hband & _).
    assert (Etop : top = leader).
    { destruct (Hlead top Htop) as [E|Hlt]; [assumption|].
      pose proof (Hmax leader Hin). unfold above_two in Hlt. lra. }
    subst top. destruct (Hlead w Hw) as [->|Hlt]; [reflexivity|].
    rewrite (trailing_is_outside_band _ _ Hlt) in Hband. discriminate.
  - rewrite H in Hin. destruct Hin.
Qed.

Definition opp_big : Opportunity :=
  mkOpportunity "direct_arbitrage" 60%Q (Some (9 # 10)%Q).

Lemma clear_profit_lead_wins_witness :
  select_best_opportunity (75 # 100) [Some opp_A; Some opp_big] = Some opp_big.
Proof.
  apply clear_profit_lead_wins.
  - vm_compute. auto.
  - intros c Hc. vm_compute in Hc. destruct Hc as [<-|[<-|[]]].
    + right. vm_compute. discriminate.
    + left. reflexivity.
Defined.

(** [config['strategies']]: the strategy names in the order of the dict,
    each with the value of its ['enabled'] key when it has one. *)
Definition strategies_config := list (string * option bool).

(** [get_active_strategies] *)
Definition get_active_strategies (strategies : strategies_config)
  : list string :=
  map fst (List.filter (fun entry => default false (snd entry)) strategies).

(** [config['strategies'].get(name, {})]: the entry of the dict. *)
Fixpoint strategy_entry (strategies : strategies_config) (name : string)
  : option (option bool) :=
  match strategies with
  | [] => None
  | (n, cfg) :: rest =>
      if String.eqb n name then Some cfg else strategy_entry rest name
  end.

(** [is_strategy_enabled] *)
Definition is_strategy_enabled (strategies : strategies_config)
    (strategy_name : string) : bool :=
  match strategy_entry strategies strategy_name with
  | Some cfg => default false cfg
  | None => false
  end.

(** The two views of the configuration agree: for a dict of strategies (no
    key twice), a name is listed by [get_active_strategies] exactly when
    [is_strategy_enabled] answers [True] for it; the list follows the order
    of the configuration and names no strategy twice.  A strategy that is
    unknown or has no ['enabled'] key counts as disabled. *)
Theorem active_strategies_are_the_enabled_ones
    (strategies : strategies_config) :
  NoDup (map fst strategies) ->
  (forall name,
     In name (get_active_strategies strategies) <->
     is_strategy_enabled strategies name = true) /\
  NoDup (get_active_strategies strategies) /\
  sublist (get_active_strategies strategies) (map fst strategies) /\
  (forall name,
     (strategy_entry strategies name = None \/
      strategy_entry strategies name = Some None) ->
     is_strategy_enabled strategies name = false).
Proof.
  intros Hnd. split; [|split; [|split]].
  - induction strategies as [|[n cfg] rest IH]; intros name.
    + simpl. split; [tauto|discriminate].
    + inversion Hnd as [|x xs Hn Hrest]; subst.
      unfold get_active_strategies, is_strategy_enabled in *.
      cbn [List.filter strategy_entry snd].
      destruct (String.eqb_spec n name) as [->|Hne].
      * destruct (default false cfg) eqn:Ed.
        -- cbn [map fst]. split; [reflexivity|]. intros _. left. reflexivity.
        -- split; [|discriminate]. intros Hin. exfalso. apply Hn.
           apply list_elem_of_In. apply in_map_iff in Hin as ([n' c'] & E & Hin).
           simpl in E. subst n'. apply filter_In in Hin as [Hin _].
           apply in_map_iff. exists (name, c'). auto.
      * rewrite <- (IH Hrest name).
        destruct (default false cfg); cbn [map fst]; [|tauto].
        split; [intros [E|H]; [congruence|assumption]|right; assumption].
  - unfold get_active_strategies.
    induction strategies as [|[n cfg] rest IH]; [constructor|].
    inversion Hnd as [|x xs Hn Hrest]; subst. cbn [List.filter snd].
    destruct (default false cfg); cbn [map fst]; [|apply IH; assumption].
    constructor; [|apply IH; assumption].
    intros Hin. apply Hn. apply list_elem_of_In in Hin.
    apply list_elem_of_In.
    apply in_map_iff in Hin as ([n' c'] & E & Hin). simpl in E. subst n'.
    apply filter_In in Hin as [Hin _]. apply in_map_iff. exists (n, c'). auto.
  - unfold get_active_strategies. clear Hnd.
    induction strategies as [|[n cfg] rest IH]; [constructor|].
    cbn [List.filter snd]. destruct (default false cfg); cbn [map fst].
    + apply sublist_skip. assumption.
    + apply sublist_cons. assumption.
  - intros name [E|E]; unfold is_strategy_enabled; rewrite E; reflexivity.
Qed.

Definition sample_strategies : strategies_config :=
  [("direct_arbitrage", Some true); ("sandwich_attack", Some false);
   ("triangular_arbitrage", None); ("liquidation_arbitrage", Some true)].

Lemma active_strategies_are_the_enabled_ones_witness :
  (In "liquidation_arbitrage" (get_active_strategies sample_strategies) <->
   is_strategy_enabled sample_strategies "liquidation_arbitrage" = true) /\
  NoDup (get_active_strategies sample_strategies).
Proof.
  assert (Hnd : NoDup (map fst sample_strategies)).
  { unfold sample_strategies. cbn [map fst].
    repeat constructor; rewrite ?elem_of_cons, ?elem_of_nil;
      intuition discriminate. }
  destruct (active_strategies_are_the_enabled_ones sample_strategies Hnd)
    as (H1 & H2 & _).
  split; [apply H1|exact H2].
Defined.

End StrategyManager.

(** ** blockchain/nonce_manager.py *)

Module NonceManager.

(** [self.current_nonce] (initially [None]) and [self.pending_nonces]. *)
Record state := mkState {
  current_nonce : option Z;
  pending_nonces : gset Z
}.

(** [_sync_nonce]; [chain] is the answer of
    [w3.eth.get_transaction_count(address, 'pending')] at that moment, [None]
    when the request raises. *)
Definition _sync_nonce (chain : option Z) (s : state) : state :=
  match chain with
  | Some nonce => mkState (Some nonce) (pending_nonces s)
  | None => mkState (Some 0) (pending_nonces s)
  end.

(** [__init__] *)
Definition init (chain : option Z) : state :=
  _sync_nonce chain (mkState None ∅).

(** [get_nonce], the body run under [self.lock]; the result is the returned
    nonce and the new state ([None] stands for the [TypeError] that
    [None + 1] would raise). *)
Definition get_nonce (chain : option Z) (s : state) : option (Z * state) :=
  let s1 := match current_nonce s with
            | None => _sync_nonce chain s
            | Some _ => s
            end in
  match current_nonce s1 with
  | Some nonce =>
      Some (nonce, mkState (Some (nonce + 1)) ({[nonce]} ∪ pending_nonces s1))
  | None => None
  end.

(** [confirm_nonce] *)
Definition confirm_nonce (nonce : Z) (s : state) : state :=
  if decide (nonce ∈ pending_nonces s)
  then mkState (current_nonce s) (pending_nonces s ∖ {[nonce]})
  else s.

(** [reset_nonce] *)
Definition reset_nonce (chain : option Z) (s : state) : state :=
  mkState (current_nonce (_sync_nonce chain s)) ∅.

(** [force_sync] *)
Definition force_sync (chain : option Z) (s : state) : state :=
  _sync_nonce chain s.

(** [get_pending_count] *)
Definition get_pending_count (s : state) : nat := size (pending_nonces s).

(** Consecutive completed calls of [get_nonce], one per element of [chains]
    (the answer the network would give during that call); returns the nonces
    in the order they were issued. *)
Fixpoint get_nonces (chains : list (option Z)) (s : state)
  : option (list Z * state) :=
  match chains with
  | [] => Some ([], s)
  | chain :: rest =>
      match get_nonce chain s with
      | Some (nonce, s') =>
          match get_nonces rest s' with
          | Some (nonces, s'') => Some (nonce :: nonces, s'')
          | None => None
          end
      | None => None
      end
  end.

(** The calls a client makes on the sequencer. *)
Inductive call :=
| GetNonce (chain : option Z)
| ConfirmNonce (nonce : Z)
| ResetNonce (chain : option Z)
| ForceSync (chain : option Z).

Definition is_resync (c : call) : bool :=
  match c with
  | ResetNonce _ | ForceSync _ => true
  | _ => false
  end.

Definition step (s : state) (c : call) : state :=
  match c with
  | GetNonce chain =>
      match get_nonce chain s with
      | Some (_, s') => s'
      | None => s
      end
  | ConfirmNonce nonce => confirm_nonce nonce s
  | ResetNonce chain => reset_nonce chain s
  | ForceSync chain => force_sync chain s
  end.

Definition exec (calls : list call) (s : state) : state :=
  foldl step s calls.

(** A call that removes [nonce] from the pending set: its confirmation, or a
    reset. *)
Definition clears (nonce : Z) (c : call) : bool :=
  match c with
  | ConfirmNonce n => bool_decide (n = nonce)
  | ResetNonce _ => true
  | _ => false
  end.

Example get_nonces_from_7 :
  get_nonces [None; Some 3; None] (mkState (Some 7) ∅)
  = Some ([7; 8; 9], mkState (Some 10) ({[9]} ∪ ({[8]} ∪ ({[7]} ∪ ∅)))).
Proof. reflexivity. Qed.

(** *** Allocation is total and sequential *)

Lemma get_nonce_synced (chain : option Z) (K : Z) (pend : gset Z) :
  get_nonce chain (mkState (Some K) pend)
  = Some (K, mkState (Some (K + 1)) ({[K]} ∪ pend)).
Proof. reflexivity. Qed.

Lemma get_nonce_total (chain : option Z) (s : state) :
  exists nonce s', get_nonce chain s = Some (nonce, s') /\
    current_nonce s' = Some (nonce + 1) /\
    pending_nonces s' = {[nonce]} ∪ pending_nonces s.
Proof.
  destruct s as [[k|] pend]; unfold get_nonce; simpl.
  - eauto.
  - destruct chain; simpl; eauto.
Qed.

Lemma get_nonces_spec (chains : list (option Z)) (K : Z) (pend : gset Z) :
  get_nonces chains (mkState (Some K) pend)
  = Some (seqZ K (Z.of_nat (length chains)),
          mkState (Some (K + Z.of_nat (length chains)))
                  (list_to_set (seqZ K (Z.of_nat (length chains))) ∪ pend)).
Proof.
  revert K pend. induction chains as [|chain rest IH]; intros K pend.
  - simpl. rewrite Z.add_0_r, (left_id_L ∅ (∪)). reflexivity.
  - cbn [get_nonces length]. rewrite get_nonce_synced, IH.
    rewrite (seqZ_cons K (Z.of_nat (S (length rest)))) by lia.
    replace (Z.pred (Z.of_nat (S (length rest)))) with (Z.of_nat (length rest))
      by lia.
    replace (Z.succ K) with (K + 1) by lia.
    replace (K + 1 + Z.of_nat (length rest)) with (K + Z.of_nat (S (length rest)))
      by lia.
    cbn [list_to_set foldr]. do 3 f_equal.
    rewrite (assoc_L (∪)). f_equal. apply (comm_L (∪)).
Qed.

(** *** The pending set along an arbitrary history *)

Lemma step_pending (s : state) (c : call) (n : Z) :
  n ∈ pending_nonces (step s c) <->
  match c with
  | GetNonce chain =>
      fst <$> get_nonce chain s = Some n \/ n ∈ pending_nonces s
  | _ => n ∈ pending_nonces s /\ clears n c = false
  end.
Proof.
  destruct c as [chain|m|chain|chain]; simpl.
  - destruct (get_nonce_total chain s) as (k & s' & E & _ & Hp).
    rewrite E, Hp. simpl. rewrite elem_of_union, elem_of_singleton.
    split; intros [H|H]; auto; left; congruence.
  - unfold confirm_nonce. rewrite bool_decide_eq_false.
    destruct (decide (m ∈ pending_nonces s)) as [Hm|Hm]; simpl.
    + rewrite elem_of_difference, elem_of_singleton. intuition congruence.
    + intuition congruence.
  - rewrite elem_of_empty. intuition congruence.
  - unfold force_sync, _sync_nonce. destruct chain; simpl; tauto.
Qed.

Lemma exec_snoc (calls : list call) (c : call) (s : state) :
  exec (calls ++ [c]) s = step (exec calls s) c.
Proof. unfold exec. rewrite foldl_app. reflexivity. Qed.

Lemma snoc_split {A} (pre post l : list A) (x c : A) :
  pre ++ x :: post = l ++ [c] ->
  (post = [] /\ pre = l /\ x = c) \/
  (exists post', post = post' ++ [c] /\ l = pre ++ x :: post').
Proof.
  destruct post as [|p post' _] using rev_ind; intros E.
  - left. apply app_inj_tail in E as [-> ->]. auto.
  - right. exists post'.
    rewrite app_comm_cons, app_assoc in E.
    apply app_inj_tail in E as [<- ->]. auto.
Qed.

Lemma pending_nonces_history (s0 : state) (calls : list call) (n : Z) :
  n ∈ pending_nonces (exec calls s0) <->
  (n ∈ pending_nonces s0 /\ forallb (fun c => negb (clears n c)) calls = true) \/
  exists pre chain post,
    calls = pre ++ GetNonce chain :: post /\
    fst <$> get_nonce chain (exec pre s0) = Some n /\
    forallb (fun c => negb (clears n c)) post = true.
Proof.
  induction calls as [|c l IH] using rev_ind.
  - simpl. split; [auto|].
    intros [[H _]|(pre & chain & post & E & _)]; [assumption|].
    destruct pre; discriminate.
  - rewrite exec_snoc, step_pending.
    assert (Hfa : forall xs, forallb (fun c => negb (clears n c)) (xs ++ [c]) = true
                    <-> forallb (fun c => negb (clears n c)) xs = true
                        /\ clears n c = false).
    { intros xs. rewrite forallb_app. simpl.
      rewrite andb_true_iff, andb_true_r, negb_true_iff. tauto. }
    assert (Hold :
      (n ∈ pending_nonces (exec l s0) /\ clears n c = false) <->
      (n ∈ pending_nonces s0 /\
         forallb (fun c => negb (clears n c)) (l ++ [c]) = true) \/
      exists pre chain post,
        l ++ [c] = pre ++ GetNonce chain :: post /\
        fst <$> get_nonce chain (exec pre s0) = Some n /\
        forallb (fun c => negb (clears n c)) post = true /\ post <> []).
    { rewrite IH, Hfa. split.
      - intros [[[H1 H2]|(pre & chain & post & -> & H1 & H2)] Hc]; [left; auto|].
        right. exists pre, chain, (post ++ [c]).
        rewrite Hfa. repeat split; auto.
        + rewrite <- app_assoc. reflexivity.
        + destruct post; discriminate.
      - intros [[H1 [H2 H3]]|(pre & chain & post & E & H1 & H2 & Hne)]; [auto|].
        symmetry in E. apply snoc_split in E as [[-> _]|(post' & -> & ->)];
          [congruence|].
        apply Hfa in H2 as [H2 H3]. split; [|assumption].
        right. exists pre, chain, post'. auto. }
    destruct c as [chain|m|chain|chain].
    + split.
      * intros [H|H].
        -- right. exists l, chain, []. auto.
        -- assert (Hc : clears n (GetNonce chain) = false) by reflexivity.
           destruct (proj1 Hold (conj H Hc)) as [H'|(pre & ch & post & H')];
             [left; assumption|].
           right. exists pre, ch, post. tauto.
      * intros [H|(pre & ch & post & E & H1 & H2)].
        -- right. apply Hold. left. assumption.
        -- symmetry in E. destruct (snoc_split _ _ _ _ _ E)
             as [(-> & -> & [= ->])|(post' & -> & ->)].
           ++ left. assumption.
           ++ right. apply Hold. right. exists pre, ch, (post' ++ [GetNonce chain]).
              repeat split; auto; destruct post'; discriminate.
    + rewrite Hold. split; [intros [H|(pre & ch & post & H)]; [left; auto|
        right; exists pre, ch, post; tauto]|].
      intros [H|(pre & ch & post & E & H1 & H2)]; [auto|].
      right. exists pre, ch, post. repeat split; auto.
      intros ->. apply app_inj_tail in E as [_ [=]].
    + rewrite Hold. split; [intros [H|(pre & ch & post & H)]; [left; auto|
        right; exists pre, ch, post; tauto]|].
      intros [H|(pre & ch & post & E & H1 & H2)]; [auto|].
      right. exists pre, ch, post. repeat split; auto.
      intros ->. apply app_inj_tail in E as [_ [=]].
    + rewrite Hold. split; [intros [H|(pre & ch & post & H)]; [left; auto|
        right; exists pre, ch, post; tauto]|].
      intros [H|(pre & ch & post & E & H1 & H2)]; [auto|].
      right. exists pre, ch, post. repeat split; auto.
      intros ->. apply app_inj_tail in E as [_ [=]].
Qed.

Lemma step_counter (s : state) (c : call) (k : Z) :
  current_nonce s = Some k -> is_resync c = false ->
  exists k', current_nonce (step s c) = Some k' /\ k <= k'.
Proof.
  destruct s as [cur pend]. simpl. intros -> Hc.
  destruct c as [chain|m|chain|chain]; try discriminate; simpl.
  - exists (k + 1). split; [reflexivity|lia].
  - exists k. unfold confirm_nonce. simpl.
    destruct (decide (m ∈ pend)); simpl; split; auto; lia.
Qed.

(** C2.  [N] consecutive completed calls of [get_nonce] from internal nonce
    [K] return exactly [K, K+1, ..., K+N-1], in this order: the nonces are
    pairwise distinct, each is strictly below the next one issued, the counter
    ends at [K+N], and every issued nonce is in the pending set.  The counter
    never decreases under a call that is not a resync.  Along any history from
    a fresh manager, a nonce is pending exactly when some [get_nonce] call
    issued it and no later call confirmed it or reset the manager. *)
Theorem get_nonce_consecutive_unique_pending :
  (forall (K : Z) (pend : gset Z) (chains : list (option Z)),
     exists nonces s',
       get_nonces chains (mkState (Some K) pend) = Some (nonces, s') /\
       nonces = seqZ K (Z.of_nat (length chains)) /\
       (forall n, n ∈ nonces <-> K <= n < K + Z.of_nat (length chains)) /\
       NoDup nonces /\
       (forall i a b, nonces !! i = Some a -> nonces !! S i = Some b ->
          b = a + 1 /\ a < b) /\
       current_nonce s' = Some (K + Z.of_nat (length chains)) /\
       (forall n, n ∈ nonces -> n ∈ pending_nonces s')) /\
  (forall (s : state) (c : call) (k : Z),
     current_nonce s = Some k -> is_resync c = false ->
     exists k', current_nonce (step s c) = Some k' /\ k <= k') /\
  (forall (chain0 : option Z) (calls : list call) (n : Z),
     n ∈ pending_nonces (exec calls (init chain0)) <->
     exists pre chain post,
       calls = pre ++ GetNonce chain :: post /\
       fst <$> get_nonce chain (exec pre (init chain0)) = Some n /\
       forallb (fun c => negb (clears n c)) post = true).
Proof.
  split; [|split].
  - intros K pend chains. eexists _, _. split; [apply get_nonces_spec|].
    split; [reflexivity|]. split; [|split; [|split; [|split]]].
    + intros n. rewrite elem_of_seqZ. lia.
    + apply NoDup_seqZ.
    + intros i a b Ha Hb.
      apply lookup_seqZ in Ha as [-> _]. apply lookup_seqZ in Hb as [-> _]. lia.
    + reflexivity.
    + intros n Hn. simpl. apply elem_of_union. left.
      apply elem_of_list_to_set. assumption.
  - apply step_counter.
  - intros chain0 calls n. rewrite pending_nonces_history.
    split; [|auto].
    intros [[H _]|H]; [|assumption].
    unfold init, _sync_nonce in H. destruct chain0; simpl in H;
      apply elem_of_empty in H; destruct H.
Qed.

Lemma get_nonce_consecutive_unique_pending_witness :
  (exists k', current_nonce (step (mkState (Some 7) ∅) (GetNonce None)) = Some k'
              /\ 7 <= k') /\
  8 ∈ pending_nonces
        (exec [GetNonce None; GetNonce None; ConfirmNonce 7] (init (Some 7))).
Proof.
  split.
  - apply (proj1 (proj2 get_nonce_consecutive_unique_pending)); reflexivity.
  - apply (proj2 (proj2 get_nonce_consecutive_unique_pending)).
    exists [GetNonce None], None, [ConfirmNonce 7].
    split; [reflexivity|]. split; reflexivity.
Defined.


(** *** Confirmation, resynchronisation and the in-flight set *)

Definition confirm_all (nonces : list Z) (s : state) : state :=
  foldl (fun st nonce => confirm_nonce nonce st) s nonces.

Definition is_force_sync (c : call) : bool :=
  match c with ForceSync _ => true | _ => false end.

(** [get_current_nonce]: the counter, synchronised first when it is [None]. *)
Definition get_current_nonce (chain : option Z) (s : state)
  : option Z * state :=
  let s1 := match current_nonce s with
            | None => _sync_nonce chain s
            | Some _ => s
            end in
  (current_nonce s1, s1).

Lemma confirm_nonce_pending (nonce : Z) (s : state) :
  pending_nonces (confirm_nonce nonce s) = pending_nonces s ∖ {[nonce]}.
Proof.
  unfold confirm_nonce.
  destruct (decide (nonce ∈ pending_nonces s)) as [H|H]; simpl; [reflexivity|].
  apply set_eq. intros n. rewrite elem_of_difference, elem_of_singleton.
  split; [|tauto]. intros Hn. split; [assumption|]. intros ->. auto.
Qed.

Lemma confirm_nonce_counter (nonce : Z) (s : state) :
  current_nonce (confirm_nonce nonce s) = current_nonce s.
Proof.
  unfold confirm_nonce. destruct (decide (nonce ∈ pending_nonces s)); reflexivity.
Qed.

(** [confirm_nonce] takes exactly the given nonce out of the pending set and
    never touches the counter: the pending count drops by one when the nonce
    was pending, an unknown nonce changes nothing, and confirming twice is
    confirming once. *)
Theorem confirm_nonce_removes_exactly_one (nonce : Z) (s : state) :
  current_nonce (confirm_nonce nonce s) = current_nonce s /\
  (forall n, n ∈ pending_nonces (confirm_nonce nonce s) <->
             n ∈ pending_nonces s /\ n <> nonce) /\
  (nonce ∈ pending_nonces s ->
   S (get_pending_count (confirm_nonce nonce s)) = get_pending_count s) /\
  (nonce ∉ pending_nonces s -> confirm_nonce nonce s = s) /\
  confirm_nonce nonce (confirm_nonce nonce s) = confirm_nonce nonce s.
Proof.
  split; [apply confirm_nonce_counter|]. split; [|split; [|split]].
  - intros n. rewrite confirm_nonce_pending, elem_of_difference,
      elem_of_singleton. reflexivity.
  - intros Hin. unfold get_pending_count. rewrite confirm_nonce_pending.
    rewrite size_difference by (apply singleton_subseteq_l; assumption).
    rewrite size_singleton.
    assert (size (pending_nonces s) <> 0%nat).
    { intros E. apply size_empty_inv in E. apply E in Hin.
      apply elem_of_empty in Hin. assumption. }
    lia.
  - intros Hn. unfold confirm_nonce.
    destruct (decide (nonce ∈ pending_nonces s)); [contradiction|reflexivity].
  - unfold confirm_nonce at 1.
    destruct (decide (nonce ∈ pending_nonces (confirm_nonce nonce s)))
      as [H|H]; [|reflexivity].
    rewrite confirm_nonce_pending, elem_of_difference, elem_of_singleton in H.
    destruct H as [_ H]. congruence.
Qed.

Lemma confirm_nonce_removes_exactly_one_witness :
  S (get_pending_count
       (confirm_nonce 7 (mkState (Some 9) ({[7]} ∪ {[8]}))))
  = get_pending_count (mkState (Some 9) ({[7]} ∪ {[8]})) /\
  confirm_nonce 5 (mkState (Some 9) ({[7]} ∪ {[8]}))
  = mkState (Some 9) ({[7]} ∪ {[8]}).
Proof.
  split.
  - apply (proj1 (proj2 (proj2 (confirm_nonce_removes_exactly_one 7
             (mkState (Some 9) ({[7]} ∪ {[8]})))))).
    vm_compute. reflexivity.
  - apply (proj1 (proj2 (proj2 (proj2 (confirm_nonce_removes_exactly_one 5
             (mkState (Some 9) ({[7]} ∪ {[8]}))))))).
    vm_compute. discriminate.
Defined.

(** The invariant kept by every call except [force_sync]: the counter is
    set and every pending nonce lies below it. *)
Definition pending_below_counter (s : state) : Prop :=
  exists k, current_nonce s = Some k /\ forall n, n ∈ pending_nonces s -> n < k.

Lemma step_pending_below_counter (s : state) (c : call) :
  is_force_sync c = false ->
  pending_below_counter s -> pending_below_counter (step s c).
Proof.
  intros Hc (k & Hk & Hlt). destruct s as [cur pend]. simpl in *. subst cur.
  destruct c as [chain|m|chain|chain]; try discriminate; simpl.
  - exists (k + 1). split; [reflexivity|]. intros n. simpl.
    rewrite elem_of_union, elem_of_singleton. intros [->|Hn]; [lia|].
    specialize (Hlt n Hn). lia.
  - exists k. split; [apply confirm_nonce_counter|]. intros n.
    rewrite confirm_nonce_pending, elem_of_difference. intros [Hn _]. auto.
  - unfold reset_nonce, _sync_nonce.
    destruct chain as [c|]; simpl; eexists; (split; [reflexivity|]);
      intros n Hn; apply elem_of_empty in Hn; destruct Hn.
Qed.

Lemma exec_pending_below_counter (calls : list call) (s : state) :
  forallb (fun c => negb (is_force_sync c)) calls = true ->
  pending_below_counter s -> pending_below_counter (exec calls s).
Proof.
  revert s. induction calls as [|c calls IH]; intros s Hall Hs; simpl in *.
  - assumption.
  - apply andb_true_iff in Hall as [Hc Hall]. apply negb_true_iff in Hc.
    apply IH; [assumption|]. apply step_pending_below_counter; assumption.
Qed.

(** Along every history of a fresh manager that contains no [force_sync],
    all pending nonces are below the counter, so the nonce that [get_nonce]
    hands out next is never one that is still in flight. *)
Theorem get_nonce_never_reissues_a_pending_nonce
    (chain0 : option Z) (calls : list call) (chain : option Z) :
  forallb (fun c => negb (is_force_sync c)) calls = true ->
  exists nonce s',
    get_nonce chain (exec calls (init chain0)) = Some (nonce, s') /\
    current_nonce (exec calls (init chain0)) = Some nonce /\
    (forall n, n ∈ pending_nonces (exec calls (init chain0)) -> n < nonce) /\
    nonce ∉ pending_nonces (exec calls (init chain0)).
Proof.
  intros Hall.
  assert (Hinit : pending_below_counter (init chain0)).
  { unfold init, _sync_nonce. destruct chain0; simpl; eexists;
      (split; [reflexivity|]); intros n Hn; apply elem_of_empty in Hn;
      destruct Hn. }
  destruct (exec_pending_below_counter calls _ Hall Hinit) as (k & Hk & Hlt).
  destruct (exec calls (init chain0)) as [cur pend] eqn:E. simpl in *.
  subst cur. exists k. eexists. split; [apply get_nonce_synced|].
  split; [reflexivity|]. split; [assumption|].
  intros Hin. specialize (Hlt k Hin). lia.
Qed.

Lemma get_nonce_never_reissues_a_pending_nonce_witness :
  exists nonce s',
    get_nonce None
      (exec [GetNonce None; GetNonce None; ConfirmNonce 3; ResetNonce (Some 5);
             GetNonce None] (init (Some 3))) = Some (nonce, s') /\
    current_nonce
      (exec [GetNonce None; GetNonce None; ConfirmNonce 3; ResetNonce (Some 5);
             GetNonce None] (init (Some 3))) = Some nonce /\
    (forall n,
       n ∈ pending_nonces
             (exec [GetNonce None; GetNonce None; ConfirmNonce 3;
                    ResetNonce (Some 5); GetNonce None] (init (Some 3))) ->
       n < nonce) /\
    nonce ∉ pending_nonces
              (exec [GetNonce None; GetNonce None; ConfirmNonce 3;
                     ResetNonce (Some 5); GetNonce None] (init (Some 3))).
Proof.
  apply (get_nonce_never_reissues_a_pending_nonce (Some 3)
           [GetNonce None; GetNonce None; ConfirmNonce 3; ResetNonce (Some 5);
            GetNonce None] None).
  reflexivity.
Defined.


Lemma confirm_all_pending (nonces : list Z) (s : state) :
  pending_nonces (confirm_all nonces s)
  = pending_nonces s ∖ list_to_set nonces /\
  current_nonce (confirm_all nonces s) = current_nonce s.
Proof.
  revert s. induction nonces as [|n nonces IH]; intros s; simpl.
  - split; [|reflexivity]. apply set_eq. intros x.
    rewrite elem_of_difference, elem_of_empty. tauto.
  - destruct (IH (confirm_nonce n s)) as [E1 E2].
    unfold confirm_all in *. rewrite E1, E2, confirm_nonce_pending,
      confirm_nonce_counter.
    split; [|reflexivity]. apply set_eq. intros x.
    rewrite !elem_of_difference, elem_of_union, elem_of_singleton. tauto.
Qed.

(** Allocating [N] nonces while no pending nonce is at or above the counter
    raises the pending count by [N]; confirming the nonces that were returned
    brings the pending set back to what it was, the counter staying at
    [K + N]. *)
Theorem allocate_then_confirm_restores_pending
    (K : Z) (pend : gset Z) (chains : list (option Z)) :
  (forall n, n ∈ pend -> n < K) ->
  exists nonces s',
    get_nonces chains (mkState (Some K) pend) = Some (nonces, s') /\
    get_pending_count s' = (size pend + length chains)%nat /\
    pending_nonces (confirm_all nonces s') = pend /\
    current_nonce (confirm_all nonces s')
    = Some (K + Z.of_nat (length chains)).
Proof.
  intros Hlt. eexists _, _. split; [apply get_nonces_spec|].
  set (issued := seqZ K (Z.of_nat (length chains))).
  assert (Hdisj : forall n, n ∈ issued -> n ∉ pend).
  { intros n Hn Hp. apply elem_of_seqZ in Hn. specialize (Hlt n Hp). lia. }
  split; [|split].
  - unfold get_pending_count. simpl. fold issued.
    rewrite size_union.
    + rewrite size_list_to_set by apply NoDup_seqZ.
      unfold issued. rewrite length_seqZ. lia.
    + intros n Hn Hp. apply elem_of_list_to_set in Hn.
      exact (Hdisj n Hn Hp).
  - rewrite (proj1 (confirm_all_pending _ _)). simpl. fold issued.
    apply set_eq. intros n.
    rewrite elem_of_difference, elem_of_union, !elem_of_list_to_set.
    split; [intros [[H|H] Hn]; [contradiction|assumption]|].
    intros Hp. split; [right; assumption|]. intros Hn. exact (Hdisj n Hn Hp).
  - rewrite (proj2 (confirm_all_pending _ _)). reflexivity.
Qed.

Lemma allocate_then_confirm_restores_pending_witness :
  exists nonces s',
    get_nonces [None; None; None] (mkState (Some 10) ({[4]} ∪ {[9]}))
    = Some (nonces, s') /\
    get_pending_count s' = (size ({[4%Z]} ∪ {[9%Z]} : gset Z) + 3)%nat /\
    pending_nonces (confirm_all nonces s') = {[4]} ∪ {[9]} /\
    current_nonce (confirm_all nonces s') = Some 13.
Proof.
  apply (allocate_then_confirm_restores_pending 10 ({[4]} ∪ {[9]})
           [None; None; None]).
  intros n Hn. apply elem_of_union in Hn as [Hn|Hn];
    apply elem_of_singleton in Hn; lia.
Defined.

(** After [reset_nonce] or [force_sync] the next nonce handed out is the
    transaction count reported by the chain, or 0 when the query raised.
    [reset_nonce] forgets every pending nonce; [force_sync] keeps them, so
    that a nonce which is still pending can be handed out a second time. *)
Theorem resync_restarts_from_chain_count
    (chain chain' : option Z) (s : state) :
  get_nonce chain' (reset_nonce chain s)
  = Some (default 0 chain,
          mkState (Some (default 0 chain + 1)) ({[default 0 chain]} ∪ ∅)) /\
  get_pending_count (reset_nonce chain s) = 0%nat /\
  get_nonce chain' (force_sync chain s)
  = Some (default 0 chain,
          mkState (Some (default 0 chain + 1))
                  ({[default 0 chain]} ∪ pending_nonces s)) /\
  (default 0 chain ∈ pending_nonces s ->
   forall s', snd <$> get_nonce chain' (force_sync chain s) = Some s' ->
   pending_nonces s' = pending_nonces s).
Proof.
  assert (F : get_nonce chain' (force_sync chain s)
    = Some (default 0 chain,
            mkState (Some (default 0 chain + 1))
                    ({[default 0 chain]} ∪ pending_nonces s))).
  { unfold force_sync, _sync_nonce. destruct chain; reflexivity. }
  split; [|split; [|split]].
  - unfold reset_nonce, _sync_nonce. destruct chain; reflexivity.
  - unfold get_pending_count, reset_nonce. simpl.
    exact (@size_empty Z (gset Z) _ _ _ _ _ _ _ _ _).
  - exact F.
  - intros Hin s'. rewrite F. simpl. intros [= <-]. simpl.
    apply set_eq. intros n. rewrite elem_of_union, elem_of_singleton.
    split; [intros [->|H]; assumption|auto].
Qed.

Lemma resync_restarts_from_chain_count_witness :
  pending_nonces (mkState (Some 8) ({[7]} ∪ ({[7]} ∪ {[8]})))
  = {[7]} ∪ {[8]}.
Proof.
  refine (proj2 (proj2 (proj2 (resync_restarts_from_chain_count (Some 7) None
            (mkState (Some 9) ({[7]} ∪ {[8]}))))) _
            (mkState (Some 8) ({[7]} ∪ ({[7]} ∪ {[8]}))) eq_refl).
  simpl. apply elem_of_union. left. apply elem_of_singleton. reflexivity.
Defined.

(** *** Replacement transactions *)

(** A value of a transaction dict: an integer, or anything that cannot be
    multiplied by a float (a string, bytes, [None]). *)
Inductive value :=
| VInt (n : Z)
| VOther (repr : string).

(** [int(n * multiplier)] for an int [n] and a float [multiplier].  The int
    is first converted to the nearest double, which raises [OverflowError]
    when that is not a finite double; the float product is rounded; [int()]
    truncates it exactly and raises [OverflowError] when the product is
    infinite.  [None] stands for the exception. *)
Definition int_times_float (n : Z) (multiplier : Q) : option Z :=
  let f := Float64.of_Q (inject_Z n) in
  if Float64.overflows f then None
  else
    let product := Float64.mul f multiplier in
    if Float64.overflows product then None
    else Some (PyNum.py_int product).

(** One [if key in new_tx: new_tx[key] = int(new_tx[key] * multiplier)]
    step of [speed_up_transaction]; [None] when the product or the
    conversion raises. *)
Definition bump_fee (gas_price_multiplier : Q) (key : string)
    (new_tx : gmap string value) : option (gmap string value) :=
  match new_tx !! key with
  | None => Some new_tx
  | Some (VInt n) =>
      match int_times_float n gas_price_multiplier with
      | Some fee => Some (<[key := VInt fee]> new_tx)
      | None => None
      end
  | Some (VOther _) => None
  end.

(** [speed_up_transaction]; any exception gives the empty dict. *)
Definition speed_up_transaction (original_tx : gmap string value)
    (gas_price_multiplier : Q) : gmap string value :=
  match bump_fee gas_price_multiplier "gasPrice" original_tx with
  | None => ∅
  | Some t1 =>
      match bump_fee gas_price_multiplier "maxFeePerGas" t1 with
      | None => ∅
      | Some t2 =>
          match bump_fee gas_price_multiplier "maxPriorityFeePerGas" t2 with
          | None => ∅
          | Some t3 => t3
          end
      end
  end.

(** [cancel_transaction] *)
Definition cancel_transaction (executor_address : string) (nonce gas_price : Z)
  : gmap string value :=
  <["from" := VOther executor_address]>
  (<["to" := VOther executor_address]>
  (<["value" := VInt 0]>
  (<["gas" := VInt 21000]>
  (<["gasPrice" := VInt gas_price]>
  (<["nonce" := VInt nonce]>
  (<["chainId" := VInt 137]> ∅)))))).

Definition fee_keys : list string :=
  ["gasPrice"; "maxFeePerGas"; "maxPriorityFeePerGas"].

(** What one step makes of a value, [None] when it raises. *)
Definition bump_value (m : Q) (v : value) : option value :=
  match v with
  | VInt n => VInt <$> int_times_float n m
  | VOther _ => None
  end.

Lemma bump_fee_bump_value (m : Q) (key : string) (t : gmap string value) :
  bump_fee m key t
  = match t !! key with
    | None => Some t
    | Some v => (fun v' => <[key := v']> t) <$> bump_value m v
    end.
Proof.
  unfold bump_fee, bump_value. destruct (t !! key) as [[n|r]|]; try reflexivity.
  destruct (int_times_float n m); reflexivity.
Qed.

Lemma bump_fee_numeric (m : Q) (key : string) (t : gmap string value) :
  (forall v, t !! key = Some v -> is_Some (bump_value m v)) ->
  exists t', bump_fee m key t = Some t' /\
    t' !! key = t !! key ≫= bump_value m /\
    forall k, k <> key -> t' !! k = t !! k.
Proof.
  intros Hnum. rewrite bump_fee_bump_value.
  destruct (t !! key) as [v|] eqn:E.
  - destruct (Hnum v eq_refl) as [v' Hv]. rewrite Hv. cbn [fmap option_fmap option_map].
    eexists. split; [reflexivity|]. split.
    + rewrite lookup_insert_eq. cbn [mbind option_bind]. symmetry. exact Hv.
    + intros k Hk. rewrite lookup_insert_ne by congruence. reflexivity.
  - exists t. auto.
Qed.

Lemma bump_fee_raises (m : Q) (key : string) (t : gmap string value) (v : value) :
  t !! key = Some v -> bump_value m v = None -> bump_fee m key t = None.
Proof. intros E H. rewrite bump_fee_bump_value, E, H. reflexivity. Qed.

Lemma py_int_one_eighth_more (n : Z) :
  0 <= n -> PyNum.py_int (inject_Z n * (1125 # 1000)) = n + n / 8.
Proof.
  intros Hn. unfold PyNum.py_int.
  change (Qnum (inject_Z n * (1125 # 1000))) with (n * 1125).
  change (Z.pos (Qden (inject_Z n * (1125 # 1000)))) with 1000.
  rewrite Z.quot_div_nonneg by lia.
  pose proof (Z.div_mod n 8) as E. pose proof (Z.mod_pos_bound n 8) as B.
  symmetry. apply Z.div_unique with (125 * (n mod 8)); lia.
Qed.

Lemma not_overflows (q : Q) :
  (Qabs q < Float64.pow2 1024)%Q -> Float64.overflows q = false.
Proof.
  intros H. unfold Float64.overflows.
  destruct (Qle_bool _ _) eqn:E; [|reflexivity].
  apply Qle_bool_iff in E. exfalso. apply (Qlt_not_le _ _ H E).
Qed.

(** While [9 * n] has at most 53 bits, the conversion and the product by
    1.125 are exact, and the new fee is [n + n // 8]. *)
Lemma int_times_float_one_eighth_more (n : Z) :
  0 <= n -> 9 * n < 2 ^ 53 ->
  int_times_float n (1125 # 1000) = Some (n + n / 8).
Proof.
  intros Hn Hb. unfold int_times_float.
  cbn [Float64.mul Float64.of_Q Float64.fval].
  assert (En : (Float64.round (inject_Z n) == inject_Z n)%Q)
    by (apply Float64.round_Z; lia).
  assert (Ep : (inject_Z n * (1125 # 1000)
                == inject_Z (9 * n) * Float64.pow2 (-3))%Q).
  { rewrite inject_Z_mult. unfold Float64.pow2. simpl. field. }
  assert (Er : Float64.round (Float64.round (inject_Z n) * (1125 # 1000))
               = Float64.round (inject_Z n * (1125 # 1000))).
  { apply Float64.round_comp. rewrite En. reflexivity. }
  assert (Ex : (Float64.round (inject_Z n * (1125 # 1000))
                == inject_Z n * (1125 # 1000))%Q).
  { rewrite (Float64.round_comp _ _ Ep), Ep.
    apply Float64.round_exact; [lia|unfold Float64.emin; lia]. }
  assert (Hbig : (Float64.pow2 53 <= Float64.pow2 1024)%Q)
    by (apply Float64.pow2_le; lia).
  assert (Hn53 : (inject_Z n < Float64.pow2 53)%Q).
  { rewrite (Float64.pow2_Z 53) by lia. rewrite <- Zlt_Qlt. lia. }
  assert (Hn0 : (0 <= inject_Z n)%Q).
  { change 0%Q with (inject_Z 0). rewrite <- Zle_Qle. assumption. }
  rewrite not_overflows.
  2: { rewrite En, Qabs_pos by assumption. lra. }
  rewrite Er, not_overflows.
  2: { rewrite Ex, Qabs_pos by lra.
       assert (Hp : (inject_Z (9 * n) * Float64.pow2 (-3)
                     < Float64.pow2 53)%Q).
       { rewrite (Float64.pow2_Z 53) by lia.
         assert (L : (inject_Z (9 * n) < inject_Z (2 ^ 53))%Q)
           by (rewrite <- Zlt_Qlt; assumption).
         assert (P3 : (Float64.pow2 (-3) == 1 # 8)%Q) by reflexivity.
         assert (H9 : (0 <= inject_Z (9 * n))%Q).
         { change 0%Q with (inject_Z 0). rewrite <- Zle_Qle. lia. }
         rewrite P3. lra. }
       rewrite Ep. lra. }
  rewrite (PyNum.py_int_comp _ _ Ex), py_int_one_eighth_more by assumption.
  reflexivity.
Qed.

(** Above 53 bits the float product is no longer the exact one. *)
Example int_times_float_above_53_bits :
  int_times_float 10000000000000001 (1125 # 1000) = Some 11250000000000000 /\
  10000000000000001 + 10000000000000001 / 8 = 11250000000000001.
Proof. vm_compute. split; reflexivity. Qed.

(** An int that is no finite double cannot be multiplied by a float. *)
Lemma int_times_float_overflow (n : Z) (m : Q) :
  2 ^ 1024 <= n -> int_times_float n m = None.
Proof.
  intros Hn. unfold int_times_float.
  cbn [Float64.of_Q Float64.fval].
  assert (L : (Float64.pow2 1024 <= Float64.round (inject_Z n))%Q).
  { assert (E : (Float64.pow2 1024 == inject_Z 1 * Float64.pow2 1024)%Q)
      by ring.
    rewrite E at 1.
    rewrite <- (Float64.round_exact 1 1024) by (unfold Float64.emin; lia).
    apply Float64.round_monotone. rewrite <- E.
    rewrite (Float64.pow2_Z 1024) by lia. rewrite <- Zle_Qle. assumption. }
  unfold Float64.overflows.
  assert (P : (0 < Float64.pow2 1024)%Q) by apply Float64.pow2_pos.
  rewrite Qabs_pos by lra.
  apply Qle_bool_iff in L. rewrite L. reflexivity.
Qed.

Lemma speed_up_transaction_lookup (original_tx : gmap string value) (m : Q) :
  (forall key v, key ∈ fee_keys -> original_tx !! key = Some v ->
     is_Some (bump_value m v)) ->
  forall key,
    speed_up_transaction original_tx m !! key
    = if decide (key ∈ fee_keys) then original_tx !! key ≫= bump_value m
      else original_tx !! key.
Proof.
  intros Hnum.
  assert (H1 : "gasPrice" ∈ fee_keys) by (unfold fee_keys; set_solver).
  assert (H2 : "maxFeePerGas" ∈ fee_keys) by (unfold fee_keys; set_solver).
  assert (H3 : "maxPriorityFeePerGas" ∈ fee_keys)
    by (unfold fee_keys; set_solver).
  unfold speed_up_transaction.
  destruct (bump_fee_numeric m "gasPrice" original_tx)
    as (t1 & -> & G1 & O1); [intros v; apply Hnum; assumption|].
  destruct (bump_fee_numeric m "maxFeePerGas" t1)
    as (t2 & -> & G2 & O2).
  { intros v. rewrite O1 by discriminate. apply Hnum. assumption. }
  destruct (bump_fee_numeric m "maxPriorityFeePerGas" t2)
    as (t3 & -> & G3 & O3).
  { intros v. rewrite O2, O1 by discriminate. apply Hnum. assumption. }
  intros key.
  destruct (decide (key = "maxPriorityFeePerGas")) as [->|N3].
  { rewrite G3, O2, O1 by discriminate. rewrite decide_True by assumption.
    reflexivity. }
  rewrite O3 by assumption.
  destruct (decide (key = "maxFeePerGas")) as [->|N2].
  { rewrite G2, O1 by discriminate. rewrite decide_True by assumption.
    reflexivity. }
  rewrite O2 by assumption.
  destruct (decide (key = "gasPrice")) as [->|N1].
  { rewrite G1. rewrite decide_True by assumption. reflexivity. }
  rewrite O1 by assumption.
  rewrite decide_False; [reflexivity|].
  unfold fee_keys. rewrite !elem_of_cons, elem_of_nil. tauto.
Qed.

(** One fee field on which the step raises makes the whole call return the
    empty dict. *)
Lemma speed_up_transaction_raises (original_tx : gmap string value) (m : Q)
    (key : string) (v : value) :
  key ∈ fee_keys -> original_tx !! key = Some v -> bump_value m v = None ->
  speed_up_transaction original_tx m = ∅.
Proof.
  intros Hk Hv Hb. unfold speed_up_transaction.
  unfold fee_keys in Hk. rewrite !elem_of_cons, elem_of_nil in Hk.
  destruct (bump_fee m "gasPrice" original_tx) as [t1|] eqn:E1;
    [|reflexivity].
  assert (O1 : forall k, k <> "gasPrice" -> t1 !! k = original_tx !! k).
  { intros k Hne. rewrite bump_fee_bump_value in E1.
    destruct (original_tx !! "gasPrice") as [v1|]; [|congruence].
    destruct (bump_value m v1); [|discriminate]. injection E1 as <-.
    rewrite lookup_insert_ne by congruence. reflexivity. }
  destruct (bump_fee m "maxFeePerGas" t1) as [t2|] eqn:E2; [|reflexivity].
  assert (O2 : forall k, k <> "maxFeePerGas" -> t2 !! k = t1 !! k).
  { intros k Hne. rewrite bump_fee_bump_value in E2.
    destruct (t1 !! "maxFeePerGas") as [v2|]; [|congruence].
    destruct (bump_value m v2); [|discriminate]. injection E2 as <-.
    rewrite lookup_insert_ne by congruence. reflexivity. }
  destruct (bump_fee m "maxPriorityFeePerGas" t2) as [t3|] eqn:E3;
    [|reflexivity].
  exfalso. destruct Hk as [->|[->|[->|[]]]].
  - rewrite (bump_fee_raises m _ _ v Hv Hb) in E1. discriminate.
  - rewrite (bump_fee_raises m _ t1 v) in E2; [discriminate| |assumption].
    rewrite O1 by discriminate. assumption.
  - rewrite (bump_fee_raises m _ t2 v) in E3; [discriminate| |assumption].
    rewrite O2, O1 by discriminate. assumption.
Qed.

(** [speed_up_transaction] with the default multiplier 1.125 changes nothing
    but the fee fields that are present ([gasPrice], [maxFeePerGas],
    [maxPriorityFeePerGas]).  When every fee field that is present holds a
    non-negative integer [n] with [9 * n < 2^53] (fees up to about a million
    gwei, for which the float product is exact), the nonce and every other
    field are copied, an absent fee field stays absent, and a fee [n] becomes
    [n + n // 8], which is never lower and is higher exactly when [n >= 8].
    When a fee field holds a value that is not a number, or an integer too
    large for a float (from [2^1024]), the result is the empty dict. *)
Theorem speed_up_transaction_bumps_fees_only (original_tx : gmap string value) :
  ((forall key v, key ∈ fee_keys -> original_tx !! key = Some v ->
      exists n, v = VInt n /\ 0 <= n /\ 9 * n < 2 ^ 53) ->
   (forall key, key ∉ fee_keys ->
      speed_up_transaction original_tx (1125 # 1000) !! key
      = original_tx !! key) /\
   (forall key, original_tx !! key = None ->
      speed_up_transaction original_tx (1125 # 1000) !! key = None) /\
   (forall key n, key ∈ fee_keys -> original_tx !! key = Some (VInt n) ->
      speed_up_transaction original_tx (1125 # 1000) !! key
      = Some (VInt (n + n / 8)) /\
      n <= n + n / 8 /\ (n < n + n / 8 <-> 8 <= n))) /\
  ((exists key r, key ∈ fee_keys /\ original_tx !! key = Some (VOther r)) ->
   speed_up_transaction original_tx (1125 # 1000) = ∅) /\
  ((exists key n, key ∈ fee_keys /\ original_tx !! key = Some (VInt n) /\
                  2 ^ 1024 <= n) ->
   speed_up_transaction original_tx (1125 # 1000) = ∅).
Proof.
  split; [|split].
  - intros Hsmall.
    assert (Hnum : forall key v, key ∈ fee_keys -> original_tx !! key = Some v ->
                     is_Some (bump_value (1125 # 1000) v)).
    { intros key v Hk Hv. destruct (Hsmall key v Hk Hv) as (n & -> & Hn & Hb).
      cbn [bump_value]. rewrite int_times_float_one_eighth_more by assumption.
      eexists. reflexivity. }
    pose proof (speed_up_transaction_lookup original_tx (1125 # 1000) Hnum)
      as L.
    split; [|split].
    + intros key Hk. rewrite L, decide_False by assumption. reflexivity.
    + intros key Hk. rewrite L, Hk. destruct (decide (key ∈ fee_keys));
        reflexivity.
    + intros key n Hk Hv.
      destruct (Hsmall key _ Hk Hv) as (n' & [= <-] & Hn & Hb).
      rewrite L, decide_True, Hv by assumption.
      cbn [mbind option_bind bump_value].
      rewrite int_times_float_one_eighth_more by assumption.
      split; [reflexivity|].
      pose proof (Z.div_pos n 8 Hn ltac:(lia)) as Hq.
      split; [lia|]. split.
      * intros Hlt. destruct (Z_lt_le_dec n 8) as [Hs|Hs]; [|assumption].
        rewrite Z.div_small in Hlt by lia. lia.
      * intros H8. pose proof (Z.div_le_mono 8 n 8 ltac:(lia) H8) as Hm.
        change (8 / 8) with 1 in Hm. lia.
  - intros (key & r & Hk & Hv).
    apply (speed_up_transaction_raises _ _ key (VOther r)); auto.
  - intros (key & n & Hk & Hv & Hn).
    apply (speed_up_transaction_raises _ _ key (VInt n)); auto.
    cbn [bump_value]. rewrite int_times_float_overflow by assumption.
    reflexivity.
Qed.

Definition stuck_tx : gmap string value :=
  <["nonce" := VInt 12]> (<["gasPrice" := VInt 40000000000]>
  (<["to" := VOther "0xRouter"]> ∅)).

Lemma speed_up_transaction_bumps_fees_only_witness :
  speed_up_transaction stuck_tx (1125 # 1000) !! "nonce"
  = stuck_tx !! "nonce" /\
  speed_up_transaction stuck_tx (1125 # 1000) !! "gasPrice"
  = Some (VInt (40000000000 + 40000000000 / 8)).
Proof.
  assert (Hsmall : forall key v, key ∈ fee_keys -> stuck_tx !! key = Some v ->
                     exists n, v = VInt n /\ 0 <= n /\ 9 * n < 2 ^ 53).
  { intros key v Hk. unfold fee_keys in Hk.
    rewrite !elem_of_cons, elem_of_nil in Hk.
    destruct Hk as [->|[->|[->|[]]]]; intros Hv; vm_compute in Hv;
      [|discriminate..].
    injection Hv as <-. exists 40000000000. repeat split; lia. }
  destruct (proj1 (speed_up_transaction_bumps_fees_only stuck_tx) Hsmall)
    as (Hother & _ & Hfee).
  split.
  - apply Hother. unfold fee_keys. rewrite !elem_of_cons, elem_of_nil.
    intros [H|[H|[H|[]]]]; discriminate.
  - apply (Hfee "gasPrice" 40000000000).
    + unfold fee_keys. rewrite elem_of_cons. left. reflexivity.
    + reflexivity.
Defined.


(** Speeding up a cancellation gives the cancellation again, for the same
    nonce, with the gas price raised by one eighth (rounded down), for every
    gas price the float product is exact on ([9 * gas_price < 2^53]): the
    replacement still is a zero-value transfer of the executor to itself. *)
Theorem speed_up_of_a_cancellation_is_a_cancellation
    (executor_address : string) (nonce gas_price : Z) :
  0 <= gas_price -> 9 * gas_price < 2 ^ 53 ->
  speed_up_transaction (cancel_transaction executor_address nonce gas_price)
    (1125 # 1000)
  = cancel_transaction executor_address nonce (gas_price + gas_price / 8).
Proof.
  intros Hp Hb.
  pose proof (int_times_float_one_eighth_more gas_price Hp Hb) as E.
  unfold speed_up_transaction, cancel_transaction, bump_fee.
  repeat (first [rewrite lookup_insert_ne by discriminate
                |rewrite lookup_insert_eq
                |rewrite lookup_empty]; cbv beta iota).
  rewrite E.
  repeat (first [rewrite lookup_insert_ne by discriminate
                |rewrite lookup_insert_eq
                |rewrite lookup_empty]; cbv beta iota).
  apply map_eq. intros key.
  destruct (decide (key = "from")) as [->|N1];
    [rewrite !lookup_insert_ne by discriminate; rewrite !lookup_insert_eq;
     reflexivity|].
  destruct (decide (key = "to")) as [->|N2];
    [repeat (rewrite lookup_insert_ne by discriminate);
     rewrite !lookup_insert_eq; reflexivity|].
  destruct (decide (key = "value")) as [->|N3];
    [repeat (rewrite lookup_insert_ne by discriminate);
     rewrite !lookup_insert_eq; reflexivity|].
  destruct (decide (key = "gas")) as [->|N4];
    [repeat (rewrite lookup_insert_ne by discriminate);
     rewrite !lookup_insert_eq; reflexivity|].
  destruct (decide (key = "gasPrice")) as [->|N5];
    [rewrite lookup_insert_eq;
     repeat (rewrite lookup_insert_ne by discriminate);
     rewrite lookup_insert_eq; reflexivity|].
  rewrite (lookup_insert_ne _ "gasPrice") by congruence.
  rewrite !(lookup_insert_ne _ "from") by congruence.
  rewrite !(lookup_insert_ne _ "to") by congruence.
  rewrite !(lookup_insert_ne _ "value") by congruence.
  rewrite !(lookup_insert_ne _ "gas") by congruence.
  rewrite !(lookup_insert_ne _ "gasPrice") by congruence.
  reflexivity.
Qed.

Lemma speed_up_of_a_cancellation_is_a_cancellation_witness :
  speed_up_transaction (cancel_transaction "0xExecutor" 12 40000000000)
    (1125 # 1000)
  = cancel_transaction "0xExecutor" 12 (40000000000 + 40000000000 / 8).
Proof.
  apply (speed_up_of_a_cancellation_is_a_cancellation "0xExecutor" 12
           40000000000).
  - lia.
  - reflexivity.
Defined.

End NonceManager.

(** ** utils/kill_switch.py *)

Module KillSwitch.

(** The settings read from [config['risk_management']] in [__init__], and
    whether an alert system was supplied. *)
Record config := mkConfig {
  max_daily_loss_usd : Q;
  max_failed_tx : Z;
  auto_kill_enabled : bool;
  alert_system : bool
}.

(** The text passed to [trigger], kept structured: the message built by
    [record_loss] carries the daily loss it formats. *)
Inductive reason :=
| DailyLossLimitExceeded (daily_loss : Q)
| Reason (text : string).

(** What is handed to the alert system. *)
Inductive alert :=
| KillSwitchActivated (r : reason)
| FailedTransactionLimitReached (count : Z).

(** [daily_loss] starts as the float [0.0] and is only ever assigned the
    result of a float addition: it is a double. *)
Record state := mkState {
  triggered : bool;
  trigger_reason : option reason;
  trigger_time : option Q;
  daily_loss : Float64.float;
  failed_tx_count : Z;
  last_reset_day : Z;
  alerts : list alert
}.

(** [_get_current_day]: [int(time.time() / 86400)], a float quotient
    truncated, with [now] the value of [time.time()].  The clock reads made
    within one call are taken at the same instant [now]. *)
Definition _get_current_day (now : Q) : Z :=
  PyNum.py_int (Float64.div now 86400).

(** [__init__] *)
Definition init (now : Q) : state :=
  mkState false None None Float64.zero 0 (_get_current_day now) [].

(** [_reset_daily_counters] *)
Definition _reset_daily_counters (now : Q) (s : state) : state :=
  let current_day := _get_current_day now in
  if last_reset_day s <? current_day then
    mkState (triggered s) (trigger_reason s) (trigger_time s)
            Float64.zero 0 current_day (alerts s)
  else s.

(** [trigger] *)
Definition trigger (cfg : config) (now : Q) (r : reason) (s : state) : state :=
  if triggered s then s
  else if negb (auto_kill_enabled cfg) then s
  else
    mkState true (Some r) (Some now)
            (daily_loss s) (failed_tx_count s) (last_reset_day s)
            (if alert_system cfg then alerts s ++ [KillSwitchActivated r]
             else alerts s).

(** [record_loss]; [self.daily_loss += abs(loss_usd)] is a float addition. *)
Definition record_loss (cfg : config) (now : Q) (loss_usd : Q) (s : state)
  : state :=
  let s1 := _reset_daily_counters now s in
  let s2 := mkState (triggered s1) (trigger_reason s1) (trigger_time s1)
                    (Float64.add (daily_loss s1) (Qabs loss_usd))
                    (failed_tx_count s1) (last_reset_day s1) (alerts s1) in
  if PyNum.geb (daily_loss s2) (max_daily_loss_usd cfg)
  then trigger cfg now (DailyLossLimitExceeded (daily_loss s2)) s2
  else s2.

(** [record_failed_transaction] *)
Definition record_failed_transaction (cfg : config) (now : Q) (s : state)
  : state :=
  let s1 := _reset_daily_counters now s in
  let count := failed_tx_count s1 + 1 in
  mkState (triggered s1) (trigger_reason s1) (trigger_time s1)
          (daily_loss s1) count (last_reset_day s1)
          (if (max_failed_tx cfg <=? count) && alert_system cfg
           then alerts s1 ++ [FailedTransactionLimitReached count]
           else alerts s1).

(** [is_triggered] *)
Definition is_triggered (s : state) : bool := triggered s.

(** [check_daily_loss]: the answer and the state left behind. *)
Definition check_daily_loss (cfg : config) (now : Q) (s : state)
  : bool * state :=
  let s1 := _reset_daily_counters now s in
  (PyNum.geb (daily_loss s1) (max_daily_loss_usd cfg), s1).

(** The dict returned by [get_status]. *)
Record status := mkStatus {
  st_triggered : bool;
  st_trigger_reason : option reason;
  st_trigger_time : option Q;
  st_daily_loss_usd : Q;
  st_max_daily_loss_usd : Q;
  st_daily_loss_percent : Q;
  st_failed_tx_count : Z;
  st_max_failed_tx : Z;
  st_auto_kill_enabled : bool
}.

(** [get_status]; the division raises [ZeroDivisionError] ([None]) when the
    ceiling is zero, after the counters were rolled over.  The percentage is
    given as the exact value of [(daily_loss / max_daily_loss_usd) * 100]. *)
Definition get_status (cfg : config) (now : Q) (s : state)
  : option status * state :=
  let s1 := _reset_daily_counters now s in
  (if Qeq_bool (max_daily_loss_usd cfg) 0 then None
   else Some (mkStatus (triggered s1) (trigger_reason s1) (trigger_time s1)
                (daily_loss s1) (max_daily_loss_usd cfg)
                (daily_loss s1 / max_daily_loss_usd cfg * 100)
                (failed_tx_count s1) (max_failed_tx cfg)
                (auto_kill_enabled cfg)),
   s1).

(** [reset] *)
Definition reset (s : state) : state :=
  mkState false None None
          (daily_loss s) (failed_tx_count s) (last_reset_day s) (alerts s).

(** [manual_trigger]: [asyncio.create_task(self.trigger(reason))].  The call
    wraps the coroutine [trigger(reason)] in a task for the running event
    loop and returns: nothing of the state is touched by the call, and the
    body of [trigger] runs when the loop gets to the task.  With no running
    event loop [create_task] raises [RuntimeError] and nothing is
    scheduled. *)
Inductive manual_trigger_result :=
| TaskCreated (r : reason)
| RuntimeError.

Definition manual_trigger (loop_running : bool) (r : reason) (s : state)
  : manual_trigger_result * state :=
  if loop_running then (TaskCreated r, s) else (RuntimeError, s).

(** The operations of the governor, each with the clock value it sees.
    [Trigger now r] is an awaited [trigger(r)]; [ManualTrigger now r] is the
    event loop running, at clock value [now], the task created by
    [manual_trigger(r)]. *)
Inductive op :=
| RecordLoss (now : Q) (loss_usd : Q)
| RecordFailedTransaction (now : Q)
| Trigger (now : Q) (r : reason)
| ManualTrigger (now : Q) (r : reason)
| IsTriggered
| CheckDailyLoss (now : Q)
| GetStatus (now : Q)
| Reset.

Definition step (cfg : config) (s : state) (o : op) : state :=
  match o with
  | RecordLoss now loss_usd => record_loss cfg now loss_usd s
  | RecordFailedTransaction now => record_failed_transaction cfg now s
  | Trigger now r => trigger cfg now r s
  | ManualTrigger now r => trigger cfg now r s
  | IsTriggered => s
  | CheckDailyLoss now => snd (check_daily_loss cfg now s)
  | GetStatus now => snd (get_status cfg now s)
  | Reset => reset s
  end.

Definition exec (cfg : config) (ops : list op) (s : state) : state :=
  foldl (step cfg) s ops.

Definition is_reset (o : op) : bool :=
  match o with Reset => true | _ => false end.

(** *** Frame lemmas *)

Lemma rollover_fires (now : Q) (s : state) :
  last_reset_day s < _get_current_day now ->
  _reset_daily_counters now s
  = mkState (triggered s) (trigger_reason s) (trigger_time s)
            Float64.zero 0 (_get_current_day now) (alerts s).
Proof.
  intros H. unfold _reset_daily_counters.
  apply Z.ltb_lt in H. rewrite H. reflexivity.
Qed.

Lemma rollover_idle (now : Q) (s : state) :
  _get_current_day now <= last_reset_day s ->
  _reset_daily_counters now s = s.
Proof.
  intros H. unfold _reset_daily_counters.
  apply Z.ltb_ge in H. rewrite H. reflexivity.
Qed.

Lemma rollover_trip_fields (now : Q) (s : state) :
  triggered (_reset_daily_counters now s) = triggered s /\
  trigger_reason (_reset_daily_counters now s) = trigger_reason s /\
  trigger_time (_reset_daily_counters now s) = trigger_time s /\
  alerts (_reset_daily_counters now s) = alerts s.
Proof.
  unfold _reset_daily_counters.
  destruct (last_reset_day s <? _get_current_day now); simpl; auto.
Qed.

Lemma trigger_counters (cfg : config) (now : Q) (r : reason) (s : state) :
  daily_loss (trigger cfg now r s) = daily_loss s /\
  failed_tx_count (trigger cfg now r s) = failed_tx_count s /\
  last_reset_day (trigger cfg now r s) = last_reset_day s.
Proof.
  unfold trigger. destruct (triggered s), (auto_kill_enabled cfg); simpl; auto.
Qed.

Lemma trigger_when_tripped (cfg : config) (now : Q) (r : reason) (s : state) :
  triggered s = true -> trigger cfg now r s = s.
Proof. intros H. unfold trigger. rewrite H. reflexivity. Qed.

Lemma trigger_disabled (cfg : config) (now : Q) (r : reason) (s : state) :
  auto_kill_enabled cfg = false -> trigger cfg now r s = s.
Proof.
  intros H. unfold trigger. rewrite H. destruct (triggered s); reflexivity.
Qed.

Lemma trigger_enabled (cfg : config) (now : Q) (r : reason) (s : state) :
  auto_kill_enabled cfg = true -> triggered (trigger cfg now r s) = true.
Proof.
  intros H. unfold trigger. rewrite H.
  destruct (triggered s) eqn:E; simpl; auto.
Qed.

Lemma record_loss_daily_loss (cfg : config) (now loss_usd : Q) (s : state) :
  daily_loss (record_loss cfg now loss_usd s)
  = Float64.add (daily_loss (_reset_daily_counters now s)) (Qabs loss_usd).
Proof.
  unfold record_loss.
  match goal with |- context [if ?b then _ else _] => destruct b end;
    [apply trigger_counters|reflexivity].
Qed.

Lemma record_loss_counters (cfg : config) (now loss_usd : Q) (s : state) :
  failed_tx_count (record_loss cfg now loss_usd s)
  = failed_tx_count (_reset_daily_counters now s) /\
  last_reset_day (record_loss cfg now loss_usd s)
  = last_reset_day (_reset_daily_counters now s).
Proof.
  unfold record_loss.
  match goal with |- context [if ?b then _ else _] => destruct b end;
    [|split; reflexivity].
  match goal with |- context [trigger ?c ?n ?r ?st] =>
    destruct (trigger_counters c n r st) as (_ & T2 & T3)
  end.
  rewrite T2, T3. split; reflexivity.
Qed.

Lemma step_trip_fields (cfg : config) (s : state) (o : op) :
  triggered s = true -> is_reset o = false ->
  triggered (step cfg s o) = true /\
  trigger_reason (step cfg s o) = trigger_reason s /\
  trigger_time (step cfg s o) = trigger_time s.
Proof.
  intros Ht Ho.
  destruct o as [now l|now|now r|now r| |now|now|]; simpl; try discriminate.
  - unfold record_loss.
    destruct (rollover_trip_fields now s) as (E1 & E2 & E3 & _).
    match goal with |- context [if ?b then _ else _] => destruct b end; simpl.
    + rewrite trigger_when_tripped; simpl; rewrite ?E1, ?E2, ?E3; auto.
    + rewrite E1, E2, E3. auto.
  - destruct (rollover_trip_fields now s) as (E1 & E2 & E3 & _).
    rewrite E1, E2, E3. auto.
  - rewrite trigger_when_tripped; auto.
  - rewrite trigger_when_tripped; auto.
  - auto.
  - destruct (rollover_trip_fields now s) as (E1 & E2 & E3 & _).
    rewrite E1, E2, E3. auto.
  - destruct (rollover_trip_fields now s) as (E1 & E2 & E3 & _).
    rewrite E1, E2, E3. auto.
Qed.

Lemma exec_trip_fields (cfg : config) (ops : list op) (s : state) :
  triggered s = true ->
  forallb (fun o => negb (is_reset o)) ops = true ->
  triggered (exec cfg ops s) = true /\
  trigger_reason (exec cfg ops s) = trigger_reason s /\
  trigger_time (exec cfg ops s) = trigger_time s.
Proof.
  revert s. induction ops as [|o ops IH]; intros s Ht Hall; simpl in *.
  - auto.
  - apply andb_true_iff in Hall as [Ho Hall]. apply negb_true_iff in Ho.
    destruct (step_trip_fields cfg s o Ht Ho) as (E1 & E2 & E3).
    destruct (IH (step cfg s o) E1 Hall) as (F1 & F2 & F3).
    unfold exec in *. rewrite F2, F3. auto.
Qed.

(** *** The trip transition *)

(** C4, as stated, at a concrete input: with [enable_auto_kill_switch] off, a
    loss of $150 against a ceiling of $100 is accumulated but leaves the
    governor armed, and so does the task of a manual trigger request; and
    with it on, the governor is still armed when [manual_trigger] returns. *)
Lemma record_loss_ignored_when_auto_kill_disabled :
  let cfg := mkConfig 100 5 false true in
  let s := record_loss cfg 0 150 (init 0) in
  (max_daily_loss_usd cfg <= daily_loss s)%Q /\
  triggered s = false /\
  triggered (step cfg (init 0) (ManualTrigger 1 (Reason "Manual activation")))
  = false /\
  manual_trigger true (Reason "Manual activation") (init 0)
  = (TaskCreated (Reason "Manual activation"), init 0) /\
  triggered (init 0) = false.
Proof. vm_compute. split; [discriminate|repeat split; reflexivity]. Qed.

(** C4, amended.  With [enable_auto_kill_switch] on, a [record_loss] call that
    brings the accumulated loss of the day to the ceiling or above leaves the
    governor tripped, and so does every [trigger] that runs.  A manual
    trigger request does not trip the governor by itself: [manual_trigger]
    leaves the state as it is and creates a task for [trigger] on the running
    event loop (it raises [RuntimeError] when there is none); the governor is
    tripped when that task runs.  With [enable_auto_kill_switch] off,
    [record_loss] leaves the trip fields as they are.  Once tripped, the
    governor stays tripped, with the same reason and time, under every
    sequence of operations that contains no [reset]; [reset] clears the
    flag. *)
Theorem tripped_on_ceiling_when_enabled_and_latched :
  (forall cfg now loss_usd s,
     auto_kill_enabled cfg = true ->
     (max_daily_loss_usd cfg <= daily_loss (record_loss cfg now loss_usd s))%Q ->
     triggered (record_loss cfg now loss_usd s) = true) /\
  (forall cfg now r s,
     auto_kill_enabled cfg = true ->
     triggered (trigger cfg now r s) = true /\
     triggered (step cfg s (ManualTrigger now r)) = true) /\
  (forall r s,
     manual_trigger true r s = (TaskCreated r, s) /\
     manual_trigger false r s = (RuntimeError, s)) /\
  (forall cfg now loss_usd s,
     auto_kill_enabled cfg = false ->
     triggered (record_loss cfg now loss_usd s) = triggered s /\
     trigger_reason (record_loss cfg now loss_usd s) = trigger_reason s /\
     trigger_time (record_loss cfg now loss_usd s) = trigger_time s) /\
  (forall cfg ops s,
     triggered s = true ->
     forallb (fun o => negb (is_reset o)) ops = true ->
     triggered (exec cfg ops s) = true /\
     trigger_reason (exec cfg ops s) = trigger_reason s /\
     trigger_time (exec cfg ops s) = trigger_time s) /\
  (forall s, triggered (reset s) = false).
Proof.
  split; [|split; [|split; [|split; [|split]]]].
  - intros cfg now loss_usd s Ha Hle.
    rewrite record_loss_daily_loss in Hle.
    unfold record_loss. cbn [daily_loss].
    unfold PyNum.geb. apply Qle_bool_iff in Hle. rewrite Hle.
    apply trigger_enabled. assumption.
  - intros cfg now r s Ha. split; apply trigger_enabled; assumption.
  - intros r s. split; reflexivity.
  - intros cfg now loss_usd s Ha.
    destruct (rollover_trip_fields now s) as (E1 & E2 & E3 & _).
    unfold record_loss.
    match goal with |- context [if ?b then _ else _] => destruct b end;
      [rewrite trigger_disabled by assumption|]; simpl; auto.
  - apply exec_trip_fields.
  - reflexivity.
Qed.

Lemma tripped_on_ceiling_when_enabled_and_latched_witness :
  triggered (record_loss (mkConfig 100 5 true true) 0 150 (init 0)) = true /\
  triggered (exec (mkConfig 100 5 true true)
               [RecordLoss 90000 (-3); RecordFailedTransaction 90001;
                CheckDailyLoss 200000; GetStatus 200001; IsTriggered]
               (record_loss (mkConfig 100 5 true true) 0 150 (init 0))) = true.
Proof.
  split.
  - apply (proj1 tripped_on_ceiling_when_enabled_and_latched);
      [reflexivity|vm_compute; discriminate].
  - apply (proj1 (proj2 (proj2 (proj2 (proj2
             tripped_on_ceiling_when_enabled_and_latched))))); reflexivity.
Defined.

(** *** Day rollover *)

(** A governor that accumulated $80 and three failed transactions on day 0
    and has not been tripped. *)
Definition armed_yesterday : state :=
  mkState false None None (Float64.of_Q 80) 3 0 [].

(** C6, as stated, at a concrete input: on day 1, [is_triggered], [reset],
    an awaited [trigger] and [manual_trigger] with its task are operations of
    the governor after which the counters of day 0 and the stored day are
    still in place. *)
Lemma rollover_not_performed_by_trigger_reset_is_triggered :
  let cfg := mkConfig 100 5 true true in
  let stale (s : state) :=
    (daily_loss s == 80)%Q /\ failed_tx_count s = 3 /\ last_reset_day s = 0 in
  last_reset_day armed_yesterday < _get_current_day 86400 /\
  stale (step cfg armed_yesterday IsTriggered) /\
  stale (step cfg armed_yesterday Reset) /\
  stale (step cfg armed_yesterday (Trigger 86400 (Reason "stop"))) /\
  stale (snd (manual_trigger true (Reason "stop") armed_yesterday)) /\
  stale (step cfg armed_yesterday (ManualTrigger 86400 (Reason "stop"))).
Proof. vm_compute. repeat split; reflexivity. Qed.

(** C6, amended.  When the day index of the clock is past the stored day, the
    rollover sets the two daily counters to zero and stores the new day, and
    leaves the tripped flag, the trip reason, the trip time and the alerts as
    they were.  The operations that read or mutate the daily counters
    ([record_loss], [record_failed_transaction], [check_daily_loss],
    [get_status]) perform it first.  The remaining operations ([trigger],
    [reset], [manual_trigger]; [is_triggered] only reads the flag) do not
    perform it: they leave the counters and the stored day as they are, and
    they commute with the rollover, so that it is indifferent whether it
    happens before or after them. *)
Theorem day_rollover_resets_only_daily_counters
    (cfg : config) (now : Q) (s : state) :
  last_reset_day s < _get_current_day now ->
  let s' := _reset_daily_counters now s in
  (daily_loss s' = Float64.zero /\ failed_tx_count s' = 0 /\
   last_reset_day s' = _get_current_day now /\
   triggered s' = triggered s /\ trigger_reason s' = trigger_reason s /\
   trigger_time s' = trigger_time s /\ alerts s' = alerts s) /\
  snd (check_daily_loss cfg now s) = s' /\
  snd (get_status cfg now s) = s' /\
  (forall loss_usd,
     daily_loss (record_loss cfg now loss_usd s)
     = Float64.add 0 (Qabs loss_usd) /\
     failed_tx_count (record_loss cfg now loss_usd s) = 0 /\
     last_reset_day (record_loss cfg now loss_usd s) = _get_current_day now /\
     (triggered s = true ->
      triggered (record_loss cfg now loss_usd s) = true /\
      trigger_reason (record_loss cfg now loss_usd s) = trigger_reason s /\
      trigger_time (record_loss cfg now loss_usd s) = trigger_time s)) /\
  (daily_loss (record_failed_transaction cfg now s) = Float64.zero /\
   failed_tx_count (record_failed_transaction cfg now s) = 1 /\
   last_reset_day (record_failed_transaction cfg now s) = _get_current_day now /\
   triggered (record_failed_transaction cfg now s) = triggered s /\
   trigger_reason (record_failed_transaction cfg now s) = trigger_reason s /\
   trigger_time (record_failed_transaction cfg now s) = trigger_time s) /\
  (forall t r,
     daily_loss (trigger cfg t r s) = daily_loss s /\
     failed_tx_count (trigger cfg t r s) = failed_tx_count s /\
     last_reset_day (trigger cfg t r s) = last_reset_day s /\
     _reset_daily_counters now (trigger cfg t r s) = trigger cfg t r s') /\
  (daily_loss (reset s) = daily_loss s /\
   failed_tx_count (reset s) = failed_tx_count s /\
   last_reset_day (reset s) = last_reset_day s /\
   _reset_daily_counters now (reset s) = reset s') /\
  (forall loop_running r, snd (manual_trigger loop_running r s) = s).
Proof.
  intros Hday s'. pose proof (rollover_fires now s Hday) as E.
  fold s' in E.
  split; [rewrite E; simpl; repeat split; reflexivity|].
  split; [reflexivity|]. split; [reflexivity|].
  split; [|split; [|split; [|split]]].
  - intros loss_usd. rewrite record_loss_daily_loss. fold s'.
    destruct (record_loss_counters cfg now loss_usd s) as [F1 F2].
    fold s' in F1, F2. rewrite E in F1, F2. simpl in F1, F2.
    split; [rewrite E; reflexivity|]. split; [assumption|].
    split; [assumption|].
    intros Ht. apply (step_trip_fields cfg s (RecordLoss now loss_usd) Ht).
    reflexivity.
  - unfold record_failed_transaction. fold s'. rewrite E. simpl.
    repeat split; reflexivity.
  - intros t r.
    destruct (trigger_counters cfg t r s) as (T1 & T2 & T3).
    split; [assumption|]. split; [assumption|]. split; [assumption|].
    unfold trigger. fold s'.
    replace (triggered s') with (triggered s) by (rewrite E; reflexivity).
    destruct (triggered s); [reflexivity|].
    destruct (auto_kill_enabled cfg); simpl; [|reflexivity].
    unfold _reset_daily_counters at 1. simpl.
    apply Z.ltb_lt in Hday. rewrite Hday. rewrite E. reflexivity.
  - split; [reflexivity|]. split; [reflexivity|]. split; [reflexivity|].
    unfold _reset_daily_counters at 1. simpl.
    apply Z.ltb_lt in Hday. rewrite Hday. rewrite E. reflexivity.
  - intros [|] r; reflexivity.
Qed.

Definition tripped_yesterday : state :=
  mkState true (Some (DailyLossLimitExceeded 150)) (Some 100%Q)
          (Float64.of_Q 150) 4 0
          [KillSwitchActivated (DailyLossLimitExceeded 150)].

Lemma day_rollover_resets_only_daily_counters_witness :
  daily_loss (_reset_daily_counters 86400 tripped_yesterday) = Float64.zero /\
  failed_tx_count (_reset_daily_counters 86400 tripped_yesterday) = 0 /\
  last_reset_day (_reset_daily_counters 86400 tripped_yesterday) = 1 /\
  triggered (_reset_daily_counters 86400 tripped_yesterday) = true.
Proof.
  destruct (day_rollover_resets_only_daily_counters
              (mkConfig 100 5 true true) 86400 tripped_yesterday)
    as ((H1 & H2 & H3 & H4 & _) & _).
  - vm_compute. reflexivity.
  - repeat split; assumption.
Defined.

(** *** Accumulated loss within a day *)

Definition record_losses (cfg : config) (calls : list (Q * Q)) (s : state)
  : state :=
  foldl (fun st c => record_loss cfg (fst c) (snd c) st) s calls.


(** The float sum is never below the loss accumulated so far. *)
Lemma add_abs_ge (d : Float64.float) (loss_usd : Q) :
  (d <= Float64.add d (Qabs loss_usd))%Q.
Proof.
  cbn [Float64.add Float64.of_Q Float64.fval].
  apply Float64.round_ge_float. pose proof (Qabs_nonneg loss_usd). lra.
Qed.


(** The accumulated loss is the float sum: ten losses of $0.1 accumulate to
    0.9999999999999999, below a ceiling of $1, and the governor stays
    armed. *)
Example ten_losses_of_ten_cents :
  let cfg := mkConfig 1 5 true true in
  let dime : Q := Float64.of_Q (1 # 10) in
  let s := record_losses cfg (repeat (10%Q, dime) 10) (init 0) in
  (daily_loss s == 9007199254740991 # 9007199254740992)%Q /\
  triggered s = false.
Proof. vm_compute. split; reflexivity. Qed.





(** *** Failed transactions, alerts and manual reset *)

Definition record_failures (cfg : config) (nows : list Q) (s : state) : state :=
  foldl (fun st now => record_failed_transaction cfg now st) s nows.

Lemma record_failed_transaction_fields (cfg : config) (now : Q) (s : state) :
  triggered (record_failed_transaction cfg now s) = triggered s /\
  trigger_reason (record_failed_transaction cfg now s) = trigger_reason s /\
  trigger_time (record_failed_transaction cfg now s) = trigger_time s /\
  daily_loss (record_failed_transaction cfg now s)
  = daily_loss (_reset_daily_counters now s) /\
  failed_tx_count (record_failed_transaction cfg now s)
  = failed_tx_count (_reset_daily_counters now s) + 1 /\
  last_reset_day (record_failed_transaction cfg now s)
  = last_reset_day (_reset_daily_counters now s).
Proof.
  destruct (rollover_trip_fields now s) as (E1 & E2 & E3 & _).
  unfold record_failed_transaction. simpl. rewrite E1, E2, E3.
  repeat split; reflexivity.
Qed.

(** Failed transactions alone never trip the switch: whatever the number of
    [record_failed_transaction] calls and the configured limit, the tripped
    flag, reason and time stay as they were.  On the day of the last rollover
    the calls count up one by one, and once the limit is reached every
    further failure hands one more alert to the alert system. *)
Theorem record_failed_transaction_never_trips (cfg : config) (s : state) :
  (forall nows,
     triggered (record_failures cfg nows s) = triggered s /\
     trigger_reason (record_failures cfg nows s) = trigger_reason s /\
     trigger_time (record_failures cfg nows s) = trigger_time s) /\
  (forall nows,
     Forall (fun now => _get_current_day now <= last_reset_day s) nows ->
     failed_tx_count (record_failures cfg nows s)
     = failed_tx_count s + Z.of_nat (length nows) /\
     daily_loss (record_failures cfg nows s) = daily_loss s) /\
  (forall now,
     _get_current_day now <= last_reset_day s ->
     max_failed_tx cfg <= failed_tx_count s + 1 ->
     alert_system cfg = true ->
     alerts (record_failed_transaction cfg now s)
     = alerts s ++ [FailedTransactionLimitReached (failed_tx_count s + 1)]).
Proof.
  split; [|split].
  - intros nows. revert s. induction nows as [|now nows IH]; intros s; simpl.
    + auto.
    + destruct (IH (record_failed_transaction cfg now s)) as (E1 & E2 & E3).
      destruct (record_failed_transaction_fields cfg now s)
        as (F1 & F2 & F3 & _).
      unfold record_failures in *. rewrite E1, E2, E3, F1, F2, F3. auto.
  - intros nows. revert s. induction nows as [|now nows IH]; intros s Hall.
    + simpl. split; [lia|reflexivity].
    + inversion Hall as [|x xs Hday Hrest]; subst.
      destruct (record_failed_transaction_fields cfg now s)
        as (_ & _ & _ & F4 & F5 & F6).
      rewrite (rollover_idle now s Hday) in F4, F5, F6.
      cbn [record_failures foldl length].
      destruct (IH (record_failed_transaction cfg now s)) as [E1 E2].
      { rewrite F6. assumption. }
      unfold record_failures in *. rewrite E1, E2, F4, F5. split; [lia|auto].
  - intros now Hday Hmax Ha. unfold record_failed_transaction.
    rewrite (rollover_idle now s Hday). simpl.
    apply Z.leb_le in Hmax. rewrite Hmax, Ha. reflexivity.
Qed.

Lemma record_failed_transaction_never_trips_witness :
  failed_tx_count
    (record_failures (mkConfig 100 2 true true) [10; 20; 30]%Q (init 0))
  = 0 + Z.of_nat 3 /\
  alerts (record_failed_transaction (mkConfig 100 2 true true) 40
            (record_failures (mkConfig 100 2 true true) [10; 20; 30]%Q (init 0)))
  = alerts (record_failures (mkConfig 100 2 true true) [10; 20; 30]%Q (init 0))
    ++ [FailedTransactionLimitReached 4].
Proof.
  split.
  - apply (proj1 (proj2 (record_failed_transaction_never_trips
             (mkConfig 100 2 true true) (init 0))) [10; 20; 30]%Q).
    repeat constructor; vm_compute; discriminate.
  - apply (proj2 (proj2 (record_failed_transaction_never_trips
             (mkConfig 100 2 true true)
             (record_failures (mkConfig 100 2 true true) [10; 20; 30]%Q
                (init 0)))) 40%Q).
    + vm_compute. discriminate.
    + vm_compute. discriminate.
    + reflexivity.
Defined.

Lemma record_losses_when_tripped (cfg : config) (calls : list (Q * Q))
    (s : state) :
  triggered s = true ->
  triggered (record_losses cfg calls s) = true /\
  trigger_reason (record_losses cfg calls s) = trigger_reason s /\
  trigger_time (record_losses cfg calls s) = trigger_time s /\
  alerts (record_losses cfg calls s) = alerts s.
Proof.
  revert s. induction calls as [|[now l] calls IH]; intros s Ht; simpl.
  - auto.
  - assert (Hs : triggered (record_loss cfg now l s) = true /\
                 trigger_reason (record_loss cfg now l s) = trigger_reason s /\
                 trigger_time (record_loss cfg now l s) = trigger_time s /\
                 alerts (record_loss cfg now l s) = alerts s).
    { destruct (rollover_trip_fields now s) as (E1 & E2 & E3 & E4).
      unfold record_loss.
      match goal with |- context [if ?b then _ else _] => destruct b end.
      - rewrite trigger_when_tripped by (simpl; congruence).
        simpl. rewrite E1, E2, E3, E4. auto.
      - simpl. rewrite E1, E2, E3, E4. auto. }
    destruct Hs as (H1 & H2 & H3 & H4).
    destruct (IH _ H1) as (I1 & I2 & I3 & I4).
    unfold record_losses in *. simpl. rewrite I1, I2, I3, I4, H2, H3, H4. auto.
Qed.

(** The trip is notified once.  The [record_loss] call that trips an armed
    governor stores the reason and the time of the call and hands exactly one
    alert to the alert system; while the governor is tripped, no further
    [record_loss] call sends an alert or changes the reason or the time. *)
Theorem trip_is_notified_once (cfg : config) (s : state) :
  (forall now loss_usd,
     triggered s = false -> auto_kill_enabled cfg = true ->
     alert_system cfg = true ->
     (max_daily_loss_usd cfg <= daily_loss (record_loss cfg now loss_usd s))%Q ->
     let r := DailyLossLimitExceeded
                (daily_loss (record_loss cfg now loss_usd s)) in
     triggered (record_loss cfg now loss_usd s) = true /\
     trigger_reason (record_loss cfg now loss_usd s) = Some r /\
     trigger_time (record_loss cfg now loss_usd s) = Some now /\
     alerts (record_loss cfg now loss_usd s)
     = alerts s ++ [KillSwitchActivated r]) /\
  (forall calls,
     triggered s = true ->
     alerts (record_losses cfg calls s) = alerts s /\
     trigger_reason (record_losses cfg calls s) = trigger_reason s /\
     trigger_time (record_losses cfg calls s) = trigger_time s).
Proof.
  split.
  - intros now loss_usd Ht Ha Hal Hle r.
    rewrite record_loss_daily_loss in Hle. subst r.
    rewrite record_loss_daily_loss.
    destruct (rollover_trip_fields now s) as (E1 & _ & _ & E4).
    unfold record_loss. cbn [daily_loss].
    unfold PyNum.geb. apply Qle_bool_iff in Hle. rewrite Hle.
    unfold trigger. cbn [triggered]. rewrite E1, Ht, Ha, Hal. simpl.
    rewrite E4. auto.
  - intros calls Ht.
    destruct (record_losses_when_tripped cfg calls s Ht) as (_ & H2 & H3 & H4).
    auto.
Qed.

Lemma trip_is_notified_once_witness :
  alerts (record_loss (mkConfig 100 5 true true) 7 (-150) (init 0))
  = alerts (init 0) ++ [KillSwitchActivated (DailyLossLimitExceeded
      (daily_loss (record_loss (mkConfig 100 5 true true) 7 (-150) (init 0))))]
  /\
  alerts (record_losses (mkConfig 100 5 true true) [(8, 20); (90000, 500)]%Q
            (record_loss (mkConfig 100 5 true true) 7 (-150) (init 0)))
  = alerts (record_loss (mkConfig 100 5 true true) 7 (-150) (init 0)).
Proof.
  split.
  - apply (proj1 (trip_is_notified_once (mkConfig 100 5 true true) (init 0))
             7%Q (-150)%Q); try reflexivity.
    vm_compute. discriminate.
  - apply (proj2 (trip_is_notified_once (mkConfig 100 5 true true)
                    (record_loss (mkConfig 100 5 true true) 7 (-150) (init 0)))
             [(8, 20); (90000, 500)]%Q).
    reflexivity.
Defined.


(** [reset] disarms the switch but keeps the accumulated loss of the day:
    while the loss is at or above the ceiling, [check_daily_loss] still
    answers [True] after a manual reset, and with the automatic kill switch
    on the next [record_loss] of that day, of any amount, trips it again. *)
Theorem reset_keeps_accumulated_loss (cfg : config) (s : state) :
  daily_loss (reset s) = daily_loss s /\
  failed_tx_count (reset s) = failed_tx_count s /\
  last_reset_day (reset s) = last_reset_day s /\
  (forall now loss_usd,
     _get_current_day now <= last_reset_day s ->
     (max_daily_loss_usd cfg <= daily_loss s)%Q ->
     fst (check_daily_loss cfg now (reset s)) = true /\
     (auto_kill_enabled cfg = true ->
      triggered (record_loss cfg now loss_usd (reset s)) = true)).
Proof.
  repeat split; try reflexivity.
  - unfold check_daily_loss. simpl.
    rewrite rollover_idle by assumption. simpl.
    apply Qle_bool_iff. assumption.
  - intros Ha. unfold record_loss.
    rewrite rollover_idle by assumption. cbn [daily_loss reset].
    assert (Hle : (max_daily_loss_usd cfg
                   <= Float64.add (daily_loss s) (Qabs loss_usd))%Q).
    { eapply Qle_trans; [eassumption|apply add_abs_ge]. }
    unfold PyNum.geb. apply Qle_bool_iff in Hle. rewrite Hle.
    apply trigger_enabled. assumption.
Qed.

Lemma reset_keeps_accumulated_loss_witness :
  fst (check_daily_loss (mkConfig 100 5 true true) 50
         (reset (record_loss (mkConfig 100 5 true true) 7 150 (init 0))))
  = true /\
  triggered (record_loss (mkConfig 100 5 true true) 50 0
               (reset (record_loss (mkConfig 100 5 true true) 7 150 (init 0))))
  = true.
Proof.
  destruct (proj2 (proj2 (proj2 (reset_keeps_accumulated_loss
              (mkConfig 100 5 true true)
              (record_loss (mkConfig 100 5 true true) 7 150 (init 0)))))
              50%Q 0%Q) as [H1 H2].
  - vm_compute. discriminate.
  - vm_compute. discriminate.
  - split; [exact H1|apply H2; reflexivity].
Defined.

(** Armed only below the ceiling: the governor is tripped, or the accumulated
    loss is below the ceiling. *)
Definition armed_below_ceiling (cfg : config) (s : state) : Prop :=
  triggered s = true \/ (daily_loss s < max_daily_loss_usd cfg)%Q.

Lemma rollover_armed_below_ceiling (cfg : config) (now : Q) (s : state) :
  (0 < max_daily_loss_usd cfg)%Q ->
  armed_below_ceiling cfg s ->
  armed_below_ceiling cfg (_reset_daily_counters now s).
Proof.
  intros Hpos [Ht|Hlt]; unfold armed_below_ceiling, _reset_daily_counters;
    destruct (last_reset_day s <? _get_current_day now); simpl; auto.
Qed.

Lemma step_armed_below_ceiling (cfg : config) (s : state) (o : op) :
  auto_kill_enabled cfg = true ->
  (0 < max_daily_loss_usd cfg)%Q ->
  is_reset o = false ->
  armed_below_ceiling cfg s -> armed_below_ceiling cfg (step cfg s o).
Proof.
  intros Ha Hpos Ho Hs.
  destruct o as [now l|now|now r|now r| |now|now|]; simpl; try discriminate.
  - pose proof (rollover_armed_below_ceiling cfg now s Hpos Hs) as Hr.
    unfold record_loss. cbn [daily_loss].
    destruct (PyNum.geb _ _) eqn:E.
    + left. apply trigger_enabled. assumption.
    + destruct Hr as [Ht|_]; [left; assumption|]. right. cbn [daily_loss].
      unfold PyNum.geb in E. apply Qnot_le_lt. intros H.
      apply Qle_bool_iff in H. congruence.
  - pose proof (rollover_armed_below_ceiling cfg now s Hpos Hs) as [Ht|Hlt];
      [left|right]; assumption.
  - left. apply trigger_enabled. assumption.
  - left. apply trigger_enabled. assumption.
  - assumption.
  - apply rollover_armed_below_ceiling; assumption.
  - apply rollover_armed_below_ceiling; assumption.
Qed.

(** With the automatic kill switch on and a positive ceiling, along every
    history of a fresh governor that contains no manual [reset], the
    accumulated loss is at or above the ceiling only when the governor is
    tripped: whenever [check_daily_loss] answers [True], [is_triggered] does
    too. *)
Theorem daily_loss_at_ceiling_implies_tripped
    (cfg : config) (now0 : Q) (ops : list op) :
  auto_kill_enabled cfg = true ->
  (0 < max_daily_loss_usd cfg)%Q ->
  forallb (fun o => negb (is_reset o)) ops = true ->
  ((max_daily_loss_usd cfg <= daily_loss (exec cfg ops (init now0)))%Q ->
   is_triggered (exec cfg ops (init now0)) = true) /\
  (forall now,
     fst (check_daily_loss cfg now (exec cfg ops (init now0))) = true ->
     is_triggered (exec cfg ops (init now0)) = true).
Proof.
  intros Ha Hpos Hall.
  assert (Hinv : armed_below_ceiling cfg (exec cfg ops (init now0))).
  { assert (H0 : armed_below_ceiling cfg (init now0)) by (right; exact Hpos).
    revert H0 Hall. generalize (init now0).
    induction ops as [|o ops IH]; intros s Hs Hall; simpl in *.
    - assumption.
    - apply andb_true_iff in Hall as [Ho Hall]. apply negb_true_iff in Ho.
      apply IH; [|assumption]. apply step_armed_below_ceiling; assumption. }
  split.
  - intros Hle. destruct Hinv as [Ht|Hlt]; [exact Ht|].
    exfalso. apply (Qlt_not_le _ _ Hlt Hle).
  - intros now Hc. unfold check_daily_loss in Hc. simpl in Hc.
    apply Qle_bool_iff in Hc.
    destruct (rollover_armed_below_ceiling cfg now _ Hpos Hinv) as [Ht|Hlt].
    + destruct (rollover_trip_fields now (exec cfg ops (init now0)))
        as (E1 & _). unfold is_triggered. congruence.
    + exfalso. apply (Qlt_not_le _ _ Hlt Hc).
Qed.

Lemma daily_loss_at_ceiling_implies_tripped_witness :
  is_triggered
    (exec (mkConfig 100 5 true true)
       [RecordLoss 10 60; RecordFailedTransaction 20; RecordLoss 30 (-45)]%Q
       (init 0)) = true.
Proof.
  apply (proj1 (daily_loss_at_ceiling_implies_tripped
                  (mkConfig 100 5 true true) 0
                  [RecordLoss 10 60; RecordFailedTransaction 20;
                   RecordLoss 30 (-45)]%Q eq_refl eq_refl eq_refl)).
  vm_compute. discriminate.
Defined.

(** [get_status] rolls the day over like the other readers and then reports
    the state: with a ceiling of zero its percentage raises, otherwise it
    returns the trip fields and counters of the rolled-over state, and for a
    positive ceiling the reported percentage is at least 100 exactly when
    [check_daily_loss] answers [True]. *)
Theorem get_status_reports_rolled_over_state
    (cfg : config) (now : Q) (s : state) :
  ((max_daily_loss_usd cfg == 0)%Q -> fst (get_status cfg now s) = None) /\
  (~ (max_daily_loss_usd cfg == 0)%Q ->
   exists st,
     fst (get_status cfg now s) = Some st /\
     st_triggered st = triggered s /\
     st_trigger_reason st = trigger_reason s /\
     st_daily_loss_usd st = daily_loss (_reset_daily_counters now s) /\
     st_failed_tx_count st = failed_tx_count (_reset_daily_counters now s) /\
     ((0 < max_daily_loss_usd cfg)%Q ->
      ((100 <= st_daily_loss_percent st)%Q <->
       fst (check_daily_loss cfg now s) = true))).
Proof.
  unfold get_status, check_daily_loss. cbn [fst]. split.
  - intros Hz. apply Qeq_bool_iff in Hz. rewrite Hz. reflexivity.
  - intros Hnz. destruct (Qeq_bool (max_daily_loss_usd cfg) 0) eqn:E.
    { apply Qeq_bool_iff in E. contradiction. }
    destruct (rollover_trip_fields now s) as (E1 & E2 & _).
    eexists. split; [reflexivity|]. cbn.
    split; [assumption|]. split; [assumption|].
    split; [reflexivity|]. split; [reflexivity|].
    intros Hpos. set (d := daily_loss (_reset_daily_counters now s)).
    set (m := max_daily_loss_usd cfg) in *.
    unfold PyNum.geb. rewrite Qle_bool_iff.
    assert (Hdm : (d / m * m == d)%Q) by (field; exact Hnz).
    split.
    + intros H. assert (H1 : (1 <= d / m)%Q) by lra.
      assert (H2 : (1 * m <= d / m * m)%Q)
        by (apply Qmult_le_compat_r; [assumption|lra]).
      rewrite Hdm in H2. lra.
    + intros H. assert (H1 : (1 <= d / m)%Q).
      { apply Qle_shift_div_l; [assumption|]. lra. }
      lra.
Qed.

Lemma get_status_reports_rolled_over_state_witness :
  exists st,
    fst (get_status (mkConfig 100 5 true true) 90000 tripped_yesterday)
    = Some st /\
    st_triggered st = true /\
    st_daily_loss_usd st = 0%Q.
Proof.
  destruct (proj2 (get_status_reports_rolled_over_state
                     (mkConfig 100 5 true true) 90000 tripped_yesterday))
    as (st & H1 & H2 & _ & H3 & _).
  - vm_compute. discriminate.
  - exists st. split; [exact H1|]. split; [exact H2|].
    rewrite H3. vm_compute. reflexivity.
Defined.

End KillSwitch.

(** ** utils/rpc_manager.py *)

Module RPCManager.

(** *** Error text classification *)

(** ASCII lower-casing, as [str.lower] acts on the error texts. *)
Definition lower_ascii (c : ascii) : ascii :=
  let n := nat_of_ascii c in
  if ((65 <=? n) && (n <=? 90))%nat then ascii_of_nat (n + 32) else c.

Fixpoint lower (s : string) : string :=
  match s with
  | EmptyString => EmptyString
  | String c s' => String (lower_ascii c) (lower s')
  end.

(** [needle in hay] on strings. *)
Fixpoint contains (needle hay : string) : bool :=
  String.prefix needle hay ||
  match hay with
  | EmptyString => false
  | String _ hay' => contains needle hay'
  end.

(** The exceptions that can reach the handler of [make_call]: an error raised
    by the provider with its message, or the [KeyError] of a dict access. *)
Inductive exn :=
| ProviderError (msg : string)
| KeyError (key : string).

(** [str(e)]; a [KeyError] prints the repr of its key. *)
Definition str (e : exn) : string :=
  match e with
  | ProviderError msg => msg
  | KeyError key => "'" +:+ key +:+ "'"
  end.

(** ['429' in error_str or 'rate limit' in error_str
     or 'too many requests' in error_str], with
    [error_str = str(e).lower()]. *)
Definition is_rate_limit (e : exn) : bool :=
  let error_str := lower (str e) in
  contains "429" error_str || contains "rate limit" error_str
  || contains "too many requests" error_str.

(** *** State *)

(** An entry of [self.usage_stats]. *)
Record stats := mkStats {
  requests : Z;
  failures : Z;
  last_failure_time : Q
}.

(** The mutable part of the manager: the current-tier pointer and the usage
    statistics (one entry per key of [self.tiers]); [w3_instances] holds the
    names of the tiers whose connection succeeded. *)
Record state := mkState {
  current_tier : string;
  usage_stats : gmap string stats;
  w3_instances : gset string
}.

(** What the manager does not control: the answer of
    [w3.provider.make_request] at a given attempt on the instance of a given
    tier (a result, or the message of the error raised), and the clock. *)
Record env := mkEnv {
  make_request : nat -> string -> string + string;
  clock : nat -> Q
}.

Inductive outcome :=
| Returned (result : option string)
| Raised (e : exn).

Section with_config.
(** [config['failover_strategy']['fallback_sequence']] *)
Variable fallback_sequence : list string.

(** [list.index]: position of the first occurrence, [None] for
    [ValueError]. *)
Fixpoint index (x : string) (l : list string) : option nat :=
  match l with
  | [] => None
  | y :: l' => if String.eqb y x then Some O else S <$> index x l'
  end.

(** [_get_next_tier] *)
Definition _get_next_tier (tier : string) : option string :=
  match index tier fallback_sequence with
  | Some current_index =>
      if (current_index + 1 <? length fallback_sequence)%nat
      then fallback_sequence !! (current_index + 1)%nat
      else None
  | None => Some "tier_1"
  end.

(** Truth value of an [Optional[str]]: [None] and the empty string are
    false. *)
Definition truthy (o : option string) : bool :=
  match o with
  | Some t => negb (String.eqb t "")
  | None => false
  end.

(** [get_web3]: the tier whose instance is returned. *)
Definition get_web3 (tier : option string) (st : state) : exn + string :=
  let tier_name := if truthy tier then default "" tier else current_tier st in
  let tier_name := if decide (tier_name ∈ w3_instances st) then tier_name
                   else "tier_1" in
  if decide (tier_name ∈ w3_instances st) then inr tier_name
  else inl (KeyError "tier_1").

(** The [try] block of one attempt: the result and the state with the
    request counted, or the exception raised. *)
Definition try_request (e : env) (attempt : nat) (tier_name : string)
    (st : state) : exn + (string * state) :=
  match get_web3 (Some tier_name) st with
  | inl err => inl err
  | inr instance =>
      match make_request e attempt instance with
      | inr msg => inl (ProviderError msg)
      | inl result =>
          match usage_stats st !! tier_name with
          | None => inl (KeyError tier_name)
          | Some u =>
              inr (result,
                   mkState (current_tier st)
                     (<[tier_name :=
                          mkStats (requests u + 1) (failures u)
                                  (last_failure_time u)]> (usage_stats st))
                     (w3_instances st))
          end
      end
  end.

(** [max_retries = 3] *)
Definition max_retries : nat := 3.

(** The [for attempt in range(max_retries)] loop of [make_call], from the
    attempts still to run. *)
Fixpoint make_call_loop (e : env) (attempts : list nat) (tier_name : string)
    (st : state) : outcome * state :=
  match attempts with
  | [] => (Returned None, st)
  | attempt :: rest =>
      match try_request e attempt tier_name st with
      | inr (result, st') => (Returned (Some result), st')
      | inl err =>
          if is_rate_limit err then
            match usage_stats st !! tier_name with
            | None => (Raised (KeyError tier_name), st)
            | Some u =>
                let st1 :=
                  mkState (current_tier st)
                    (<[tier_name :=
                         mkStats (requests u) (failures u + 1)
                                 (clock e attempt)]> (usage_stats st))
                    (w3_instances st) in
                let next_tier := _get_next_tier tier_name in
                if truthy next_tier then
                  let next := default "" next_tier in
                  make_call_loop e rest next
                    (mkState next (usage_stats st1) (w3_instances st1))
                else (Raised err, st1)
            end
          else if (attempt <? max_retries - 1)%nat then
            make_call_loop e rest tier_name st
          else (Raised err, st)
      end
  end.

(** [make_call(method, params, tier)] *)
Definition make_call (e : env) (tier : option string) (st : state)
  : outcome * state :=
  let tier_name := if truthy tier then default "" tier else current_tier st in
  make_call_loop e (seq 0 max_retries) tier_name st.

(** [force_tier]; [self.tiers] has the keys of [usage_stats]. *)
Definition force_tier (tier_name : string) (st : state) : state :=
  if decide (is_Some (usage_stats st !! tier_name))
  then mkState tier_name (usage_stats st) (w3_instances st)
  else st.

(** [reset_tier_to_primary] *)
Definition reset_tier_to_primary (st : state) : state :=
  mkState "tier_1" (usage_stats st) (w3_instances st).

End with_config.

(** *** Failover on a rate-limited failure *)





Lemma _get_next_tier_inside fallback_sequence T i :
  index T fallback_sequence = Some i ->
  _get_next_tier fallback_sequence T = fallback_sequence !! S i.
Proof.
  intros Hi. unfold _get_next_tier. rewrite Hi, Nat.add_1_r.
  destruct (S i <? length fallback_sequence)%nat eqn:E; [reflexivity|].
  apply Nat.ltb_ge in E. symmetry. apply lookup_ge_None. assumption.
Qed.

Lemma truthy_Some (t : string) : t <> "" -> truthy (Some t) = true.
Proof.
  intros H. unfold truthy. destruct (String.eqb_spec t ""); [contradiction|].
  reflexivity.
Qed.



Definition three_tiers : list string := ["tier_1"; "tier_2"; "tier_3"].

Definition three_tier_state (current : string) : state :=
  mkState current
    (<["tier_1" := mkStats 0 0 0]>
       (<["tier_2" := mkStats 0 0 0]> (<["tier_3" := mkStats 0 0 0]> ∅)))
    ({["tier_1"]} ∪ {["tier_2"]} ∪ {["tier_3"]}).

(** Every tier answers HTTP 429. *)
Definition all_rate_limited : env :=
  mkEnv (fun _ _ => inr "HTTP 429: Too Many Requests") (fun _ => 0%Q).

Example failover_sequence_tier_1_to_3 :
  current_tier (snd (make_call three_tiers all_rate_limited None
                       (three_tier_state "tier_1"))) = "tier_3" /\
  fst (make_call three_tiers all_rate_limited None (three_tier_state "tier_1"))
  = Raised (ProviderError "HTTP 429: Too Many Requests").
Proof. vm_compute. split; reflexivity. Qed.



(** *** Retries, and where the pointer can go *)

Lemma make_call_loop_generic_error fallback_sequence e attempt rest T st err :
  try_request e attempt T st = inl err ->
  is_rate_limit err = false ->
  make_call_loop fallback_sequence e (attempt :: rest) T st
  = if (attempt <? max_retries - 1)%nat
    then make_call_loop fallback_sequence e rest T st
    else (Raised err, st).
Proof.
  intros Htry Hrl. cbn [make_call_loop]. rewrite Htry, Hrl. reflexivity.
Qed.

Lemma make_call_loop_success fallback_sequence e attempt rest T st result st' :
  try_request e attempt T st = inr (result, st') ->
  make_call_loop fallback_sequence e (attempt :: rest) T st
  = (Returned (Some result), st').
Proof. intros Htry. cbn [make_call_loop]. rewrite Htry. reflexivity. Qed.

(** An error that is not classified as rate-limited is retried on the same
    tier: it changes neither the pointer nor the usage statistics (such
    failures are not counted).  When all three attempts fail this way the
    third error is raised to the caller; when an earlier error is followed
    by a success, the call returns that result. *)
Theorem make_call_retries_other_errors_on_same_tier
    (fallback_sequence : list string) (e : env) (st : state) :
  ((forall attempt, (attempt < 3)%nat ->
      exists err, try_request e attempt (current_tier st) st = inl err /\
                  is_rate_limit err = false) ->
   exists err,
     try_request e 2 (current_tier st) st = inl err /\
     make_call fallback_sequence e None st = (Raised err, st)) /\
  (forall k result st',
     (k < 3)%nat ->
     (forall attempt, (attempt < k)%nat ->
        exists err, try_request e attempt (current_tier st) st = inl err /\
                    is_rate_limit err = false) ->
     try_request e k (current_tier st) st = inr (result, st') ->
     make_call fallback_sequence e None st = (Returned (Some result), st') /\
     current_tier st' = current_tier st).
Proof.
  split.
  - intros Hall.
    destruct (Hall 0%nat ltac:(lia)) as (e0 & H0 & R0).
    destruct (Hall 1%nat ltac:(lia)) as (e1 & H1 & R1).
    destruct (Hall 2%nat ltac:(lia)) as (e2 & H2 & R2).
    exists e2. split; [assumption|].
    unfold make_call. cbn [truthy seq max_retries].
    rewrite (make_call_loop_generic_error _ _ _ _ _ _ _ H0 R0).
    cbn [Nat.ltb Nat.leb max_retries Nat.sub].
    rewrite (make_call_loop_generic_error _ _ _ _ _ _ _ H1 R1).
    cbn [Nat.ltb Nat.leb max_retries Nat.sub].
    rewrite (make_call_loop_generic_error _ _ _ _ _ _ _ H2 R2).
    reflexivity.
  - intros k result st' Hk Hfail Hok.
    assert (Hcur : current_tier st' = current_tier st).
    { unfold try_request in Hok.
      destruct (get_web3 _ st); [discriminate|].
      destruct (make_request e k s); [|discriminate].
      destruct (usage_stats st !! current_tier st); [|discriminate].
      injection Hok as _ <-. reflexivity. }
    split; [|exact Hcur].
    unfold make_call. cbn [truthy seq max_retries].
    destruct k as [|[|[|k]]]; [| | |lia].
    + apply make_call_loop_success. assumption.
    + destruct (Hfail 0%nat ltac:(lia)) as (e0 & H0 & R0).
      rewrite (make_call_loop_generic_error _ _ _ _ _ _ _ H0 R0).
      cbn [Nat.ltb Nat.leb max_retries Nat.sub].
      apply make_call_loop_success. assumption.
    + destruct (Hfail 0%nat ltac:(lia)) as (e0 & H0 & R0).
      destruct (Hfail 1%nat ltac:(lia)) as (e1 & H1 & R1).
      rewrite (make_call_loop_generic_error _ _ _ _ _ _ _ H0 R0).
      cbn [Nat.ltb Nat.leb max_retries Nat.sub].
      rewrite (make_call_loop_generic_error _ _ _ _ _ _ _ H1 R1).
      cbn [Nat.ltb Nat.leb max_retries Nat.sub].
      apply make_call_loop_success. assumption.
Qed.

(** The node times out on every attempt. *)
Definition all_timeouts : env :=
  mkEnv (fun _ _ => inr "Read timed out") (fun _ => 0%Q).

Lemma make_call_retries_other_errors_on_same_tier_witness :
  exists err,
    try_request all_timeouts 2 "tier_1" (three_tier_state "tier_1") = inl err /\
    make_call three_tiers all_timeouts None (three_tier_state "tier_1")
    = (Raised err, three_tier_state "tier_1").
Proof.
  apply (proj1 (make_call_retries_other_errors_on_same_tier three_tiers
                  all_timeouts (three_tier_state "tier_1"))).
  intros attempt _. exists (ProviderError "Read timed out").
  split; reflexivity.
Defined.

Lemma _get_next_tier_range fallback_sequence T next :
  _get_next_tier fallback_sequence T = Some next ->
  next ∈ fallback_sequence \/ next = "tier_1".
Proof.
  unfold _get_next_tier.
  destruct (index T fallback_sequence) as [i|]; [|intros [= <-]; auto].
  destruct (i + 1 <? length fallback_sequence)%nat; [|discriminate].
  intros H. left. eapply list_elem_of_lookup_2. eassumption.
Qed.

(** What a call may change besides the usage counters. *)
Definition reachable_from (fallback_sequence : list string) (st0 st : state)
  : Prop :=
  w3_instances st = w3_instances st0 /\
  dom (usage_stats st) = dom (usage_stats st0) /\
  (current_tier st = current_tier st0 \/
   current_tier st ∈ fallback_sequence \/ current_tier st = "tier_1").

Lemma make_call_loop_reachable fallback_sequence e st0 attempts T st :
  reachable_from fallback_sequence st0 st ->
  reachable_from fallback_sequence st0
    (snd (make_call_loop fallback_sequence e attempts T st)).
Proof.
  revert T st. induction attempts as [|attempt rest IH]; intros T st Hst.
  - exact Hst.
  - cbn [make_call_loop].
    destruct (try_request e attempt T st) as [err|[result st']] eqn:Etry.
    + destruct (is_rate_limit err).
      * destruct (usage_stats st !! T) as [u|] eqn:Eu; [|exact Hst].
        assert (Hdom : dom (<[T := mkStats (requests u) (failures u + 1)
                                     (clock e attempt)]> (usage_stats st))
                       = dom (usage_stats st)).
        { apply dom_insert_lookup_L. rewrite Eu. eauto. }
        destruct Hst as (H1 & H2 & H3).
        destruct (truthy (_get_next_tier fallback_sequence T)) eqn:Et.
        -- apply IH. unfold reachable_from. cbn.
           split; [assumption|]. split; [congruence|].
           destruct (_get_next_tier fallback_sequence T) as [next|] eqn:En;
             [|discriminate].
           right. apply (_get_next_tier_range _ _ _ En).
        -- unfold reachable_from. cbn.
           split; [assumption|]. split; [congruence|assumption].
      * destruct (attempt <? max_retries - 1)%nat; [apply IH|]; exact Hst.
    + cbn. unfold try_request in Etry.
      destruct (get_web3 _ st); [discriminate|].
      destruct (make_request e attempt s); [|discriminate].
      destruct (usage_stats st !! T) as [u|] eqn:Eu; [|discriminate].
      injection Etry as _ <-.
      destruct Hst as (H1 & H2 & H3). unfold reachable_from. cbn.
      split; [assumption|]. split; [|assumption].
      rewrite <- H2. apply dom_insert_lookup_L. rewrite Eu. eauto.
Qed.

(** Whatever the answers of the providers and the tier asked for, a
    [make_call] leaves the set of connected tiers and the set of tiers with
    usage statistics as they are, and the current-tier pointer is afterwards
    either unchanged, or a tier of the fallback sequence, or ["tier_1"]. *)
Theorem make_call_moves_pointer_within_fallback_sequence
    (fallback_sequence : list string) (e : env) (tier : option string)
    (st : state) :
  let st' := snd (make_call fallback_sequence e tier st) in
  w3_instances st' = w3_instances st /\
  dom (usage_stats st') = dom (usage_stats st) /\
  (current_tier st' = current_tier st \/
   current_tier st' ∈ fallback_sequence \/ current_tier st' = "tier_1").
Proof.
  apply make_call_loop_reachable. unfold reachable_from. auto.
Qed.


Lemma index_lookup (l : list string) (x : string) (i : nat) :
  index x l = Some i -> l !! i = Some x.
Proof.
  revert i. induction l as [|y l IH]; intros i; simpl; [discriminate|].
  destruct (String.eqb_spec y x) as [->|Hne].
  - intros [= <-]. reflexivity.
  - destruct (index x l) as [j|]; [|discriminate].
    intros [= <-]. simpl. apply IH. reflexivity.
Qed.

Lemma index_NoDup (l : list string) (x : string) (i : nat) :
  NoDup l -> l !! i = Some x -> index x l = Some i.
Proof.
  intros Hnd. revert i. induction Hnd as [|y l Hy Hnd IH]; intros i Hi.
  - destruct i; discriminate.
  - simpl. destruct i as [|i]; simpl in Hi.
    + injection Hi as ->. rewrite String.eqb_refl. reflexivity.
    + destruct (String.eqb_spec y x) as [->|Hne].
      * exfalso. apply Hy. eapply list_elem_of_lookup_2. eassumption.
      * rewrite (IH i Hi). reflexivity.
Qed.

(** In a fallback sequence without repeated names, [_get_next_tier] walks
    the sequence in order: the tier at position [i] is followed by the tier
    at position [i + 1], the last tier by nothing, and no tier is followed by
    itself. *)
Theorem _get_next_tier_walks_the_sequence
    (fallback_sequence : list string) (i : nat) (tier : string) :
  NoDup fallback_sequence ->
  fallback_sequence !! i = Some tier ->
  _get_next_tier fallback_sequence tier = fallback_sequence !! S i /\
  (S i = length fallback_sequence ->
   _get_next_tier fallback_sequence tier = None) /\
  _get_next_tier fallback_sequence tier <> Some tier.
Proof.
  intros Hnd Hi.
  pose proof (_get_next_tier_inside fallback_sequence tier i
                (index_NoDup _ _ _ Hnd Hi)) as E.
  split; [exact E|]. split.
  - intros Hlast. rewrite E. apply lookup_ge_None. lia.
  - rewrite E. intros Hsame.
    pose proof (NoDup_lookup _ _ _ _ Hnd Hi Hsame). lia.
Qed.

Lemma _get_next_tier_walks_the_sequence_witness :
  _get_next_tier three_tiers "tier_2" = three_tiers !! 2%nat /\
  _get_next_tier three_tiers "tier_3" = None.
Proof.
  assert (Hnd : NoDup three_tiers).
  { unfold three_tiers. repeat constructor; rewrite ?elem_of_cons, ?elem_of_nil;
      intuition discriminate. }
  split.
  - apply (proj1 (_get_next_tier_walks_the_sequence three_tiers 1 "tier_2"
                    Hnd eq_refl)).
  - apply (proj1 (proj2 (_get_next_tier_walks_the_sequence three_tiers 2
                           "tier_3" Hnd eq_refl))).
    reflexivity.
Defined.

Lemma make_call_loop_forward fallback_sequence e attempts st j :
  NoDup fallback_sequence ->
  fallback_sequence !! j = Some (current_tier st) ->
  exists j',
    (j <= j')%nat /\
    fallback_sequence !! j'
    = Some (current_tier
              (snd (make_call_loop fallback_sequence e attempts
                      (current_tier st) st))).
Proof.
  intros Hnd. revert st j.
  induction attempts as [|attempt rest IH]; intros st j Hj.
  - exists j. auto.
  - cbn [make_call_loop].
    destruct (try_request e attempt (current_tier st) st)
      as [err|[result st']] eqn:Etry.
    + destruct (is_rate_limit err).
      * destruct (usage_stats st !! current_tier st) as [u|];
          [|exists j; auto].
        rewrite (_get_next_tier_inside _ _ _ (index_NoDup _ _ _ Hnd Hj)).
        destruct (fallback_sequence !! S j) as [next|] eqn:En;
          [|exists j; auto].
        destruct (truthy (Some next)); [|exists j; auto].
        cbn [default].
        destruct (IH (mkState next
                        (<[current_tier st :=
                             mkStats (requests u) (failures u + 1)
                                     (clock e attempt)]> (usage_stats st))
                        (w3_instances st)) (S j) En) as (j' & Hle & Hj').
        exists j'. split; [lia|exact Hj'].
      * destruct (attempt <? max_retries - 1)%nat; [|exists j; auto].
        apply IH. assumption.
    + exists j. split; [lia|]. cbn. unfold try_request in Etry.
      destruct (get_web3 _ st); [discriminate|].
      destruct (make_request e attempt s); [|discriminate].
      destruct (usage_stats st !! current_tier st); [|discriminate].
      injection Etry as _ <-. exact Hj.
Qed.

(** Failover only moves forward.  When the fallback sequence has no repeated
    names and the pointer is on one of its tiers, a [make_call] without
    explicit tier leaves the pointer on that tier or on a later one of the
    sequence: it never returns to an earlier tier by itself. *)
Theorem make_call_never_moves_to_an_earlier_tier
    (fallback_sequence : list string) (e : env) (st : state) (j : nat) :
  NoDup fallback_sequence ->
  fallback_sequence !! j = Some (current_tier st) ->
  exists j',
    (j <= j')%nat /\
    fallback_sequence !! j'
    = Some (current_tier (snd (make_call fallback_sequence e None st))).
Proof.
  intros Hnd Hj. unfold make_call. cbn [truthy].
  apply make_call_loop_forward; assumption.
Qed.

Lemma make_call_never_moves_to_an_earlier_tier_witness :
  exists j',
    (1 <= j')%nat /\
    three_tiers !! j'
    = Some (current_tier
              (snd (make_call three_tiers all_rate_limited None
                      (three_tier_state "tier_2")))).
Proof.
  apply (make_call_never_moves_to_an_earlier_tier three_tiers all_rate_limited
           (three_tier_state "tier_2") 1).
  - unfold three_tiers.
    repeat constructor; rewrite ?elem_of_cons, ?elem_of_nil;
      intuition discriminate.
  - reflexivity.
Defined.

(** A request on a tier that has no connected instance is sent through the
    instance of ["tier_1"] and counted in the statistics of the tier that was
    asked for; when ["tier_1"] is not connected either, every attempt fails
    with [KeyError('tier_1')], which is raised after the third attempt. *)
Theorem unconnected_tier_is_served_by_tier_1
    (fallback_sequence : list string) (e : env) (T : string) (st : state) :
  T <> "" ->
  T ∉ w3_instances st ->
  (forall result u,
     "tier_1" ∈ w3_instances st ->
     make_request e 0 "tier_1" = inl result ->
     usage_stats st !! T = Some u ->
     make_call fallback_sequence e (Some T) st
     = (Returned (Some result),
        mkState (current_tier st)
          (<[T := mkStats (requests u + 1) (failures u) (last_failure_time u)]>
             (usage_stats st))
          (w3_instances st))) /\
  ("tier_1" ∉ w3_instances st ->
   make_call fallback_sequence e (Some T) st
   = (Raised (KeyError "tier_1"), st)).
Proof.
  intros Hne HT.
  assert (Htruthy : truthy (Some T) = true) by (apply truthy_Some; assumption).
  split.
  - intros result u H1 Hreq Hu.
    unfold make_call. rewrite Htruthy. cbn [default from_option id seq max_retries].
    apply make_call_loop_success.
    unfold try_request, get_web3. rewrite Htruthy. cbn [default from_option id].
    rewrite (decide_False _ _ HT), (decide_True _ _ H1), Hreq, Hu. reflexivity.
  - intros H1.
    assert (Htry : forall attempt,
              try_request e attempt T st = inl (KeyError "tier_1")).
    { intros attempt. unfold try_request, get_web3. rewrite Htruthy.
      cbn [default from_option id]. rewrite (decide_False _ _ HT), (decide_False _ _ H1).
      reflexivity. }
    unfold make_call. rewrite Htruthy. cbn [default from_option id seq max_retries].
    rewrite !(make_call_loop_generic_error _ _ _ _ _ _ _ (Htry _) eq_refl).
    reflexivity.
Qed.

Lemma unconnected_tier_is_served_by_tier_1_witness :
  make_call three_tiers all_timeouts (Some "tier_2")
    (mkState "tier_2" (usage_stats (three_tier_state "tier_2")) ∅)
  = (Raised (KeyError "tier_1"),
     mkState "tier_2" (usage_stats (three_tier_state "tier_2")) ∅).
Proof.
  apply (proj2 (unconnected_tier_is_served_by_tier_1 three_tiers all_timeouts
                  "tier_2"
                  (mkState "tier_2" (usage_stats (three_tier_state "tier_2")) ∅)
                  ltac:(discriminate) ltac:(apply not_elem_of_empty))).
  apply not_elem_of_empty.
Defined.


(** *** WebSocket URL and health *)

(** The part of the manager read by [get_websocket_url]: the current tier,
    the ['wss_url'] entry of every tier of [self.tiers] ([None] when the tier
    has none) and [self.ws_url_cache]. *)
Record ws_view := mkWs {
  ws_current_tier : string;
  wss_urls : gmap string (option string);
  ws_url_cache : option string
}.

(** [get_websocket_url]: the URL returned and the view with its cache. *)
Definition get_websocket_url (v : ws_view) : option string * ws_view :=
  if truthy (ws_url_cache v) then (ws_url_cache v, v)
  else
    let tier_2 :=
      match wss_urls v !! "tier_2" with
      | Some wss_url =>
          if truthy wss_url
          then (wss_url, mkWs (ws_current_tier v) (wss_urls v) wss_url)
          else (None, v)
      | None => (None, v)
      end in
    match wss_urls v !! ws_current_tier v with
    | Some wss_url =>
        if truthy wss_url
        then (wss_url, mkWs (ws_current_tier v) (wss_urls v) wss_url)
        else tier_2
    | None => tier_2
    end.

(** [is_healthy]; [is_connected] is the answer of [w3.is_connected()] for
    the instance of a tier, [None] when it raises. *)
Definition is_healthy (is_connected : string -> option bool) (st : state)
  : bool :=
  match get_web3 None st with
  | inr instance => default false (is_connected instance)
  | inl _ => false
  end.

(** The WebSocket URL is cached for good: the first URL handed out is the one
    of the current tier, or that of ["tier_2"] when the current tier has
    none, and from then on the same URL is returned whatever the current tier
    and the tier table become. *)
Theorem get_websocket_url_is_cached_for_good (v : ws_view) :
  (forall url v',
     get_websocket_url v = (Some url, v') ->
     forall tier urls,
       get_websocket_url (mkWs tier urls (ws_url_cache v'))
       = (Some url, mkWs tier urls (ws_url_cache v'))) /\
  (forall url,
     truthy (ws_url_cache v) = false ->
     wss_urls v !! ws_current_tier v = Some (Some url) -> url <> "" ->
     fst (get_websocket_url v) = Some url) /\
  (forall url,
     truthy (ws_url_cache v) = false ->
     (forall u, wss_urls v !! ws_current_tier v = Some u -> truthy u = false) ->
     wss_urls v !! "tier_2" = Some (Some url) -> url <> "" ->
     fst (get_websocket_url v) = Some url).
Proof.
  split; [|split].
  - intros url v' Hget.
    assert (Hc : ws_url_cache v' = Some url /\ truthy (Some url) = true).
    { unfold get_websocket_url in Hget.
      destruct (truthy (ws_url_cache v)) eqn:Ec.
      - injection Hget as E <-. rewrite E in *. auto.
      - destruct (wss_urls v !! ws_current_tier v) as [w|].
        + destruct (truthy w) eqn:Ew.
          * injection Hget as -> <-. auto.
          * destruct (wss_urls v !! "tier_2") as [w2|]; [|discriminate].
            destruct (truthy w2) eqn:Ew2; [|discriminate].
            injection Hget as -> <-. auto.
        + destruct (wss_urls v !! "tier_2") as [w2|]; [|discriminate].
          destruct (truthy w2) eqn:Ew2; [|discriminate].
          injection Hget as -> <-. auto. }
    destruct Hc as [Hc Ht]. intros tier urls.
    unfold get_websocket_url. cbn [ws_url_cache]. rewrite Hc, Ht. reflexivity.
  - intros url Hc Hcur Hne. unfold get_websocket_url.
    rewrite Hc, Hcur, (truthy_Some url Hne). reflexivity.
  - intros url Hc Hcur H2 Hne. unfold get_websocket_url.
    rewrite Hc, H2, (truthy_Some url Hne).
    destruct (wss_urls v !! ws_current_tier v) as [w|] eqn:Ew; [|reflexivity].
    rewrite (Hcur w eq_refl). reflexivity.
Qed.

Definition ws_sample : ws_view :=
  mkWs "tier_1"
       (<["tier_1" := None]> (<["tier_2" := Some "wss://two.example"]> ∅))
       None.

Lemma get_websocket_url_is_cached_for_good_witness :
  fst (get_websocket_url ws_sample) = Some "wss://two.example" /\
  get_websocket_url
    (mkWs "tier_3" ∅ (ws_url_cache (snd (get_websocket_url ws_sample))))
  = (Some "wss://two.example",
     mkWs "tier_3" ∅ (ws_url_cache (snd (get_websocket_url ws_sample)))).
Proof.
  split.
  - apply (proj2 (proj2 (get_websocket_url_is_cached_for_good ws_sample))).
    + reflexivity.
    + intros u Hu. vm_compute in Hu. injection Hu as <-. reflexivity.
    + reflexivity.
    + discriminate.
  - apply (proj1 (get_websocket_url_is_cached_for_good ws_sample)
             "wss://two.example" (snd (get_websocket_url ws_sample))).
    reflexivity.
Defined.

End RPCManager.

(** ** utils/multicall.py *)

Module Multicall.

Definition bytes := list Byte.byte.

(** A call dict: [{'target': ..., 'call_data': ...}]. *)
Record call := mkCall {
  target : string;
  call_data : bytes
}.

(** An entry in the format of Multicall3's [aggregate3]. *)
Record Call3 := mkCall3 {
  c3_target : string;
  c3_allowFailure : bool;
  c3_callData : bytes
}.

(** [range(0, stop, step)] for [step > 0]. *)
Definition range_step (stop step : nat) : list nat :=
  map (fun k => (k * step)%nat) (seq 0 ((stop + step - 1) / step)).

(** The chunk list of [aggregate]:
    [[calls[i:i + chunk_size] for i in range(0, len(calls), chunk_size)]].
    [range] raises [ValueError] for a zero step ([None]) and is empty for a
    negative one. *)
Definition chunks (chunk_size : Z) (calls : list call)
  : option (list (list call)) :=
  if chunk_size =? 0 then None
  else if chunk_size <? 0 then Some []
  else
    let n := Z.to_nat chunk_size in
    Some (map (fun i => take n (drop i calls)) (range_step (length calls) n)).

(** [return_data if success and return_data else None] *)
Definition decode (result : bool * bytes) : option bytes :=
  match result with
  | (true, (_ :: _) as return_data) => Some return_data
  | _ => None
  end.

Section with_chain.
(** [Web3.to_checksum_address]; [None] when it raises. *)
Variable to_checksum_address : string -> option string.
(** [self.contract.functions.aggregate3(calls).call()]: the list of
    [(success, returnData)] pairs, or [None] when the round-trip raises. *)
Variable aggregate3 : list Call3 -> option (list (bool * bytes)).

(** The list comprehension building [multicall_calls]. *)
Fixpoint multicall_calls (calls : list call) (allow_failure : bool)
  : option (list Call3) :=
  match calls with
  | [] => Some []
  | c :: rest =>
      match to_checksum_address (target c) with
      | None => None
      | Some a =>
          match multicall_calls rest allow_failure with
          | None => None
          | Some mcs => Some (mkCall3 a allow_failure (call_data c) :: mcs)
          end
      end
  end.

(** [_execute_chunk] *)
Definition _execute_chunk (calls : list call) (allow_failure : bool)
  : list (option bytes) :=
  match multicall_calls calls allow_failure with
  | None => replicate (length calls) None
  | Some mcs =>
      match aggregate3 mcs with
      | None => replicate (length calls) None
      | Some results => map decode results
      end
  end.

(** [aggregate]; [chunk_size] is [self.chunk_size]. *)
Definition aggregate (chunk_size : Z) (calls : list call)
    (allow_failure : bool) : list (option bytes) :=
  match calls with
  | [] => []
  | _ =>
      match chunks chunk_size calls with
      | None => replicate (length calls) None
      | Some cs =>
          foldl (fun all_results chunk =>
                   all_results ++ _execute_chunk chunk allow_failure)
                [] cs
      end
  end.
End with_chain.

(** The behaviour of the deployed Multicall3 contract's [aggregate3], over
    the outcome [eth_call target data] of each single call on the chain state
    of the round-trip: the whole call reverts when an entry fails whose
    [allowFailure] is false, and otherwise returns one [(success, returnData)]
    pair per entry, in order. *)
Definition multicall3 (eth_call : string -> bytes -> bool * bytes)
    (calls : list Call3) : option (list (bool * bytes)) :=
  if forallb (fun c => c3_allowFailure c ||
                       fst (eth_call (c3_target c) (c3_callData c))) calls
  then Some (map (fun c => eth_call (c3_target c) (c3_callData c)) calls)
  else None.

(** The result of one entry executed on its own. *)
Definition entry_result (to_checksum_address : string -> option string)
    (eth_call : string -> bytes -> bool * bytes) (c : call) : option bytes :=
  match to_checksum_address (target c) with
  | Some a => decode (eth_call a (call_data c))
  | None => None
  end.

(** *** Chunking *)

Lemma chunk_prefix {A} (n : nat) (l : list A) (k : nat) :
  concat (map (fun i => take n (drop i l))
              (map (fun j => (j * n)%nat) (seq 0 k)))
  = take (k * n) l.
Proof.
  induction k as [|k IH].
  - reflexivity.
  - rewrite seq_S, !map_app, concat_app, IH. simpl.
    rewrite app_nil_r, take_take_drop. f_equal. lia.
Qed.

Lemma range_step_covers (stop step : nat) :
  (0 < step)%nat -> (stop <= (stop + step - 1) / step * step)%nat.
Proof.
  intros Hstep.
  pose proof (Nat.div_mod_eq (stop + step - 1) step) as E.
  pose proof (Nat.mod_upper_bound (stop + step - 1) step) as B.
  nia.
Qed.

Lemma chunks_concat (chunk_size : Z) (calls : list call) :
  0 < chunk_size ->
  exists cs, chunks chunk_size calls = Some cs /\ concat cs = calls /\
             forall chunk, In chunk cs -> exists i n, chunk = take n (drop i calls).
Proof.
  intros Hpos. unfold chunks.
  destruct (chunk_size =? 0) eqn:E0; [apply Z.eqb_eq in E0; lia|].
  destruct (chunk_size <? 0) eqn:E1; [apply Z.ltb_lt in E1; lia|].
  eexists. split; [reflexivity|]. split.
  - unfold range_step. rewrite chunk_prefix. apply take_ge.
    apply range_step_covers. lia.
  - intros chunk Hin. apply in_map_iff in Hin as (i & <- & _). eauto.
Qed.

Lemma foldl_extend {A B} (f : A -> list B) (cs : list A) (acc : list B) :
  foldl (fun all_results chunk => all_results ++ f chunk) acc cs
  = acc ++ concat (map f cs).
Proof.
  revert acc. induction cs as [|c cs IH]; intros acc; simpl.
  - rewrite app_nil_r. reflexivity.
  - rewrite IH, <- app_assoc. reflexivity.
Qed.

(** *** One round-trip *)

Section chunk_facts.
Variable to_checksum_address : string -> option string.



Variable eth_call : string -> bytes -> bool * bytes.

Lemma multicall_calls_allowing calls :
  Forall (fun c => is_Some (to_checksum_address (target c))) calls ->
  exists mcs,
    multicall_calls to_checksum_address calls true = Some mcs /\
    Forall (fun m => c3_allowFailure m = true) mcs /\
    map (fun m => decode (eth_call (c3_target m) (c3_callData m))) mcs
    = map (entry_result to_checksum_address eth_call) calls.
Proof.
  induction 1 as [|c calls [a Ha] _ (mcs & E & Hall & Hmap)]; simpl.
  - exists []. auto.
  - rewrite Ha, E. eexists. split; [reflexivity|]. split.
    + constructor; [reflexivity|assumption].
    + simpl. rewrite Hmap. unfold entry_result at 2. rewrite Ha.
      reflexivity.
Qed.

Lemma _execute_chunk_isolated calls :
  Forall (fun c => is_Some (to_checksum_address (target c))) calls ->
  _execute_chunk to_checksum_address (multicall3 eth_call) calls true
  = map (entry_result to_checksum_address eth_call) calls.
Proof.
  intros Hvalid.
  destruct (multicall_calls_allowing calls Hvalid) as (mcs & E & Hall & Hmap).
  unfold _execute_chunk, multicall3. rewrite E.
  replace (forallb _ mcs) with true.
  - rewrite map_map. exact Hmap.
  - symmetry. apply forallb_forall. intros m Hm.
    rewrite Forall_forall in Hall. rewrite (Hall m); [reflexivity|].
    apply list_elem_of_In. assumption.
Qed.
End chunk_facts.

(** *** The aggregator *)

(** A chain on which the target ["0xbad"] reverts and every other target
    returns one byte; addresses are accepted when they start with ["0x"]. *)
Definition sample_checksum (a : string) : option string :=
  if String.prefix "0x" a then Some a else None.

Definition sample_eth_call (a : string) (data : bytes) : bool * bytes :=
  if String.eqb a "0xbad" then (false, []) else (true, [Byte.x01]).

Definition batch_of (targets : list string) : list call :=
  map (fun t => mkCall t [Byte.xaa]) targets.

Example batch_of_five_index_2_failing :
  aggregate sample_checksum (multicall3 sample_eth_call) 50
    (batch_of ["0xa"; "0xb"; "0xbad"; "0xd"; "0xe"]) true
  = [Some [Byte.x01]; Some [Byte.x01]; None; Some [Byte.x01]; Some [Byte.x01]] /\
  aggregate sample_checksum (multicall3 sample_eth_call) 2
    (batch_of ["0xa"; "0xb"; "0xbad"; "0xd"; "0xe"]) true
  = [Some [Byte.x01]; Some [Byte.x01]; None; Some [Byte.x01]; Some [Byte.x01]].
Proof. vm_compute. split; reflexivity. Qed.





(** *** Round-trips and degenerate chunk sizes *)

Lemma aggregate_entry_results
    (to_checksum_address : string -> option string)
    (eth_call : string -> bytes -> bool * bytes)
    (chunk_size : Z) (calls : list call) :
  0 < chunk_size ->
  Forall (fun c => is_Some (to_checksum_address (target c))) calls ->
  aggregate to_checksum_address (multicall3 eth_call) chunk_size calls true
  = map (entry_result to_checksum_address eth_call) calls.
Proof.
  intros Hsize Hvalid.
  unfold aggregate. destruct calls as [|c0 cs0] eqn:Ec; [reflexivity|].
  rewrite <- Ec in *. clear Ec.
  destruct (chunks_concat chunk_size calls Hsize) as (cs & E & Hcat & Hsub).
  rewrite E, foldl_extend. simpl.
  rewrite <- Hcat. clear E Hcat.
  induction cs as [|chunk cs IH]; simpl; [reflexivity|].
  rewrite map_app, IH by (intros ch Hch; apply Hsub; right; assumption).
  f_equal. apply _execute_chunk_isolated.
  destruct (Hsub chunk (or_introl eq_refl)) as (i & n & ->).
  apply Forall_take, Forall_drop. assumption.
Qed.

(** For a positive chunk size the calls are cut into
    [ceil(len(calls) / chunk_size)] round-trips; every round-trip carries at
    least one and at most [chunk_size] entries, and the round-trips put end
    to end are the input. *)
Theorem chunks_respect_the_maximum_size (chunk_size : Z) (calls : list call) :
  0 < chunk_size ->
  exists cs,
    chunks chunk_size calls = Some cs /\
    concat cs = calls /\
    Z.of_nat (length cs)
    = (Z.of_nat (length calls) + chunk_size - 1) / chunk_size /\
    Forall (fun chunk => 0 < Z.of_nat (length chunk) <= chunk_size) cs.
Proof.
  intros Hpos.
  destruct (chunks_concat chunk_size calls Hpos) as (cs & E & Hcat & _).
  exists cs. split; [assumption|]. split; [assumption|].
  unfold chunks in E.
  destruct (chunk_size =? 0) eqn:E0; [apply Z.eqb_eq in E0; lia|].
  destruct (chunk_size <? 0) eqn:E1; [apply Z.ltb_lt in E1; lia|].
  injection E as <-. unfold range_step.
  set (n := Z.to_nat chunk_size). set (len := length calls).
  assert (Hn : (0 < n)%nat) by (unfold n; lia).
  split.
  - rewrite !length_map, length_seq.
    rewrite Nat2Z.inj_div, Nat2Z.inj_sub by lia.
    rewrite Nat2Z.inj_add. unfold n. rewrite Z2Nat.id by lia. reflexivity.
  - rewrite map_map. apply Forall_map. apply Forall_forall. intros k Hk.
    apply elem_of_seq in Hk as [_ Hk]. simpl in Hk.
    rewrite length_take, length_drop. fold len.
    assert (Hlt : (k * n < len)%nat).
    { pose proof (Nat.div_mod_eq (len + n - 1) n) as Ed.
      pose proof (Nat.mod_upper_bound (len + n - 1) n ltac:(lia)) as Bd.
      nia. }
    unfold n in *. lia.
Qed.

Lemma chunks_respect_the_maximum_size_witness :
  exists cs,
    chunks 2 (batch_of ["0xa"; "0xb"; "0xc"; "0xd"; "0xe"]) = Some cs /\
    concat cs = batch_of ["0xa"; "0xb"; "0xc"; "0xd"; "0xe"] /\
    Z.of_nat (length cs)
    = (Z.of_nat (length (batch_of ["0xa"; "0xb"; "0xc"; "0xd"; "0xe"]))
       + 2 - 1) / 2 /\
    Forall (fun chunk => 0 < Z.of_nat (length chunk) <= 2) cs.
Proof.
  apply (chunks_respect_the_maximum_size 2
           (batch_of ["0xa"; "0xb"; "0xc"; "0xd"; "0xe"])).
  lia.
Defined.

(** Degenerate chunk sizes.  An empty input gives an empty result without
    any round-trip.  With a chunk size of zero the [range] raises and every
    entry is reported as [None]; with a negative chunk size no round-trip is
    made and the result is the empty list, whatever the number of calls. *)
Theorem aggregate_with_degenerate_chunk_size
    (to_checksum_address : string -> option string)
    (aggregate3 : list Call3 -> option (list (bool * bytes)))
    (chunk_size : Z) (calls : list call) (allow_failure : bool) :
  aggregate to_checksum_address aggregate3 chunk_size [] allow_failure = [] /\
  (chunk_size = 0 ->
   aggregate to_checksum_address aggregate3 chunk_size calls allow_failure
   = replicate (length calls) None) /\
  (chunk_size < 0 ->
   aggregate to_checksum_address aggregate3 chunk_size calls allow_failure
   = []).
Proof.
  split; [reflexivity|]. split.
  - intros ->. unfold aggregate. destruct calls; reflexivity.
  - intros Hneg. unfold aggregate, chunks.
    destruct calls as [|c cs]; [reflexivity|].
    destruct (chunk_size =? 0) eqn:E0; [apply Z.eqb_eq in E0; lia|].
    apply Z.ltb_lt in Hneg. rewrite Hneg. reflexivity.
Qed.

Lemma aggregate_with_degenerate_chunk_size_witness :
  aggregate sample_checksum (multicall3 sample_eth_call) (-1)
    (batch_of ["0xa"; "0xb"]) true = [] /\
  aggregate sample_checksum (multicall3 sample_eth_call) 0
    (batch_of ["0xa"; "0xb"]) true = [None; None].
Proof.
  split.
  - apply (proj2 (proj2 (aggregate_with_degenerate_chunk_size sample_checksum
             (multicall3 sample_eth_call) (-1) (batch_of ["0xa"; "0xb"])
             true))).
    lia.
  - apply (proj1 (proj2 (aggregate_with_degenerate_chunk_size sample_checksum
             (multicall3 sample_eth_call) 0 (batch_of ["0xa"; "0xb"])
             true))).
    reflexivity.
Defined.


(** *** Token balances *)

(** [int.from_bytes(data, byteorder='big')] *)
Definition from_bytes (data : bytes) : Z :=
  foldl (fun acc b => acc * 256 + Z.of_N (Byte.to_N b)) 0 data.

(** [int.from_bytes(results[i], byteorder='big') if results[i] else 0] *)
Definition balance_of_result (result : option bytes) : Z :=
  match result with
  | Some [] => 0
  | Some data => from_bytes data
  | None => 0
  end.

(** [{addr: 0 for addr in token_addresses}] *)
Definition zero_balances (token_addresses : list string) : gmap string Z :=
  list_to_map (map (fun addr => (addr, 0)) token_addresses).

(** The decoding loop of [get_token_balances_batch], from index [i];
    [None] when [results[i]] raises [IndexError]. *)
Fixpoint collect_balances (token_addresses : list string)
    (results : list (option bytes)) (i : nat) (balances : gmap string Z)
  : option (gmap string Z) :=
  match token_addresses with
  | [] => Some balances
  | token_addr :: rest =>
      match results !! i with
      | None => None
      | Some result =>
          collect_balances rest results (S i)
            (<[token_addr := balance_of_result result]> balances)
      end
  end.

Section with_tokens.
Variable to_checksum_address : string -> option string.
Variable aggregate3 : list Call3 -> option (list (bool * bytes)).
(** [Web3.keccak(text='balanceOf(address)')[:4]] and
    [encode(['address'], [a])]. *)
Variable balance_of_sig : bytes.
Variable encode_address : string -> bytes.

(** The loop building [calls]; the holder address is checksummed in every
    iteration, which raises ([None]) when it is not an address. *)
Definition balance_calls (token_addresses : list string)
    (holder_address : string) : option (list call) :=
  match token_addresses with
  | [] => Some []
  | _ =>
      match to_checksum_address holder_address with
      | None => None
      | Some holder =>
          Some (map (fun token_addr =>
                       mkCall token_addr
                              (balance_of_sig ++ encode_address holder))
                    token_addresses)
      end
  end.

(** [get_token_balances_batch] *)
Definition get_token_balances_batch (chunk_size : Z)
    (token_addresses : list string) (holder_address : string)
  : gmap string Z :=
  match balance_calls token_addresses holder_address with
  | None => zero_balances token_addresses
  | Some calls =>
      let results :=
        aggregate to_checksum_address aggregate3 chunk_size calls true in
      match collect_balances token_addresses results 0 ∅ with
      | Some balances => balances
      | None => zero_balances token_addresses
      end
  end.
End with_tokens.

Lemma zero_balances_lookup (token_addresses : list string) (a : string) :
  zero_balances token_addresses !! a
  = if decide (a ∈ token_addresses) then Some 0 else None.
Proof.
  unfold zero_balances. induction token_addresses as [|t ts IH]; cbn [map].
  - rewrite list_to_map_nil, lookup_empty. rewrite decide_False; [reflexivity|].
    apply not_elem_of_nil.
  - rewrite list_to_map_cons. destruct (decide (t = a)) as [->|Hne].
    + rewrite lookup_insert_eq, decide_True; [reflexivity|].
      apply elem_of_cons. auto.
    + rewrite lookup_insert_ne, IH by assumption.
      destruct (decide (a ∈ ts)) as [Hin|Hin].
      * rewrite decide_True; [reflexivity|]. apply elem_of_cons. auto.
      * rewrite decide_False; [reflexivity|].
        rewrite elem_of_cons. intros [->|H]; auto.
Qed.

Lemma collect_balances_keys token_addresses results i balances balances' :
  collect_balances token_addresses results i balances = Some balances' ->
  forall a, is_Some (balances' !! a) <->
            a ∈ token_addresses \/ is_Some (balances !! a).
Proof.
  revert i balances. induction token_addresses as [|t ts IH];
    intros i balances; simpl.
  - intros [= <-] a. rewrite elem_of_nil. tauto.
  - destruct (results !! i) as [r|]; [|discriminate].
    intros H a. rewrite (IH _ _ H a), elem_of_cons.
    destruct (decide (t = a)) as [->|Hne].
    + rewrite lookup_insert_eq. split; [auto|]. intros _. right. eauto.
    + rewrite lookup_insert_ne by assumption. split; intros [H1|H1]; auto.
      destruct H1 as [->|H1]; [congruence|auto].
Qed.

Lemma collect_balances_values (f : string -> Z) token_addresses results i
    balances :
  (forall k t, token_addresses !! k = Some t ->
     exists r, results !! (i + k)%nat = Some r /\ balance_of_result r = f t) ->
  exists balances',
    collect_balances token_addresses results i balances = Some balances' /\
    forall a, balances' !! a
              = if decide (a ∈ token_addresses) then Some (f a)
                else balances !! a.
Proof.
  revert i balances. induction token_addresses as [|t ts IH];
    intros i balances Hres; cbn [collect_balances].
  - exists balances. split; [reflexivity|]. intros a.
    rewrite decide_False; [reflexivity|]. apply not_elem_of_nil.
  - destruct (Hres 0%nat t eq_refl) as (r & Hr & Hf).
    rewrite Nat.add_0_r in Hr. rewrite Hr.
    destruct (IH (S i) (<[t := balance_of_result r]> balances))
      as (b' & Hb & Hl).
    { intros k t' Hk. destruct (Hres (S k) t' Hk) as (r' & Hr' & Hf').
      exists r'. split; [|assumption]. rewrite <- Hr'. f_equal. lia. }
    exists b'. split; [assumption|]. intros a. rewrite Hl.
    destruct (decide (a ∈ ts)) as [Hin|Hin].
    + rewrite decide_True; [reflexivity|]. apply elem_of_cons. auto.
    + destruct (decide (t = a)) as [->|Hne].
      * rewrite lookup_insert_eq, Hf, decide_True; [reflexivity|].
        apply elem_of_cons. auto.
      * rewrite lookup_insert_ne by assumption.
        rewrite decide_False; [reflexivity|].
        rewrite elem_of_cons. intros [->|H]; auto.
Qed.

(** [get_token_balances_batch] always answers with one entry per requested
    token address, whatever fails.  With a positive chunk size, a valid
    holder and token addresses that are all valid, the balance reported for a
    token is the big-endian value of the data returned by its [balanceOf]
    call, and 0 when that call fails or returns nothing; when the holder is
    not an address, every balance is reported as 0. *)
Theorem get_token_balances_batch_reports_every_token
    (to_checksum_address : string -> option string)
    (balance_of_sig : bytes) (encode_address : string -> bytes)
    (chunk_size : Z) (token_addresses : list string)
    (holder_address : string) :
  (forall aggregate3 a,
     is_Some (get_token_balances_batch to_checksum_address aggregate3
                balance_of_sig encode_address chunk_size token_addresses
                holder_address !! a)
     <-> a ∈ token_addresses) /\
  (forall eth_call holder,
     0 < chunk_size ->
     to_checksum_address holder_address = Some holder ->
     Forall (fun t => is_Some (to_checksum_address t)) token_addresses ->
     forall a, a ∈ token_addresses ->
       get_token_balances_batch to_checksum_address (multicall3 eth_call)
         balance_of_sig encode_address chunk_size token_addresses
         holder_address !! a
       = Some (balance_of_result
                 (entry_result to_checksum_address eth_call
                    (mkCall a (balance_of_sig ++ encode_address holder))))) /\
  (forall aggregate3,
     token_addresses <> [] ->
     to_checksum_address holder_address = None ->
     get_token_balances_batch to_checksum_address aggregate3 balance_of_sig
       encode_address chunk_size token_addresses holder_address
     = zero_balances token_addresses).
Proof.
  split; [|split].
  - intros aggregate3 a. unfold get_token_balances_batch.
    assert (Hz : is_Some (zero_balances token_addresses !! a)
                 <-> a ∈ token_addresses).
    { rewrite zero_balances_lookup.
      destruct (decide (a ∈ token_addresses)); split; auto.
      - intros [x Hx]. discriminate.
      - contradiction. }
    destruct (balance_calls _ _ _ _ _) as [calls|]; [|exact Hz].
    destruct (collect_balances _ _ _ _) as [b|] eqn:Ec; [|exact Hz].
    rewrite (collect_balances_keys _ _ _ _ _ Ec a), lookup_empty.
    split; [intros [H|[x Hx]]; [assumption|discriminate]|auto].
  - intros eth_call holder Hsize Hholder Hvalid a Ha.
    unfold get_token_balances_batch, balance_calls. rewrite Hholder.
    set (mk := fun t => mkCall t (balance_of_sig ++ encode_address holder)).
    set (f := fun t => balance_of_result
                         (entry_result to_checksum_address eth_call (mk t))).
    assert (Hagg :
      aggregate to_checksum_address (multicall3 eth_call) chunk_size
        (map mk token_addresses) true
      = map (entry_result to_checksum_address eth_call)
            (map mk token_addresses)).
    { apply aggregate_entry_results; [assumption|].
      apply Forall_map. exact Hvalid. }
    destruct token_addresses as [|t0 ts0] eqn:Et;
      [apply elem_of_nil in Ha; destruct Ha|].
    rewrite <- Et in *. rewrite Hagg.
    destruct (collect_balances_values f token_addresses
                (map (entry_result to_checksum_address eth_call)
                     (map mk token_addresses)) 0 ∅) as (b & Hb & Hl).
    { intros k t Hk. simpl. rewrite !list_lookup_fmap, Hk. simpl.
      eexists. split; reflexivity. }
    rewrite Hb, Hl, decide_True by assumption. reflexivity.
  - intros aggregate3 Hne Hholder.
    unfold get_token_balances_batch, balance_calls. rewrite Hholder.
    destruct token_addresses; [contradiction|reflexivity].
Qed.

Lemma get_token_balances_batch_reports_every_token_witness :
  get_token_balances_batch sample_checksum (multicall3 sample_eth_call)
    [Byte.x70] (fun _ => []) 2 ["0xa"; "0xbad"; "0xc"] "0xholder" !! "0xbad"
  = Some 0 /\
  get_token_balances_batch sample_checksum (multicall3 sample_eth_call)
    [Byte.x70] (fun _ => []) 2 ["0xa"; "0xbad"; "0xc"] "0xholder" !! "0xc"
  = Some 1.
Proof.
  destruct (get_token_balances_batch_reports_every_token sample_checksum
              [Byte.x70] (fun _ => []) 2 ["0xa"; "0xbad"; "0xc"] "0xholder")
    as (_ & H & _).
  assert (Hv : Forall (fun t => is_Some (sample_checksum t))
                      ["0xa"; "0xbad"; "0xc"])
    by (repeat constructor; vm_compute; eauto).
  split.
  - rewrite (H sample_eth_call "0xholder" ltac:(lia) eq_refl Hv "0xbad");
      [reflexivity|].
    rewrite !elem_of_cons. auto.
  - rewrite (H sample_eth_call "0xholder" ltac:(lia) eq_refl Hv "0xc");
      [reflexivity|].
    rewrite !elem_of_cons. auto.
Defined.

End Multicall.

(** ** ml/tip_optimizer.py *)

Module TipOptimizer.

(** [opportunity['data']]: only [.get('victim_gas_price_gwei', 50)] is read. *)
Record data := mkData {
  victim_gas_price_gwei : option Q
}.

(** The keys of the opportunity dict read by the optimizer; [None] is a
    missing key, whose subscript raises [KeyError]. *)
Record opportunity := mkOpportunity {
  expected_profit_usd : option Q;
  strategy : option string;
  opp_data : option data
}.

(** The optimizer: the tip constraints of [config['mev_boost']], the length
    of [self.tip_history], and the regression model ([self.model] is never
    [None] after [__init__]); [predict profit code] is
    [self.model.predict([[profit, code]])[0]], [None] when it raises. *)
Record optimizer := mkOptimizer {
  min_tip_gwei : Q;
  max_tip_gwei : Q;
  tip_history_len : nat;
  predict : Q -> Z -> option Q
}.

(** [strategy_map] of [_ml_predict_tip]. *)
Definition strategy_map : gmap string Z :=
  <["direct_arbitrage" := 1]>
  (<["triangular_arbitrage" := 2]>
  (<["flashloan_arbitrage" := 3]>
  (<["liquidation_arbitrage" := 4]>
  (<["sandwich_attack" := 5]> ∅)))).

(** [_ml_predict_tip] *)
Definition _ml_predict_tip (o : optimizer) (profit : Q) (strat : string) : Q :=
  let strategy_encoded := default 0 (strategy_map !! strat) in
  match predict o profit strategy_encoded with
  | Some predicted_tip => PyNum.py_max 0 predicted_tip
  | None => 0
  end.

(** The float literals [0.10], [0.0000008], [0.6] and [0.4]: the doubles
    nearest to them.  The literals [1.125], [1.5], [2.0] and [1e9] are
    doubles. *)
Definition lit_0_10 : Q := Float64.of_Q (1 # 10).
Definition lit_0_0000008 : Q := Float64.of_Q (8 # 10000000).
Definition lit_0_6 : Q := Float64.of_Q (6 # 10).
Definition lit_0_4 : Q := Float64.of_Q (4 # 10).

(** [(expected_profit_usd * 0.10) / 0.0000008]: a float product and a float
    quotient. *)
Definition max_acceptable_tip_gwei (profit : Q) : Q :=
  Float64.div (Float64.mul profit lit_0_10) lit_0_0000008.

(** [int(x * 1e9)]: a float product, truncated. *)
Definition to_wei (gwei : Q) : Z :=
  PyNum.py_int (Float64.mul gwei 1000000000).

(** The body of the [try] block of [calculate_optimal_tip] up to the
    constrained tip in gwei; [None] when it raises.  Every product and sum
    is a float operation; [max], [min] and the comparisons are exact. *)
Definition optimal_tip_gwei (o : optimizer) (opp : opportunity) : option Q :=
  match expected_profit_usd opp, strategy opp with
  | Some profit, Some strat =>
      let base_tip_gwei := min_tip_gwei o in
      let optimal := base_tip_gwei in
      let after_sandwich :=
        if String.eqb strat "sandwich_attack" then
          match opp_data opp with
          | None => None
          | Some d =>
              let victim_gas_gwei := default 50%Q (victim_gas_price_gwei d) in
              Some (PyNum.py_max optimal
                                 (Float64.mul victim_gas_gwei (1125 # 1000)))
          end
        else Some optimal in
      match after_sandwich with
      | None => None
      | Some optimal =>
          let optimal : Q :=
            if PyNum.gtb profit 50 then Float64.mul optimal (15 # 10)
            else if PyNum.gtb profit 100 then Float64.mul optimal 2
            else optimal in
          let optimal : Q :=
            if (10 <? tip_history_len o)%nat then
              let ml_tip_gwei := _ml_predict_tip o profit strat in
              if PyNum.gtb ml_tip_gwei 0
              then Float64.add (Float64.mul optimal lit_0_6)
                               (Float64.mul ml_tip_gwei lit_0_4)
              else optimal
            else optimal in
          let optimal :=
            PyNum.py_max (min_tip_gwei o)
                         (PyNum.py_min optimal (max_tip_gwei o)) in
          Some (PyNum.py_min optimal (max_acceptable_tip_gwei profit))
      end
  | _, _ => None
  end.

(** [calculate_optimal_tip]: the tip in wei. *)
Definition calculate_optimal_tip (o : optimizer) (opp : opportunity) : Z :=
  match optimal_tip_gwei o opp with
  | Some optimal => to_wei optimal
  | None => to_wei (min_tip_gwei o)
  end.


(** *** Bounds on the returned tip *)


Lemma optimal_tip_gwei_raises (o : optimizer) (opp : opportunity) :
  optimal_tip_gwei o opp = None <->
  expected_profit_usd opp = None \/ strategy opp = None \/
  (strategy opp = Some "sandwich_attack" /\ opp_data opp = None).
Proof.
  unfold optimal_tip_gwei.
  destruct (expected_profit_usd opp) as [profit|]; [|intuition].
  destruct (strategy opp) as [strat|]; [|intuition].
  destruct (String.eqb_spec strat "sandwich_attack") as [->|Hne].
  - destruct (opp_data opp); split; try discriminate; auto.
    intros [H|[H|[_ H]]]; discriminate.
  - split; [discriminate|].
    intros [H|[H|[H _]]]; try discriminate. congruence.
Qed.

(** The conversion to wei is monotone, rounding included. *)
Lemma to_wei_monotone (a b : Q) : (a <= b)%Q -> to_wei a <= to_wei b.
Proof.
  intros Hab. unfold to_wei. apply PyNum.py_int_monotone.
  cbn [Float64.mul Float64.of_Q Float64.fval]. apply Float64.round_monotone.
  apply Qmult_le_compat_r; [assumption|discriminate].
Qed.

(** The model computes what the doubles give: a cap that rounds up to 37.5
    gwei for a profit of [0.0003], and [int(0.3 * 1e9)]. *)
Example max_acceptable_tip_gwei_rounds :
  to_wei (max_acceptable_tip_gwei (Float64.of_Q (3 # 10000))) = 37500000000 /\
  to_wei (Float64.of_Q (3 # 10)) = 300000000.
Proof. vm_compute. split; reflexivity. Qed.



Definition sample_optimizer : optimizer :=
  mkOptimizer 30 500 0 (fun _ _ => None).

Definition sample_sandwich : opportunity :=
  mkOpportunity (Some 60%Q) (Some "sandwich_attack")
                (Some (mkData (Some 80%Q))).

Example sample_sandwich_tip :
  calculate_optimal_tip sample_optimizer sample_sandwich = 135000000000.
Proof. vm_compute. reflexivity. Qed.



(** *** Profit bands, the learned adjustment and the sandwich margin *)

Lemma gtb_true (a b : Q) : (b < a)%Q -> PyNum.gtb a b = true.
Proof.
  intros H. pose proof (PyNum.gtb_spec a b) as S.
  destruct (PyNum.gtb a b); [reflexivity|].
  exfalso. apply (Qlt_not_le _ _ H S).
Qed.

Lemma gtb_false (a b : Q) : (a <= b)%Q -> PyNum.gtb a b = false.
Proof.
  intros H. pose proof (PyNum.gtb_spec a b) as S.
  destruct (PyNum.gtb a b); [|reflexivity].
  exfalso. apply (Qlt_not_le _ _ S H).
Qed.

Lemma py_max_ge_r (a b : Q) : (b <= PyNum.py_max a b)%Q.
Proof.
  unfold PyNum.py_max. pose proof (PyNum.gtb_spec b a) as H.
  destruct (PyNum.gtb b a); [apply Qle_refl|assumption].
Qed.

(** The constraints applied at the end of [calculate_optimal_tip]. *)
Definition constrain (o : optimizer) (profit optimal : Q) : Q :=
  PyNum.py_min
    (PyNum.py_max (min_tip_gwei o) (PyNum.py_min optimal (max_tip_gwei o)))
    (max_acceptable_tip_gwei profit).

(** The profit bands as the code applies them.  For an opportunity that is
    not a sandwich, with at most ten recorded outcomes, the tip before the
    constraints is the minimum tip for a profit up to $50 and 1.5 times the
    minimum tip (a float product) for every profit above $50: profits above
    $100 get the factor 1.5 as well, the branch with the factor 2.0 is never
    taken. *)
Theorem profit_above_100_is_scaled_by_one_and_a_half
    (o : optimizer) (profit : Q) (strat : string) (d : option data) :
  strat <> "sandwich_attack" ->
  (tip_history_len o <= 10)%nat ->
  let opp := mkOpportunity (Some profit) (Some strat) d in
  ((profit <= 50)%Q ->
   optimal_tip_gwei o opp = Some (constrain o profit (min_tip_gwei o))) /\
  ((50 < profit)%Q ->
   optimal_tip_gwei o opp
   = Some (constrain o profit (Float64.mul (min_tip_gwei o) (15 # 10)))) /\
  ((100 < profit)%Q ->
   calculate_optimal_tip o opp
   = to_wei (constrain o profit (Float64.mul (min_tip_gwei o) (15 # 10)))).
Proof.
  intros Hs Hh opp.
  assert (E : String.eqb strat "sandwich_attack" = false)
    by (apply String.eqb_neq; assumption).
  assert (Hl : (10 <? tip_history_len o)%nat = false)
    by (apply Nat.ltb_ge; assumption).
  assert (H50 : (50 < profit)%Q ->
    optimal_tip_gwei o opp
    = Some (constrain o profit (Float64.mul (min_tip_gwei o) (15 # 10)))).
  { intros Hp. unfold optimal_tip_gwei, opp. cbn [expected_profit_usd strategy].
    rewrite E, Hl, (gtb_true profit 50 Hp). reflexivity. }
  split; [|split].
  - intros Hp. unfold optimal_tip_gwei, opp. cbn [expected_profit_usd strategy].
    rewrite E, Hl, (gtb_false profit 50 Hp).
    rewrite (gtb_false profit 100) by lra. reflexivity.
  - exact H50.
  - intros Hp. unfold calculate_optimal_tip. rewrite H50 by lra. reflexivity.
Qed.

(** With a minimum tip of 0.011 gwei and a profit of $60 the tip is
    [int(0.011 * 1.5 * 1e9)] as the doubles give it. *)
Example tip_for_a_small_minimum_tip :
  calculate_optimal_tip
    (mkOptimizer (Float64.of_Q (11 # 1000)) 500 0 (fun _ _ => None))
    (mkOpportunity (Some 60%Q) (Some "direct_arbitrage") None) = 16500000.
Proof. vm_compute. reflexivity. Qed.

Lemma profit_above_100_is_scaled_by_one_and_a_half_witness :
  calculate_optimal_tip (mkOptimizer 30 500 0 (fun _ _ => None))
    (mkOpportunity (Some 150%Q) (Some "direct_arbitrage") None)
  = to_wei (constrain (mkOptimizer 30 500 0 (fun _ _ => None)) 150
              (Float64.mul 30 (15 # 10))).
Proof.
  apply (proj2 (proj2 (profit_above_100_is_scaled_by_one_and_a_half
           (mkOptimizer 30 500 0 (fun _ _ => None)) 150 "direct_arbitrage"
           None ltac:(discriminate) ltac:(simpl; lia))) ).
  reflexivity.
Defined.

Lemma _ml_predict_tip_not_positive (o : optimizer) (profit : Q)
    (strat : string) :
  (forall p c v, predict o p c = Some v -> (v <= 0)%Q) ->
  PyNum.gtb (_ml_predict_tip o profit strat) 0 = false.
Proof.
  intros Hp. unfold _ml_predict_tip.
  destruct (predict o profit _) as [v|] eqn:E; [|reflexivity].
  unfold PyNum.py_max. rewrite (gtb_false v 0 (Hp _ _ _ E)). reflexivity.
Qed.

(** The learned adjustment is optional.  With at most ten recorded outcomes
    the model is not consulted at all, and with more of them a prediction
    that raises or is not positive is ignored: in both cases the tip is the
    rule-based tip, the same as for an optimizer without any history. *)
Theorem tip_ignores_missing_or_non_positive_prediction
    (o : optimizer) (opp : opportunity) :
  ((tip_history_len o <= 10)%nat ->
   forall predict',
     calculate_optimal_tip o opp
     = calculate_optimal_tip
         (mkOptimizer (min_tip_gwei o) (max_tip_gwei o) (tip_history_len o)
                      predict') opp) /\
  ((forall p c v, predict o p c = Some v -> (v <= 0)%Q) ->
   calculate_optimal_tip o opp
   = calculate_optimal_tip
       (mkOptimizer (min_tip_gwei o) (max_tip_gwei o) 0 (predict o)) opp).
Proof.
  split.
  - intros Hh predict'. unfold calculate_optimal_tip, optimal_tip_gwei.
    cbn [min_tip_gwei max_tip_gwei tip_history_len].
    assert (Hl : (10 <? tip_history_len o)%nat = false)
      by (apply Nat.ltb_ge; assumption).
    rewrite Hl. reflexivity.
  - intros Hp. unfold calculate_optimal_tip, optimal_tip_gwei.
    cbn [min_tip_gwei max_tip_gwei tip_history_len].
    destruct (expected_profit_usd opp) as [profit|]; [|reflexivity].
    destruct (strategy opp) as [strat|]; [|reflexivity].
    rewrite (_ml_predict_tip_not_positive o profit strat Hp).
    change (10 <? 0)%nat with false.
    destruct (10 <? tip_history_len o)%nat; reflexivity.
Qed.

Lemma tip_ignores_missing_or_non_positive_prediction_witness :
  calculate_optimal_tip (mkOptimizer 30 500 40 (fun _ _ => Some (-3)%Q))
    sample_sandwich
  = calculate_optimal_tip (mkOptimizer 30 500 0 (fun _ _ => Some (-3)%Q))
      sample_sandwich.
Proof.
  apply (proj2 (tip_ignores_missing_or_non_positive_prediction
                  (mkOptimizer 30 500 40 (fun _ _ => Some (-3)%Q))
                  sample_sandwich)).
  intros p c v [= <-]. discriminate.
Defined.

(** The sandwich margin.  For a sandwich opportunity with at most ten
    recorded outcomes, the tip in gwei is at least the float product of 1.125
    and the victim's gas price (50 gwei when the opportunity does not give
    one), provided that this amount exceeds neither the maximum tip nor the
    profit cap; the tip in wei is at least that amount in wei. *)
Theorem sandwich_tip_beats_victim_gas_price
    (o : optimizer) (profit : Q) (d : data) :
  (tip_history_len o <= 10)%nat ->
  let victim := default 50%Q (victim_gas_price_gwei d) in
  let margin : Q := Float64.mul victim (1125 # 1000) in
  (0 <= victim)%Q ->
  (margin <= max_tip_gwei o)%Q ->
  (margin <= max_acceptable_tip_gwei profit)%Q ->
  exists tip,
    optimal_tip_gwei o (mkOpportunity (Some profit) (Some "sandwich_attack")
                          (Some d)) = Some tip /\
    (margin <= tip)%Q /\
    to_wei margin
    <= calculate_optimal_tip o
         (mkOpportunity (Some profit) (Some "sandwich_attack") (Some d)).
Proof.
  intros Hh victim margin Hv Hmax Hcap.
  assert (Hl : (10 <? tip_history_len o)%nat = false)
    by (apply Nat.ltb_ge; assumption).
  set (m := Float64.mul victim (1125 # 1000)) in *.
  change margin with (Float64.fval m) in *. clear margin.
  set (base := PyNum.py_max (min_tip_gwei o) m).
  assert (Hbase : (m <= base)%Q).
  { unfold base, PyNum.py_max. pose proof (PyNum.gtb_spec m (min_tip_gwei o)).
    destruct (PyNum.gtb m (min_tip_gwei o)); [apply Qle_refl|assumption]. }
  assert (Hm0 : (0 <= m)%Q).
  { unfold m. cbn [Float64.mul Float64.of_Q Float64.fval].
    apply (Float64.round_ge_float Float64.zero). simpl. lra. }
  assert (Hscaled : forall c, (1 <= c)%Q -> (m <= Float64.mul base c)%Q).
  { intros c Hc. cbn [Float64.mul Float64.of_Q Float64.fval].
    apply Float64.round_ge_float.
    assert (Hb0 : (0 <= base)%Q) by lra.
    assert (Hbc : (base * 1 <= base * c)%Q).
    { rewrite !(Qmult_comm base). apply Qmult_le_compat_r; assumption. }
    lra. }
  assert (Hclamp : forall x, (m <= x)%Q -> (m <= constrain o profit x)%Q).
  { intros x Hx. unfold constrain.
    apply PyNum.py_min_glb; [|assumption].
    eapply Qle_trans; [|apply py_max_ge_r].
    apply PyNum.py_min_glb; assumption. }
  assert (Hopt : exists tip,
    optimal_tip_gwei o (mkOpportunity (Some profit) (Some "sandwich_attack")
                          (Some d)) = Some tip /\ (m <= tip)%Q).
  { unfold optimal_tip_gwei.
    cbn [expected_profit_usd strategy opp_data String.eqb Ascii.eqb Bool.eqb].
    rewrite Hl. fold victim. fold m. fold base.
    destruct (PyNum.gtb profit 50).
    - eexists. split; [reflexivity|]. apply Hclamp, Hscaled. discriminate.
    - destruct (PyNum.gtb profit 100); eexists; (split; [reflexivity|]);
        apply Hclamp; [apply Hscaled; discriminate|assumption]. }
  destruct Hopt as (tip & Ht & Hle). exists tip.
  split; [assumption|]. split; [assumption|].
  unfold calculate_optimal_tip. rewrite Ht. apply to_wei_monotone. assumption.
Qed.

(** For a victim gas price of 0.447 gwei and a profit of $10 the bound is
    attained: 502874999 wei, one wei below the exact 1.125 * 0.447 gwei. *)
Example sandwich_tip_for_a_cheap_victim :
  let victim : Q := Float64.of_Q (447 # 1000) in
  calculate_optimal_tip (mkOptimizer (Float64.of_Q (1 # 10)) 500 0
                           (fun _ _ => None))
    (mkOpportunity (Some 10%Q) (Some "sandwich_attack")
                   (Some (mkData (Some victim)))) = 502874999 /\
  to_wei (Float64.mul victim (1125 # 1000)) = 502874999 /\
  PyNum.py_int (victim * (1125 # 1000) * 1000000000) = 502875000.
Proof. vm_compute. repeat split; reflexivity. Qed.

Lemma sandwich_tip_beats_victim_gas_price_witness :
  exists tip,
    optimal_tip_gwei sample_optimizer sample_sandwich = Some tip /\
    (Float64.mul 80 (1125 # 1000) <= tip)%Q /\
    to_wei (Float64.mul 80 (1125 # 1000))
    <= calculate_optimal_tip sample_optimizer sample_sandwich.
Proof.
  apply (sandwich_tip_beats_victim_gas_price sample_optimizer 60
           (mkData (Some 80%Q))).
  - simpl. lia.
  - vm_compute. discriminate.
  - vm_compute. discriminate.
  - vm_compute. discriminate.
Defined.

(** *** The outcome history *)

(** [self.max_history = 100] *)
Definition max_history : nat := 100.

(** The entry appended by [record_tip_outcome]. *)
Definition outcome (tip_gwei : Q) (success : bool) : Q * Z :=
  (tip_gwei, if success then 1 else 0).

(** [record_tip_outcome] on [self.tip_history]: the new history, and whether
    [_retrain_model] is called. *)
Definition record_tip_outcome (tip_gwei : Q) (success : bool)
    (tip_history : list (Q * Z)) : list (Q * Z) * bool :=
  let appended := tip_history ++ [outcome tip_gwei success] in
  let tip_history :=
    if (max_history <? length appended)%nat then drop 1 appended
    else appended in
  (tip_history,
   (50 <=? length tip_history)%nat && (length tip_history mod 20 =? 0)%nat).

Definition record_tip_outcomes (outcomes : list (Q * bool))
    (tip_history : list (Q * Z)) : list (Q * Z) :=
  foldl (fun h o => fst (record_tip_outcome (fst o) (snd o) h))
        tip_history outcomes.

Lemma record_tip_outcome_history (tip_gwei : Q) (success : bool)
    (h : list (Q * Z)) :
  (length h <= 100)%nat ->
  fst (record_tip_outcome tip_gwei success h)
  = drop (length h + 1 - 100) (h ++ [outcome tip_gwei success]) /\
  length (fst (record_tip_outcome tip_gwei success h))
  = Nat.min 100 (length h + 1).
Proof.
  intros Hlen. unfold record_tip_outcome, max_history. cbn [fst].
  rewrite length_app. cbn [length].
  destruct (100 <? length h + 1)%nat eqn:E.
  - apply Nat.ltb_lt in E.
    replace (length h + 1 - 100)%nat with 1%nat by lia.
    split; [reflexivity|]. rewrite length_drop, length_app. cbn [length]. lia.
  - apply Nat.ltb_ge in E.
    replace (length h + 1 - 100)%nat with 0%nat by lia.
    split; [reflexivity|]. rewrite length_app. cbn [length]. lia.
Qed.

(** The outcome history is a sliding window.  Starting from a history of at
    most 100 entries, after any number of recorded outcomes the history
    holds the most recent 100 entries in the order they were recorded, never
    more.  Once the history is full every further outcome triggers a
    retraining of the model, and below 49 entries none does. *)
Theorem tip_history_keeps_the_last_hundred (h : list (Q * Z)) :
  (length h <= 100)%nat ->
  (forall outcomes,
     let all := h ++ map (fun o => outcome (fst o) (snd o)) outcomes in
     record_tip_outcomes outcomes h = drop (length all - 100) all /\
     (length (record_tip_outcomes outcomes h) <= 100)%nat) /\
  (forall tip_gwei success,
     length h = 100%nat ->
     snd (record_tip_outcome tip_gwei success h) = true) /\
  (forall tip_gwei success,
     (length h < 49)%nat ->
     snd (record_tip_outcome tip_gwei success h) = false).
Proof.
  intros Hlen. split; [|split].
  - intros outcomes. revert h Hlen.
    induction outcomes as [|[t s] outs IH]; intros h Hlen all.
    + unfold all. simpl. rewrite app_nil_r.
      replace (length h - 100)%nat with 0%nat by lia. auto.
    + destruct (record_tip_outcome_history t s h Hlen) as [E1 E2].
      cbn [record_tip_outcomes foldl fst snd].
      fold (record_tip_outcomes outs (fst (record_tip_outcome t s h))).
      destruct (IH (fst (record_tip_outcome t s h))) as [I1 I2]; [lia|].
      split; [|exact I2].
      rewrite I1, length_app, E2, E1. unfold all.
      rewrite !length_app, length_map. cbn [map length fst snd].
      set (rest := map (fun o => outcome (fst o) (snd o)) outs).
      set (a := (length h + 1 - 100)%nat).
      rewrite <- (drop_app_le (h ++ [outcome t s]) rest a)
        by (rewrite length_app; simpl; lia).
      rewrite drop_drop, <- app_assoc. cbn [app].
      f_equal. unfold rest. rewrite length_map. lia.
  - intros t s H100. unfold record_tip_outcome, max_history. cbn [snd].
    rewrite length_app, H100. cbn [length Nat.add Nat.ltb Nat.leb].
    rewrite length_drop, length_app, H100. reflexivity.
  - intros t s Hlt. unfold record_tip_outcome, max_history. cbn [snd].
    rewrite length_app. cbn [length].
    destruct (100 <? length h + 1)%nat eqn:E;
      [apply Nat.ltb_lt in E; lia|].
    rewrite length_app. cbn [length].
    destruct (50 <=? length h + 1)%nat eqn:E5; [|reflexivity].
    apply Nat.leb_le in E5. lia.
Qed.

Lemma tip_history_keeps_the_last_hundred_witness :
  record_tip_outcomes [(41%Q, true); (42%Q, false)] [(40%Q, 1)]
  = drop (length ([(40%Q, 1)] ++ [outcome 41 true; outcome 42 false]) - 100)
         ([(40%Q, 1)] ++ [outcome 41 true; outcome 42 false]) /\
  snd (record_tip_outcome 41 true [(40%Q, 1)]) = false.
Proof.
  assert (Hlen : (length [(40%Q, 1)] <= 100)%nat) by (simpl; lia).
  destruct (tip_history_keeps_the_last_hundred [(40%Q, 1)] Hlen)
    as (Hwin & _ & Hlow).
  split.
  - apply (Hwin [(41%Q, true); (42%Q, false)]).
  - apply Hlow. simpl. lia.
Defined.

End TipOptimizer.

(** ** utils/data_cache.py *)

Module DataCache.

(** A row of the [cache] table ([key] is the primary key). *)
Record row := mkRow {
  value : string;
  timestamp : Q;
  ttl : Z
}.

(** The cache: [self.conn] is [None] when [_init_db] failed, otherwise it
    gives access to the table. *)
Record state := mkState {
  conn : option (gmap string row)
}.

(** [delete]: an error (no connection) is logged and swallowed. *)
Definition delete (key : string) (st : state) : state :=
  match conn st with
  | Some table => mkState (Some (base.delete key table))
  | None => st
  end.

(** An [int] bound to the [INTEGER] column must fit in 64 bits; for any other
    [int] the [sqlite3] module raises [OverflowError]. *)
Definition sqlite_integer (n : Z) : bool :=
  (- 2 ^ 63 <=? n) && (n <? 2 ^ 63).

Section with_json.
(** The cached values, with [json.dumps] and [json.loads]; [None] when
    they raise. *)
Variable V : Type.
Variable dumps : V -> option string.
Variable loads : string -> option V.

(** [set(key, value, ttl)] at clock value [now]: every error (a value that
    [json.dumps] rejects, no connection, a [ttl] that does not fit the
    [INTEGER] column) is logged and swallowed, leaving the table as it
    was. *)
Definition set (key : string) (v : V) (ttl : Z) (now : Q) (st : state)
  : state :=
  match dumps v with
  | None => st
  | Some value_json =>
      match conn st with
      | None => st
      | Some table =>
          if sqlite_integer ttl
          then mkState (Some (<[key := mkRow value_json now ttl]> table))
          else st
      end
  end.

(** [get(key)] at clock value [now]: the returned value ([None] for
    Python's [None]) and the cache left behind. *)
Definition get (key : string) (now : Q) (st : state) : option V * state :=
  match conn st with
  | None => (None, st)
  | Some table =>
      match table !! key with
      | None => (None, st)
      | Some r =>
          let age := (now - timestamp r)%Q in
          if PyNum.gtb age (inject_Z (ttl r)) then (None, delete key st)
          else
            match loads (value r) with
            | Some v => (Some v, st)
            | None => (None, st)
            end
      end
  end.

End with_json.

Definition stored (key : string) (st : state) : option row :=
  match conn st with
  | Some table => table !! key
  | None => None
  end.

(** *** Time to live *)








(** *** Overwriting, other keys and eviction *)

(** [set] replaces the whole row or does nothing.  Storing a second value
    under the same key, with a time-to-live that fits a 64-bit integer,
    leaves exactly the row of the second call, with its own timestamp and
    time-to-live, as if the first call had not happened; a value that cannot
    be serialised, or a time-to-live beyond 64 bits, leaves the cache, and so
    the older entry, untouched. *)
Theorem set_replaces_the_row_or_does_nothing
    (V : Type) (dumps : V -> option string)
    (key : string) (v1 v2 : V) (ttl1 ttl2 : Z) (t1 t2 : Q) (st : state) :
  (forall value_json table,
     conn st = Some table -> dumps v2 = Some value_json ->
     sqlite_integer ttl2 = true ->
     set V dumps key v2 ttl2 t2 (set V dumps key v1 ttl1 t1 st)
     = set V dumps key v2 ttl2 t2 st /\
     stored key (set V dumps key v2 ttl2 t2 (set V dumps key v1 ttl1 t1 st))
     = Some (mkRow value_json t2 ttl2)) /\
  (dumps v2 = None \/ sqlite_integer ttl2 = false ->
   set V dumps key v2 ttl2 t2 (set V dumps key v1 ttl1 t1 st)
   = set V dumps key v1 ttl1 t1 st).
Proof.
  split.
  - intros value_json table Hc Hd Hf. unfold set. rewrite Hd, Hf.
    destruct (dumps v1) as [j1|]; rewrite Hc; cbn [conn].
    + destruct (sqlite_integer ttl1); cbn [conn]; rewrite ?Hc.
      * rewrite insert_insert_eq. split; [reflexivity|].
        unfold stored. cbn [conn]. apply lookup_insert_eq.
      * split; [reflexivity|].
        unfold stored. cbn [conn]. apply lookup_insert_eq.
    + split; [reflexivity|].
      unfold stored. cbn [conn]. apply lookup_insert_eq.
  - intros [Hd|Hf]; unfold set at 1.
    + rewrite Hd. reflexivity.
    + rewrite Hf. destruct (dumps v2); [|reflexivity].
      destruct (conn _); reflexivity.
Qed.

Lemma set_replaces_the_row_or_does_nothing_witness :
  stored "price"
    (set Z (fun n => Some (if n =? 1 then "1" else "2")) "price" 2 60 (20 # 1)
       (set Z (fun n => Some (if n =? 1 then "1" else "2")) "price" 1 5 (10 # 1)
          (mkState (Some ∅))))
  = Some (mkRow "2" (20 # 1) 60).
Proof.
  apply (proj1 (set_replaces_the_row_or_does_nothing Z
           (fun n => Some (if n =? 1 then "1" else "2")) "price" 1 2 5 60
           (10 # 1) (20 # 1) (mkState (Some ∅))) "2" ∅ eq_refl eq_refl eq_refl).
Defined.



Lemma get_result (V : Type) (loads : string -> option V) (key : string)
    (now : Q) (st : state) :
  fst (get V loads key now st)
  = match stored key st with
    | Some r =>
        if PyNum.gtb (now - timestamp r) (inject_Z (ttl r)) then None
        else loads (value r)
    | None => None
    end.
Proof.
  unfold get, stored. destruct (conn st) as [table|]; [|reflexivity].
  destruct (table !! key) as [r|]; [|reflexivity].
  destruct (PyNum.gtb _ _); [reflexivity|].
  destruct (loads (value r)); reflexivity.
Qed.

Lemma get_stored_other (V : Type) (loads : string -> option V)
    (key key' : string) (now : Q) (st : state) :
  key <> key' ->
  stored key' (snd (get V loads key now st)) = stored key' st.
Proof.
  intros Hne. unfold get, stored.
  destruct (conn st) as [table|] eqn:Ec; cbn [snd]; [|rewrite Ec; reflexivity].
  destruct (table !! key) as [r|]; cbn [snd]; [|rewrite Ec; reflexivity].
  destruct (PyNum.gtb _ _); cbn [snd].
  - unfold delete. rewrite Ec. cbn [conn].
    apply lookup_delete_ne. assumption.
  - destruct (loads (value r)); cbn [snd]; rewrite Ec; reflexivity.
Qed.

(** Operations on one key leave the other keys alone: what [get] returns
    for [key'] is the same before and after a [set], a [delete] or a [get]
    (with its lazy removal) on a different key. *)
Theorem operations_on_other_keys_do_not_interfere
    (V : Type) (dumps : V -> option string) (loads : string -> option V)
    (key key' : string) (st : state) :
  key <> key' ->
  forall now,
    (forall v ttl t,
       fst (get V loads key' now (set V dumps key v ttl t st))
       = fst (get V loads key' now st)) /\
    fst (get V loads key' now (delete key st))
    = fst (get V loads key' now st) /\
    (forall t,
       fst (get V loads key' now (snd (get V loads key t st)))
       = fst (get V loads key' now st)).
Proof.
  intros Hne now. split; [|split].
  - intros v ttl t. rewrite !get_result. unfold set, stored.
    destruct (dumps v); [|reflexivity].
    destruct (conn st) as [table|] eqn:Ec; [|rewrite Ec; reflexivity].
    destruct (sqlite_integer ttl); [|rewrite Ec; reflexivity].
    cbn [conn]. rewrite lookup_insert_ne by assumption. reflexivity.
  - rewrite !get_result. unfold delete, stored.
    destruct (conn st) as [table|] eqn:Ec; [|rewrite Ec; reflexivity].
    cbn [conn]. rewrite lookup_delete_ne by assumption. reflexivity.
  - intros t. rewrite !get_result, get_stored_other by assumption.
    reflexivity.
Qed.

Lemma operations_on_other_keys_do_not_interfere_witness :
  fst (get Z (fun _ => Some 42) "price" (10 # 1)
         (delete "pool"
            (set Z (fun _ => Some "42") "price" 42 60 (5 # 1)
               (mkState (Some ∅)))))
  = fst (get Z (fun _ => Some 42) "price" (10 # 1)
           (set Z (fun _ => Some "42") "price" 42 60 (5 # 1)
              (mkState (Some ∅)))).
Proof.
  apply (proj1 (proj2 (operations_on_other_keys_do_not_interfere Z
           (fun _ => Some "42") (fun _ => Some 42) "pool" "price"
           (set Z (fun _ => Some "42") "price" 42 60 (5 # 1) (mkState (Some ∅)))
           ltac:(discriminate) (10 # 1)%Q))).
Defined.



End DataCache.


(** ** bot/bot_engine.py: the pre-execution gate *)

Module BotEngine.

(** [_pre_execution_checks]: the verdict and the kill switch state left by
    [check_daily_loss]; the opportunity is not inspected. *)
Definition _pre_execution_checks (cfg : KillSwitch.config) (now : Q)
    (kill_switch : KillSwitch.state)
    (is_connected : string -> option bool) (rpc : RPCManager.state)
  : bool * KillSwitch.state :=
  let (exceeded, kill_switch') :=
    KillSwitch.check_daily_loss cfg now kill_switch in
  if exceeded then (false, kill_switch')
  else if negb (RPCManager.is_healthy is_connected rpc)
       then (false, kill_switch')
       else (true, kill_switch').

(** The daily-loss gate of the execution path does not depend on the kill
    switch being tripped.  Once a recorded loss has brought the accumulated
    loss of the day to the ceiling, the pre-execution checks fail for the
    rest of that day, also with the automatic kill switch disabled and
    whatever the health of the endpoint; and the verdict of the checks is the
    same for a tripped governor and for the governor after a manual reset. *)
Theorem pre_execution_checks_enforce_the_daily_ceiling
    (cfg : KillSwitch.config) (is_connected : string -> option bool)
    (rpc : RPCManager.state) (kill_switch : KillSwitch.state) :
  (forall now loss_usd later,
     (KillSwitch.max_daily_loss_usd cfg
      <= KillSwitch.daily_loss
           (KillSwitch.record_loss cfg now loss_usd kill_switch))%Q ->
     KillSwitch._get_current_day later
     <= KillSwitch.last_reset_day
          (KillSwitch.record_loss cfg now loss_usd kill_switch) ->
     fst (_pre_execution_checks cfg later
            (KillSwitch.record_loss cfg now loss_usd kill_switch)
            is_connected rpc) = false) /\
  (forall now,
     fst (_pre_execution_checks cfg now (KillSwitch.reset kill_switch)
            is_connected rpc)
     = fst (_pre_execution_checks cfg now kill_switch is_connected rpc)) /\
  (forall now,
     fst (_pre_execution_checks cfg now kill_switch is_connected rpc) = true
     <-> (KillSwitch.daily_loss
            (KillSwitch._reset_daily_counters now kill_switch)
          < KillSwitch.max_daily_loss_usd cfg)%Q /\
         RPCManager.is_healthy is_connected rpc = true).
Proof.
  split; [|split].
  - intros now loss_usd later Hle Hday.
    unfold _pre_execution_checks, KillSwitch.check_daily_loss.
    rewrite KillSwitch.rollover_idle by assumption.
    unfold PyNum.geb. apply Qle_bool_iff in Hle. rewrite Hle. reflexivity.
  - intros now. unfold _pre_execution_checks, KillSwitch.check_daily_loss.
    assert (E : KillSwitch.daily_loss
                  (KillSwitch._reset_daily_counters now
                     (KillSwitch.reset kill_switch))
                = KillSwitch.daily_loss
                    (KillSwitch._reset_daily_counters now kill_switch)).
    { unfold KillSwitch._reset_daily_counters, KillSwitch.reset. simpl.
      destruct (_ <? _); reflexivity. }
    rewrite E.
    destruct (PyNum.geb _ _); [reflexivity|].
    destruct (RPCManager.is_healthy is_connected rpc); reflexivity.
  - intros now. unfold _pre_execution_checks, KillSwitch.check_daily_loss.
    unfold PyNum.geb.
    destruct (Qle_bool _ _) eqn:E.
    + apply Qle_bool_iff in E. cbn [fst]. split; [discriminate|].
      intros [Hlt _]. exfalso. apply (Qlt_not_le _ _ Hlt E).
    + assert (Hlt : (KillSwitch.daily_loss
                       (KillSwitch._reset_daily_counters now kill_switch)
                     < KillSwitch.max_daily_loss_usd cfg)%Q).
      { apply Qnot_le_lt. intros H. apply Qle_bool_iff in H. congruence. }
      destruct (RPCManager.is_healthy is_connected rpc); cbn [fst negb];
        split; auto; intros [_ H]; discriminate.
Qed.

Lemma pre_execution_checks_enforce_the_daily_ceiling_witness :
  fst (_pre_execution_checks (KillSwitch.mkConfig 100 5 false true) 500
         (KillSwitch.record_loss (KillSwitch.mkConfig 100 5 false true) 7 150
            (KillSwitch.init 0))
         (fun _ => Some true) (RPCManager.three_tier_state "tier_1"))
  = false.
Proof.
  apply (proj1 (pre_execution_checks_enforce_the_daily_ceiling
                  (KillSwitch.mkConfig 100 5 false true) (fun _ => Some true)
                  (RPCManager.three_tier_state "tier_1") (KillSwitch.init 0))
           7%Q 150%Q 500%Q).
  - vm_compute. discriminate.
  - vm_compute. discriminate.
Defined.

End BotEngine.
